(** * DoublyLinkedListSerializer: a doubly-linked list with a cross
    ("rand") pointer per node, its binary encoder and its decoder.

    The development embeds [src/DoublyLinkedListSerializer.cpp] in Rocq:
    - the heap of [ListNode] objects is a finite map from addresses to
      node records, and a [ListNode *] is an [option loc] ([None] is
      [nullptr]);
    - the [List] object ([head], [tail], [count]) and the [FILE] the
      encoder writes and the decoder reads are part of one [world];
    - member functions are computations in a state-and-exception monad [M],
      whose outcomes are normal return, a thrown [std::runtime_error],
      undefined behaviour ([Fault]) and non-termination ([Diverge]).

    Conventions of the model, stated once:
    - [int], [int32_t] are 32-bit two's complement, [uint32_t] is 32-bit,
      [size_t] and [std::string::size()] are 64-bit and never overflow
      here (they are unbounded naturals); casts between them are written
      out ([uint32_cast], [int32_cast]);
    - [fwrite]/[fread] of a 4-byte integer move its object representation,
      taken little-endian;
    - memory never runs out ([new], [reserve] and [resize] succeed), and
      [new] returns an address that is not live, chosen by [fresh];
    - signed overflow of [count++] is undefined behaviour ([Fault]);
    - the loops that chase [next] pointers run on fuel, the number of live
      nodes plus one, which every chain without repetition fits in;
    - [PrintList] returns the characters it sends to [std::cout].

    The file gives the model first, then the predicates and functions the
    statements are written with, then the proofs; the properties of the
    specification follow, each with the list it is checked on, and then
    further properties of the code: what the decoder accepts and frees,
    what a full device does to the encoder, how the operations compose. *)

From Stdlib Require Import ZArith Strings.Byte Strings.String.
From stdpp Require Import gmap list pretty.

Local Open Scope Z_scope.

(** ** Machine integers and their object representation *)

(** [static_cast<uint32_t>(z)] *)
Definition uint32_cast (z : Z) : Z := z mod 2 ^ 32.

(** [static_cast<int32_t>(z)] and [static_cast<int>(z)] *)
Definition int32_cast (z : Z) : Z := (z + 2 ^ 31) mod 2 ^ 32 - 2 ^ 31.

Definition INT_MAX : Z := 2 ^ 31 - 1.

Definition byte_of_Z (z : Z) : byte :=
  default x00 (Byte.of_N (Z.to_N (z mod 256))).

Definition Z_of_byte (b : byte) : Z := Z.of_N (Byte.to_N b).

(** The four bytes of a 32-bit integer, least significant first.  Floor
    division makes this the two's complement representation of negative
    values as well. *)
Definition le_bytes32 (z : Z) : list byte :=
  [byte_of_Z z; byte_of_Z (z / 2 ^ 8); byte_of_Z (z / 2 ^ 16);
   byte_of_Z (z / 2 ^ 24)].
Arguments le_bytes32 : simpl never.

(** The unsigned value held by a little-endian byte string. *)
Definition le_value (bs : list byte) : Z :=
  foldr (λ b acc, Z_of_byte b + 256 * acc) 0 bs.

(** ** Data model *)

Definition loc := positive.

(** [struct ListNode] *)
Record ListNode := mkNode {
  prev : option loc;
  next : option loc;
  rand : option loc;
  data : list byte
}.

(** [ListNode()] : all three pointers null, empty string. *)
Definition default_node : ListNode := mkNode None None None [].

Definition set_prev (v : option loc) (nd : ListNode) : ListNode :=
  mkNode v (next nd) (rand nd) (data nd).
Definition set_next (v : option loc) (nd : ListNode) : ListNode :=
  mkNode (prev nd) v (rand nd) (data nd).
Definition set_rand (v : option loc) (nd : ListNode) : ListNode :=
  mkNode (prev nd) (next nd) v (data nd).
Definition set_data (v : list byte) (nd : ListNode) : ListNode :=
  mkNode (prev nd) (next nd) (rand nd) v.

(** The private members of [class List]. *)
Record List := mkList {
  head : option loc;
  tail : option loc;
  count : Z
}.

Definition empty_list : List := mkList None None 0.

(** A [FILE]: the bytes still to be read, the bytes written so far, and
    how many more bytes the device accepts. *)
Record FILE := mkFILE {
  unread : list byte;
  written : list byte;
  room : nat
}.

(** A [FILE *] argument: null, or the stream of the world. *)
Inductive FILE_ptr := null_file | open_file.

Record world := mkWorld {
  mem : gmap loc ListNode;
  self : List;
  io : FILE
}.

Definition with_mem (m : gmap loc ListNode) (w : world) : world :=
  mkWorld m (self w) (io w).
Definition with_self (l : List) (w : world) : world :=
  mkWorld (mem w) l (io w).
Definition with_io (f : FILE) (w : world) : world :=
  mkWorld (mem w) (self w) f.

(** ** The monad of member functions *)

Inductive outcome (A : Type) : Type :=
| Done (a : A) (w : world)
| Throw (what : string) (w : world)
| Fault
| Diverge.
Arguments Done {A} a w.
Arguments Throw {A} what w.
Arguments Fault {A}.
Arguments Diverge {A}.

Definition M (A : Type) : Type := world → outcome A.

Definition ret {A} (a : A) : M A := λ w, Done a w.

Definition bind {A B} (k : A → M B) (c : M A) : M B := λ w,
  match c w with
  | Done a w' => k a w'
  | Throw s w' => Throw s w'
  | Fault => Fault
  | Diverge => Diverge
  end.

#[global] Instance M_ret : MRet M := @ret.
#[global] Instance M_bind : MBind M := @bind.

(** [throw std::runtime_error(what)] *)
Definition throw {A} (what : string) : M A := λ w, Throw what w.

Definition fault {A} : M A := λ _, Fault.
Definition diverge {A} : M A := λ _, Diverge.

(** Stack unwinding: when [c] throws, the destructors [cleanup] of the
    enclosing scope run and the exception goes on. *)
Definition on_unwind {A} (cleanup : M unit) (c : M A) : M A := λ w,
  match c w with
  | Throw s w' =>
      match cleanup w' with
      | Done _ w'' => Throw s w''
      | _ => Fault
      end
  | o => o
  end.

(** [for (size_t i = lo; ...; i++) body(i)], [todo] iterations. *)
Fixpoint for_loop (i : nat) (todo : nat) (body : nat → M unit) : M unit :=
  match todo with
  | O => mret tt
  | S todo' => body i ;; for_loop (S i) todo' body
  end.

(** *** Memory *)

(** Reading through a pointer: [*p]. *)
Definition load (p : option loc) : M ListNode := λ w,
  match p with
  | Some l => match mem w !! l with Some nd => Done nd w | None => Fault end
  | None => Fault
  end.

(** Assigning a member through a pointer: [p->field = v]. *)
Definition modify (p : option loc) (f : ListNode → ListNode) : M unit := λ w,
  match p with
  | Some l =>
      match mem w !! l with
      | Some nd => Done tt (with_mem (<[l := f nd]> (mem w)) w)
      | None => Fault
      end
  | None => Fault
  end.

(** [new ListNode()] and [std::make_unique<ListNode>()]: an address that
    is not live. *)
Definition new_ListNode : M loc := λ w,
  let l := fresh (dom (mem w)) in
  Done l (with_mem (<[l := default_node]> (mem w)) w).

(** [delete p] for a non-null [p]. *)
Definition delete_node (l : loc) : M unit := λ w,
  match mem w !! l with
  | Some _ => Done tt (with_mem (delete l (mem w)) w)
  | None => Fault
  end.

(** The number of live nodes; the fuel of the pointer-chasing loops. *)
Definition live_nodes : M nat := λ w, Done (size (mem w)) w.

(** *** The members of [this] *)

Definition this : M List := λ w, Done (self w) w.
Definition set_head (v : option loc) : M unit := λ w,
  Done tt (with_self (mkList v (tail (self w)) (count (self w))) w).
Definition set_tail (v : option loc) : M unit := λ w,
  Done tt (with_self (mkList (head (self w)) v (count (self w))) w).
Definition set_count (v : Z) : M unit := λ w,
  Done tt (with_self (mkList (head (self w)) (tail (self w)) v) w).

(** *** Streams *)

(** [fwrite(buf, size, nmemb, file)]: the device takes as many of the
    [size * nmemb] bytes as it has room for; the result is the number of
    complete items written. *)
Definition fwrite (buf : list byte) (size nmemb : Z) : M Z := λ w,
  let f := io w in
  let req := take (Z.to_nat (size * nmemb)) buf in
  let k := Nat.min (length req) (room f) in
  Done (Z.of_nat k / size)
       (with_io (mkFILE (unread f) (written f ++ take k req) (room f - k)%nat) w).

(** [fread(buf, size, nmemb, file)]: the bytes stored into the buffer and
    the number of complete items read. *)
Definition fread (size nmemb : Z) : M (list byte * Z) := λ w,
  let f := io w in
  let got := take (Z.to_nat (size * nmemb)) (unread f) in
  Done (got, Z.of_nat (length got) / size)
       (with_io (mkFILE (drop (length got) (unread f)) (written f) (room f)) w).

(** ** The member functions *)

(** [void List::AddNode(const std::string &data)] *)
Definition AddNode (d : list byte) : M unit :=
  newNode ← new_ListNode;
  modify (Some newNode) (set_data d) ;;
  l ← this;
  match head l with
  | None =>
      set_head (Some newNode) ;;
      set_tail (Some newNode)
  | Some _ =>
      modify (tail l) (set_next (Some newNode)) ;;
      modify (Some newNode) (set_prev (tail l)) ;;
      set_tail (Some newNode)
  end ;;
  l ← this;
  if count l =? INT_MAX then fault else set_count (count l + 1).

(** [while (node) { nodes.push_back(node); node = node->next; }] *)
Fixpoint Serialize_walk (fuel : nat) (node : option loc) (nodes : list loc)
  : M (list loc) :=
  match node with
  | None => mret nodes
  | Some p =>
      match fuel with
      | O => diverge
      | S fuel' =>
          nd ← load node;
          Serialize_walk fuel' (next nd) (nodes ++ [p])
      end
  end.

(** [for (size_t i = 0; i < nodes.size(); i++)
       nodeToIndex[nodes[i]] = static_cast<int32_t>(i);] *)
Fixpoint index_nodes (nodes : list loc) (i : nat) (nodeToIndex : gmap loc Z)
  : gmap loc Z :=
  match nodes with
  | [] => nodeToIndex
  | p :: rest =>
      index_nodes rest (S i) (<[p := int32_cast (Z.of_nat i)]> nodeToIndex)
  end.

(** [nodeToIndex[key]] as an rvalue: [std::unordered_map::operator[]]
    inserts a value-initialised entry when the key is missing. *)
Definition subscript (nodeToIndex : gmap loc Z) (key : loc)
  : Z * gmap loc Z :=
  match nodeToIndex !! key with
  | Some v => (v, nodeToIndex)
  | None => (0, <[key := 0]> nodeToIndex)
  end.

(** [for (ListNode *node : nodes) { ... }] of [Serialize] *)
Fixpoint Serialize_nodes (nodes : list loc) (nodeToIndex : gmap loc Z)
  : M unit :=
  match nodes with
  | [] => mret tt
  | node :: rest =>
      nd ← load (Some node);
      let dataSize := uint32_cast (Z.of_nat (length (data nd))) in
      k ← fwrite (le_bytes32 dataSize) 4 1;
      if negb (k =? 1) then throw "Error writing data size...stopped" else
      (if 0 <? dataSize then
         k ← fwrite (data nd) 1 dataSize;
         if negb (k =? dataSize) then throw "Error writing data...stopped"
         else mret tt
       else mret tt) ;;
      let '(randIndex, nodeToIndex') :=
        match rand nd with
        | Some r => subscript nodeToIndex r
        | None => (-1, nodeToIndex)
        end in
      k ← fwrite (le_bytes32 randIndex) 4 1;
      if negb (k =? 1) then throw "Error writing rand index...stopped" else
      Serialize_nodes rest nodeToIndex'
  end.

(** [void List::Serialize(FILE *file)] *)
Definition Serialize (file : FILE_ptr) : M unit :=
  match file with
  | null_file => throw "File not open for writing...stopped"
  | open_file =>
      l ← this;
      let ucount := uint32_cast (count l) in
      k ← fwrite (le_bytes32 ucount) 4 1;
      if negb (k =? 1) then throw "Error writing count...stopped" else
      fuel ← live_nodes;
      nodes ← Serialize_walk (S fuel) (head l) [];
      let nodeToIndex := index_nodes nodes 0 ∅ in
      Serialize_nodes nodes nodeToIndex
  end.

(** [uint32_t List::readUint32(FILE *file)] *)
Definition readUint32 : M Z :=
  '(value, k) ← fread 4 1;
  if negb (k =? 1) then throw "Error reading uint32_t value...stopped"
  else mret (le_value value).

(** [std::unique_ptr<ListNode> List::readNode(FILE *file,
    int32_t &outRandIndex)]; the result pairs the node with the value left
    in [outRandIndex].  The node is owned by a [unique_ptr], which frees
    it when an exception leaves the function. *)
Definition readNode : M (loc * Z) :=
  node ← new_ListNode;
  on_unwind (delete_node node)
    (dataSize ← readUint32;
     (if 0 <? dataSize then
        '(str, k) ← fread 1 dataSize;
        if negb (k =? dataSize) then throw "Error reading node data...stopped"
        else modify (Some node) (set_data str)
      else mret tt) ;;
     '(outRandIndex, k) ← fread 4 1;
     if negb (k =? 1) then throw "Error reading rand index...stopped"
     else mret (node, int32_cast (le_value outRandIndex))).

(** [void List::setupLinks(const std::vector<ListNode *> &nodes)] *)
Definition setupLinks (nodes : list loc) : M unit :=
  let n := length nodes in
  for_loop 0 n (λ i,
    (if (0 <? i)%nat then modify (nodes !! i) (set_prev (nodes !! (i - 1)%nat))
     else modify (nodes !! i) (set_prev None)) ;;
    (if (i <? n - 1)%nat then modify (nodes !! i) (set_next (nodes !! (i + 1)%nat))
     else modify (nodes !! i) (set_next None))).

(** [void List::setupRandPointers(const std::vector<ListNode *> &nodes,
    const std::vector<int32_t> &randIndices)] *)
Definition setupRandPointers (nodes : list loc) (randIndices : list Z)
  : M unit :=
  let n := length nodes in
  for_loop 0 n (λ i,
    match randIndices !! i with
    | None => fault
    | Some randomIndex =>
        if (0 <=? randomIndex) && (randomIndex <? Z.of_nat n) then
          modify (nodes !! i) (set_rand (nodes !! Z.to_nat randomIndex))
        else modify (nodes !! i) (set_rand None)
    end).

(** Destructor of [std::vector<std::unique_ptr<ListNode>>]. *)
Fixpoint delete_nodes (nodes : list loc) : M unit :=
  match nodes with
  | [] => mret tt
  | p :: rest => delete_node p ;; delete_nodes rest
  end.

(** [void List::Clear()] *)
Fixpoint Clear_loop (fuel : nat) (node : option loc) : M unit :=
  match node with
  | None => mret tt
  | Some p =>
      match fuel with
      | O => diverge
      | S fuel' =>
          nd ← load node;
          delete_node p ;;
          Clear_loop fuel' (next nd)
      end
  end.

Definition Clear : M unit :=
  l ← this;
  fuel ← live_nodes;
  Clear_loop (S fuel) (head l) ;;
  set_head None ;;
  set_tail None ;;
  set_count 0.

(** The reading loop of [Deserialize]; [rawNodes] also stands for
    [tempNodes], which owns the same nodes until they are released. *)
Fixpoint Deserialize_read (todo : nat) (rawNodes : list loc)
  (randIndices : list Z) : M (list loc * list Z) :=
  match todo with
  | O => mret (rawNodes, randIndices)
  | S todo' =>
      '(node, randomIndex) ← on_unwind (delete_nodes rawNodes) readNode;
      Deserialize_read todo' (rawNodes ++ [node]) (randIndices ++ [randomIndex])
  end.

(** [void List::Deserialize(FILE *file)] *)
Definition Deserialize (file : FILE_ptr) : M unit :=
  Clear ;;
  match file with
  | null_file => throw "File not open for reading...stopped"
  | open_file =>
      newCount ← readUint32;
      '(rawNodes, randIndices) ← Deserialize_read (Z.to_nat newCount) [] [];
      setupLinks rawNodes ;;
      setupRandPointers rawNodes randIndices ;;
      (if 0 <? newCount then
         set_head (rawNodes !! 0%nat) ;;
         set_tail (rawNodes !! Z.to_nat (newCount - 1))
       else
         set_tail None ;;
         set_head None) ;;
      set_count (int32_cast newCount)
  end.

(** [node = node->next], [n] times. *)
Fixpoint advance (n : nat) (node : option loc) : M (option loc) :=
  match n with
  | O => mret node
  | S n' => nd ← load node; advance n' (next nd)
  end.

(** [void List::SetRand(int nodeIndex, int randIndex)] *)
Definition SetRand (nodeIndex randIndex : Z) : M unit :=
  l ← this;
  if (nodeIndex <? 0) || (nodeIndex >=? count l) || (randIndex <? 0)
     || (randIndex >=? count l)
  then mret tt
  else
    node ← advance (Z.to_nat nodeIndex) (head l);
    randNode ← advance (Z.to_nat randIndex) (head l);
    modify node (set_rand randNode).

(** ** Well-formed lists *)

(** The traversal position of node [q]. *)
Fixpoint index_of (ps : list loc) (q : loc) : option nat :=
  match ps with
  | [] => None
  | p :: rest => if decide (p = q) then Some O else S <$> index_of rest q
  end.

(** What the node at traversal position [i] of the chain [ps] holds: its
    [next] and [prev] are its neighbours, and its [rand] is null or one of
    the nodes of the chain, at a position an [int] can hold. *)
Definition node_at (ps : list loc) (i : nat) (nd : ListNode) : Prop :=
  next nd = ps !! S i
  ∧ prev nd = match i with O => None | S j => ps !! j end
  ∧ ∀ q, rand nd = Some q → ∃ j, ps !! j = Some q ∧ Z.of_nat j < 2 ^ 31.

(** [is_list w ps]: the list object of [w] owns exactly the nodes [ps],
    in traversal order. *)
Record is_list (w : world) (ps : list loc) : Prop := mk_is_list {
  il_nodup : NoDup ps;
  il_head : head (self w) = ps !! 0%nat;
  il_tail : tail (self w) = last ps;
  il_count : count (self w) = int32_cast (Z.of_nat (length ps));
  il_nodes : ∀ i p, ps !! i = Some p →
               ∃ nd, mem w !! p = Some nd ∧ node_at ps i nd
}.

(** Following [next] from [p] visits exactly [ps] and then reaches null. *)
Fixpoint chain (m : gmap loc ListNode) (p : option loc) (ps : list loc)
  : Prop :=
  match ps with
  | [] => p = None
  | q :: rest => p = Some q ∧ ∃ nd, m !! q = Some nd ∧ chain m (next nd) rest
  end.

(** The heap after the nodes [ps] are freed, first to last. *)
Definition release (ps : list loc) (m : gmap loc ListNode)
  : gmap loc ListNode :=
  foldl (λ m p, delete p m) m ps.

(** An index [SetRand] accepts. *)
Definition in_range (l : List) (i : Z) : Prop := 0 ≤ i < count l.

(** The world [AddNode d] returns on a well-formed list: the new node [p]
    becomes the tail and the old tail, if any, points to it. *)
Definition appended (w : world) (d : list byte) : world :=
  let p := fresh (dom (mem w)) in
  let m1 := <[p := set_data d default_node]> (mem w) in
  match head (self w), tail (self w) with
  | Some h, Some t =>
      match m1 !! t with
      | Some nt =>
          mkWorld (<[p := mkNode (Some t) None None d]>
                     (<[t := set_next (Some p) nt]> m1))
                  (mkList (Some h) (Some p) (count (self w) + 1)) (io w)
      | None => w
      end
  | _, _ => mkWorld m1 (mkList (Some p) (Some p) (count (self w) + 1)) (io w)
  end.

(** ** A checker for [is_list] *)

Definition node_atb (ps : list loc) (i : nat) (nd : ListNode) : bool :=
  bool_decide (next nd = ps !! S i)
  && bool_decide (prev nd = match i with O => None | S j => ps !! j end)
  && match rand nd with
     | None => true
     | Some q =>
         match index_of ps q with
         | Some j => Z.of_nat j <? 2 ^ 31
         | None => false
         end
     end.

Definition is_listb (w : world) (ps : list loc) : bool :=
  bool_decide (NoDup ps)
  && bool_decide (head (self w) = ps !! 0%nat)
  && bool_decide (tail (self w) = last ps)
  && (count (self w) =? int32_cast (Z.of_nat (length ps)))
  && forallb (λ ip, match mem w !! ip.2 with
                    | Some nd => node_atb ps ip.1 nd
                    | None => false
                    end) (imap pair ps).

(** ** What [Serialize] writes *)

(** The value [Serialize] writes for a [rand] pointer. *)
Definition cross_index (ps : list loc) (r : option loc) : Z :=
  match r with
  | None => -1
  | Some q =>
      match index_of ps q with
      | Some j => int32_cast (Z.of_nat j)
      | None => 0
      end
  end.

(** The bytes [Serialize] writes for one node. *)
Definition wire_node (ps : list loc) (nd : ListNode) : list byte :=
  let dataSize := uint32_cast (Z.of_nat (length (data nd))) in
  le_bytes32 dataSize ++ take (Z.to_nat dataSize) (data nd)
  ++ le_bytes32 (cross_index ps (rand nd)).

Definition wire_nodes (m : gmap loc ListNode) (ps qs : list loc) : list byte :=
  concat (map (λ q, match m !! q with
                    | Some nd => wire_node ps nd
                    | None => []
                    end) qs).

(** The bytes [Serialize] writes for the list [ps] of [w]. *)
Definition wire (w : world) (ps : list loc) : list byte :=
  le_bytes32 (uint32_cast (count (self w))) ++ wire_nodes (mem w) ps ps.

(** The file after [bs] have been written to it. *)
Definition put (bs : list byte) (f : FILE) : FILE :=
  mkFILE (unread f) (written f ++ bs) (room f - length bs)%nat.

(** [unchanged_from w o]: the outcome [o] is a return or a throw, in a
    world whose heap and list object are those of [w]. *)
Definition unchanged_from {A} (w : world) (o : outcome A) : Prop :=
  match o with
  | Done _ w' | Throw _ w' => mem w' = mem w ∧ self w' = self w
  | Fault | Diverge => False
  end.

(** ** What [Deserialize] reads and builds *)

(** One record of a stream: payload length, payload, cross index. *)
Definition stream_record (r : list byte * Z) : list byte :=
  le_bytes32 (Z.of_nat (length r.1)) ++ r.1 ++ le_bytes32 r.2.

(** A record the 32-bit fields can hold. *)
Definition record_fits (r : list byte * Z) : Prop :=
  Z.of_nat (length r.1) < 2 ^ 32 ∧ - 2 ^ 31 ≤ r.2 < 2 ^ 31.

(** The file with [rest] left to read. *)
Definition rewind (rest : list byte) (f : FILE) : FILE :=
  mkFILE rest (written f) (room f).

(** The nodes the reading loop allocates for the records [recs], and the
    heap it leaves. *)
Fixpoint read_heap (recs : list (list byte * Z)) (m : gmap loc ListNode)
  : list loc * gmap loc ListNode :=
  match recs with
  | [] => ([], m)
  | r :: recs' =>
      let p := fresh (dom m) in
      let '(ps, m') := read_heap recs' (<[p := set_data r.1 default_node]> m) in
      (p :: ps, m')
  end.

(** The links [setupLinks] gives the node at index [i] of [nodes]. *)
Definition linked (nodes : list loc) (i : nat) (nd : ListNode) : ListNode :=
  mkNode (match i with O => None | S j => nodes !! j end) (nodes !! S i)
         (rand nd) (data nd).

(** The node a stored cross index resolves to. *)
Definition resolve (nodes : list loc) (randomIndex : Z) : option loc :=
  if (0 <=? randomIndex) && (randomIndex <? Z.of_nat (length nodes))
  then nodes !! Z.to_nat randomIndex else None.

(** ** What a computation preserves *)

(** [keeps P c]: when [c] returns or throws from a world in [P], it ends
    in a world in [P].  [throws_in P c] asks this of throws only. *)
Definition keeps {A} (P : world → Prop) (c : M A) : Prop :=
  ∀ w, P w → match c w with
             | Done _ w' | Throw _ w' => P w'
             | Fault | Diverge => True
             end.

Definition throws_in {A} (P : world → Prop) (c : M A) : Prop :=
  ∀ w, P w → match c w with
             | Throw _ w' => P w'
             | _ => True
             end.

(** What [Deserialize] returns for a stream of records: a list of as many
    nodes, each with the payload of its record and the cross-reference its
    stored index resolves to. *)
Definition decoded (recs : list (list byte * Z)) (w' : world) (ps : list loc)
  : Prop :=
  is_list w' ps
  ∧ length ps = length recs
  ∧ ∀ i p r, ps !! i = Some p → recs !! i = Some r →
      ∃ nd, mem w' !! p = Some nd ∧ data nd = r.1
            ∧ rand nd = resolve ps r.2.

(** ** Reachable states *)

(** The public operations of [List]. *)
Inductive operation :=
| op_AddNode (d : list byte)
| op_SetRand (nodeIndex randIndex : Z)
| op_Clear
| op_Serialize (file : FILE_ptr)
| op_Deserialize (file : FILE_ptr).

Definition perform (o : operation) : M unit :=
  match o with
  | op_AddNode d => AddNode d
  | op_SetRand nodeIndex randIndex => SetRand nodeIndex randIndex
  | op_Clear => Clear
  | op_Serialize file => Serialize file
  | op_Deserialize file => Deserialize file
  end.

(** The world a call leaves to its caller, by return or by exception. *)
Definition final {A} (o : outcome A) : option world :=
  match o with
  | Done _ w | Throw _ w => Some w
  | Fault | Diverge => None
  end.

(** The states of a [List] constructed empty and used through its public
    operations, the caller opening streams at will. *)
Inductive reachable : world → Prop :=
| reachable_new (f : FILE) : reachable (mkWorld ∅ empty_list f)
| reachable_stream (w : world) (f : FILE) :
    reachable w → reachable (with_io f w)
| reachable_step (w w' : world) (o : operation) :
    reachable w → final (perform o w) = Some w' → reachable w'.

(** The nodes met by following [next] from [p], with fuel. *)
Fixpoint follow (m : gmap loc ListNode) (fuel : nat) (p : option loc)
  : option (list loc) :=
  match p with
  | None => Some []
  | Some q =>
      match fuel with
      | O => None
      | S fuel' =>
          match m !! q with
          | Some nd => cons q <$> follow m fuel' (next nd)
          | None => None
          end
      end
  end.

(** The chain of the list object: the nodes from [head] along [next]. *)
Definition traversal (w : world) : option (list loc) :=
  follow (mem w) (S (size (mem w))) (head (self w)).

Definition nodes_of (w : world) : list loc := default [] (traversal w).

(** The lists built from the empty list by appends and in-range
    cross-reference assignments. *)
Inductive built : world → Prop :=
| built_new (f : FILE) : built (mkWorld ∅ empty_list f)
| built_stream (w : world) (f : FILE) : built w → built (with_io f w)
| built_AddNode (w w' : world) (d : list byte) :
    built w → AddNode d w = Done tt w' → built w'
| built_SetRand (w w' : world) (nodeIndex randIndex : Z) :
    built w →
    in_range (self w) nodeIndex → in_range (self w) randIndex →
    SetRand nodeIndex randIndex w = Done tt w' → built w'.

(** ** The list as its records *)

Definition payload_of (m : gmap loc ListNode) (p : loc) : list byte :=
  match m !! p with
  | Some nd => data nd
  | None => []
  end.

(** The traversal position of the node [p]'s cross-reference points to. *)
Definition cross_of (m : gmap loc ListNode) (ps : list loc) (p : loc)
  : option nat :=
  m !! p ≫= λ nd, rand nd ≫= index_of ps.

(** The payload of the node [p]'s cross-reference points to. *)
Definition cross_payload_of (m : gmap loc ListNode) (p : loc)
  : option (list byte) :=
  m !! p ≫= λ nd, rand nd ≫= λ q, data <$> m !! q.

(** Payload and cross-reference position of each node, in traversal order. *)
Definition records (m : gmap loc ListNode) (ps : list loc)
  : list (list byte * option nat) :=
  map (λ p, (payload_of m p, cross_of m ps p)) ps.

Definition cross_payloads (m : gmap loc ListNode) (ps : list loc)
  : list (option (list byte)) :=
  map (cross_payload_of m) ps.

(** The encoding as the specification words it: the count as an unsigned
    32-bit integer, then per node the payload length as an unsigned 32-bit
    integer, the payload bytes, and the position of the cross-reference as
    a signed 32-bit integer, -1 when absent. *)
Definition spec_cross_index (c : option nat) : Z :=
  match c with
  | Some j => Z.of_nat j
  | None => -1
  end.

Definition spec_encode_node (r : list byte * option nat) : list byte :=
  le_bytes32 (Z.of_nat (length r.1)) ++ r.1 ++ le_bytes32 (spec_cross_index r.2).

Definition spec_encode (recs : list (list byte * option nat)) : list byte :=
  le_bytes32 (Z.of_nat (length recs)) ++ concat (map spec_encode_node recs).

(** The limits of the unsigned 32-bit fields: the number of records and
    the length of each payload are below 2^32. *)
Definition fits32 (recs : list (list byte * option nat)) : Prop :=
  Z.of_nat (length recs) < 2 ^ 32
  ∧ Forall (λ r, Z.of_nat (length r.1) < 2 ^ 32) recs.

(** ** Records as a stream *)

Definition to_stream (r : list byte * option nat) : list byte * Z :=
  (r.1, spec_cross_index r.2).

(** ** Round trip *)

(** A stream holding the records [recs]: their number, then each record. *)
Definition stream_of (recs : list (list byte * Z)) : list byte :=
  le_bytes32 (Z.of_nat (length recs)) ++ concat (map stream_record recs).

(** [roundtrips w ps]: encoding the list [ps] of [w] returns, appends the
    specified encoding of its records to the stream, and decoding these
    bytes into any list gives a list with the same count, the same
    payloads, and cross-references to the same positions (so to nodes with
    the same payloads). *)
Definition roundtrips (w : world) (ps : list loc) : Prop :=
  ∃ w1,
    Serialize open_file w = Done tt w1
    ∧ written (io w1) = written (io w) ++ spec_encode (records (mem w) ps)
    ∧ ∀ w2 ps2 rest,
        is_list w2 ps2 →
        unread (io w2) = spec_encode (records (mem w) ps) ++ rest →
        ∃ w3 ps3,
          Deserialize open_file w2 = Done tt w3
          ∧ is_list w3 ps3
          ∧ count (self w3) = count (self w)
          ∧ records (mem w3) ps3 = records (mem w) ps
          ∧ cross_payloads (mem w3) ps3 = cross_payloads (mem w) ps.

(** ** Concrete worlds *)

(** A file opened for reading [bs], and one opened for writing on a device
    with room for [n] bytes. *)
Definition stream (bs : list byte) : FILE := mkFILE bs [] 0.
Definition sink (n : nat) : FILE := mkFILE [] [] n.

(** [List list;] in an empty heap. *)
Definition new_list (f : FILE) : world := mkWorld ∅ empty_list f.

(** The list of one node holding [d]. *)
Definition one_node (d : list byte) (f : FILE) : world :=
  mkWorld {[1%positive := mkNode None None None d]}
          (mkList (Some 1%positive) (Some 1%positive) 1) f.

(** The encoding of one node without cross-reference whose payload length
    is a multiple of 2^32: a count of 1, a length of 0, no payload byte,
    and the index -1. *)
Definition truncated : list byte :=
  [x01; x00; x00; x00; x00; x00; x00; x00; xff; xff; xff; xff].

(** ** A payload beyond the 32-bit length field *)

(** A payload of 2^32 zero bytes. *)
Definition huge_payload : list byte := replicate (Z.to_nat (2 ^ 32)) x00.

(** ** A small list *)

(** The world a call leaves, or the one it started from when it has no
    outcome. *)
Definition after (c : M unit) (w : world) : world :=
  default w (final (c w)).

(** Two nodes, "a" and "b", both with a cross-reference to "b". *)
Definition demo : world :=
  after (SetRand 1 1)
    (after (SetRand 0 1)
       (after (AddNode [x62])
          (after (AddNode [x61]) (new_list (sink 64))))).

Definition demo_nodes : list loc := [1%positive; 2%positive].

(** Three records: an index in range, one past the end, and -1. *)
Definition demo_records : list (list byte * Z) :=
  [([x61], 2); ([x62; x63], 3); ([], -1)].

(** A stream that announces two records and ends inside the second. *)
Definition short_stream : list byte :=
  [x02; x00; x00; x00;
   x01; x00; x00; x00; x61; xff; xff; xff; xff;
   x03; x00; x00; x00; x62].

(** ** The other members of [List] *)

(** [int List::GetCount() const] *)
Definition GetCount : M Z :=
  l ← this;
  mret (count l).


(** The characters of a string literal, and [std::cout << index] for a
    [uint32_t]: its decimal digits. *)
Definition text (s : string) : list byte := list_byte_of_string s.
Definition decimal (index : Z) : list byte := text (pretty (Z.to_N index)).

(** [void List::PrintList()]; the result is what the call sends to
    [std::cout], [cout] being what it has sent so far. *)
Fixpoint PrintList_loop (fuel : nat) (node : option loc) (index : Z)
  (cout : list byte) : M (list byte) :=
  match node with
  | None => mret cout
  | Some _ =>
      match fuel with
      | O => diverge
      | S fuel' =>
          nd ← load node;
          let cout :=
            cout ++ text "Node " ++ decimal index ++ text ": data = "
            ++ data nd ++ text ", rand = " in
          cout ← match rand nd with
                 | Some _ => r ← load (rand nd); mret (cout ++ data r)
                 | None => mret (cout ++ text "nullptr")
                 end;
          PrintList_loop fuel' (next nd) (uint32_cast (index + 1))
            (cout ++ [x0a])
      end
  end.

Definition PrintList : M (list byte) :=
  l ← this;
  fuel ← live_nodes;
  PrintList_loop (S fuel) (head l) 0 [].

(** [list.AddNode(d1); list.AddNode(d2); ...], as the tests build their
    lists. *)
Fixpoint AddNodes (ds : list (list byte)) : M unit :=
  match ds with
  | [] => mret tt
  | d :: ds' => AddNode d ;; AddNodes ds'
  end.

(** ** Ownership *)


(** ** Backward traversal *)

(** The nodes met by following [prev] from [p], with fuel. *)
Fixpoint follow_back (m : gmap loc ListNode) (fuel : nat) (p : option loc)
  : option (list loc) :=
  match p with
  | None => Some []
  | Some q =>
      match fuel with
      | O => None
      | S fuel' =>
          match m !! q with
          | Some nd => cons q <$> follow_back m fuel' (prev nd)
          | None => None
          end
      end
  end.

(** The nodes from [tail] along [prev]. *)
Definition traversal_back (w : world) : option (list loc) :=
  follow_back (mem w) (S (size (mem w))) (tail (self w)).

(** ** A device that fills up *)

(** The file after the device has taken as much of [bs] as it has room
    for. *)
Definition fill (bs : list byte) (f : FILE) : FILE :=
  mkFILE (unread f) (written f ++ take (room f) bs) (room f - length bs)%nat.

(** ** Streams in canonical form *)

(** A cross index as [Deserialize] understands it: the position it names
    among [n] records, if any. *)
Definition position (n : nat) (randomIndex : Z) : option nat :=
  if (0 <=? randomIndex) && (randomIndex <? Z.of_nat n)
  then Some (Z.to_nat randomIndex) else None.

(** The record a decoded stream record stands for. *)
Definition meaning (n : nat) (r : list byte * Z) : list byte * option nat :=
  (r.1, position n r.2).

(** ** What [PrintList] prints *)

(** One line: the index, the payload, and the payload of the
    cross-reference or [nullptr]. *)
Definition print_line (index : Z) (d : list byte) (c : option (list byte))
  : list byte :=
  text "Node " ++ decimal index ++ text ": data = " ++ d ++ text ", rand = "
  ++ default (text "nullptr") c ++ [x0a].

Fixpoint print_lines (i : nat) (rows : list (list byte * option (list byte)))
  : list byte :=
  match rows with
  | [] => []
  | r :: rest =>
      print_line (uint32_cast (Z.of_nat i)) r.1 r.2 ++ print_lines (S i) rest
  end.

(** Payload and cross payload of each node, in traversal order. *)
Definition rows (m : gmap loc ListNode) (ps : list loc)
  : list (list byte * option (list byte)) :=
  map (λ p, (payload_of m p, cross_payload_of m p)) ps.

(** ** Streams [Deserialize] accepts *)

(** The bytes begin with a count and that many complete records. *)
Definition holds_list (bs : list byte) : Prop :=
  ∃ recs rest,
    Forall record_fits recs ∧ Z.of_nat (length recs) < 2 ^ 32
    ∧ bs = stream_of recs ++ rest.

(** A cross index that is -1 or names one of [n] records. *)
Definition canonical (n : nat) (r : list byte * Z) : Prop :=
  r.2 = -1 ∨ 0 ≤ r.2 < Z.of_nat n.

(** * Proofs *)

(** ** Reasoning about computations *)

Lemma bind_unfold {A B} (k : A → M B) (c : M A) (w : world) :
  (c ≫= k) w =
  match c w with
  | Done a w' => k a w'
  | Throw s w' => Throw s w'
  | Fault => Fault
  | Diverge => Diverge
  end.
Proof. reflexivity. Qed.

Lemma bind_Done {A B} (k : A → M B) (c : M A) (w w' : world) (a : A) :
  c w = Done a w' → (c ≫= k) w = k a w'.
Proof. intros H. rewrite bind_unfold, H. reflexivity. Qed.

Lemma mret_unfold {A} (a : A) (w : world) : (mret a : M A) w = Done a w.
Proof. reflexivity. Qed.

Lemma load_Some (w : world) (l : loc) (nd : ListNode) :
  mem w !! l = Some nd → load (Some l) w = Done nd w.
Proof. intros H. unfold load. rewrite H. reflexivity. Qed.

Lemma modify_Some (w : world) (l : loc) (nd : ListNode) f :
  mem w !! l = Some nd →
  modify (Some l) f w = Done tt (with_mem (<[l := f nd]> (mem w)) w).
Proof. intros H. unfold modify. rewrite H. reflexivity. Qed.

Lemma delete_node_Some (w : world) (l : loc) (nd : ListNode) :
  mem w !! l = Some nd →
  delete_node l w = Done tt (with_mem (delete l (mem w)) w).
Proof. intros H. unfold delete_node. rewrite H. reflexivity. Qed.

(** ** Chains *)

Lemma lookup_release (ps : list loc) (m : gmap loc ListNode) (p : loc) :
  release ps m !! p = if decide (p ∈ ps) then None else m !! p.
Proof.
  unfold release. revert m. induction ps as [|q ps IH]; intros m; simpl.
  - destruct (decide (p ∈ [])) as [H|H]; [by apply elem_of_nil in H | done].
  - rewrite IH.
    destruct (decide (p = q)) as [->|Hne].
    + rewrite lookup_delete_eq.
      destruct (decide (q ∈ ps)) as [H1|H1],
        (decide (q ∈ q :: ps)) as [H2|H2]; try done.
      all: exfalso; apply H2; left.
    + rewrite lookup_delete_ne by done.
      destruct (decide (p ∈ ps)) as [H1|H1],
        (decide (p ∈ q :: ps)) as [H2|H2]; try done.
      * exfalso. apply H2. by right.
      * exfalso. by apply elem_of_cons in H2 as [?|?].
Qed.

Lemma is_list_chain_from (w : world) (ps : list loc) :
  is_list w ps →
  ∀ k i, length ps = (i + k)%nat → chain (mem w) (ps !! i) (drop i ps).
Proof.
  intros Hl k. induction k as [|k IH]; intros i Hlen.
  - rewrite drop_ge by lia. simpl. apply lookup_ge_None. lia.
  - destruct (lookup_lt_is_Some_2 ps i) as [p Hp]; [lia|].
    rewrite (drop_S _ _ _ Hp). simpl. split; [done|].
    destruct (il_nodes _ _ Hl i p Hp) as (nd & Hnd & Hnext & _).
    exists nd. split; [done|]. rewrite Hnext. apply IH. lia.
Qed.

Lemma is_list_chain (w : world) (ps : list loc) :
  is_list w ps → chain (mem w) (head (self w)) ps.
Proof.
  intros Hl. rewrite (il_head _ _ Hl).
  apply (is_list_chain_from w ps Hl (length ps) 0%nat). lia.
Qed.

Lemma chain_delete (m : gmap loc ListNode) (q : loc) (ps : list loc) p :
  q ∉ ps → chain m p ps → chain (delete q m) p ps.
Proof.
  revert p. induction ps as [|r ps IH]; intros p Hq; simpl; [done|].
  intros [-> (nd & Hnd & Hc)]. split; [done|].
  exists nd. split.
  - rewrite lookup_delete_ne; [done|]. set_solver.
  - apply IH; [set_solver | done].
Qed.

Lemma chain_live (m : gmap loc ListNode) (ps : list loc) p :
  chain m p ps → ∀ q, q ∈ ps → is_Some (m !! q).
Proof.
  revert p. induction ps as [|r ps IH]; intros p Hc q Hq.
  - by apply elem_of_nil in Hq.
  - destruct Hc as [-> (nd & Hnd & Hc)].
    apply elem_of_cons in Hq as [->|Hq]; [by eexists | by eapply IH].
Qed.

(** A chain without repetition is no longer than the heap is large, which
    is why [S (size m)] is enough fuel for the pointer-chasing loops. *)
Lemma chain_length (m : gmap loc ListNode) (ps : list loc) p :
  NoDup ps → chain m p ps → (length ps ≤ size m)%nat.
Proof.
  intros Hnd Hc.
  rewrite <- (size_list_to_set (C := gset loc) ps Hnd), <- size_dom.
  apply subseteq_size. intros q Hq. apply elem_of_list_to_set in Hq.
  apply elem_of_dom. by eapply chain_live.
Qed.

(** ** [Clear] *)

Lemma Clear_loop_chain (ps : list loc) :
  ∀ fuel p w, NoDup ps → chain (mem w) p ps → (length ps < fuel)%nat →
    Clear_loop fuel p w = Done tt (with_mem (release ps (mem w)) w).
Proof.
  induction ps as [|q ps IH]; intros fuel p w Hnd Hc Hfuel; simpl in *.
  - subst p. destruct fuel; [lia|]. simpl. by destruct w.
  - destruct Hc as [-> (nd & Hq & Hc)].
    destruct fuel as [|fuel]; [lia|]. simpl.
    rewrite (bind_Done _ _ _ _ _ (load_Some _ _ _ Hq)).
    rewrite (bind_Done _ _ _ _ _ (delete_node_Some _ _ _ Hq)).
    apply NoDup_cons in Hnd as [Hq' Hnd].
    rewrite (IH fuel (next nd)); simpl; [done|done| |lia].
    by apply chain_delete.
Qed.

Lemma Clear_is_list (w : world) (ps : list loc) :
  is_list w ps →
  Clear w = Done tt (mkWorld (release ps (mem w)) empty_list (io w)).
Proof.
  intros Hl. unfold Clear.
  pose proof (is_list_chain _ _ Hl) as Hc.
  pose proof (chain_length _ _ _ (il_nodup _ _ Hl) Hc) as Hlen.
  assert (Clear_loop (S (size (mem w))) (head (self w)) w
          = Done tt (with_mem (release ps (mem w)) w)) as Hloop.
  { apply Clear_loop_chain; [by apply (il_nodup _ _ Hl) | done | lia]. }
  rewrite bind_unfold. simpl. rewrite bind_unfold. simpl.
  rewrite (bind_Done _ _ _ _ _ Hloop).
  reflexivity.
Qed.

Lemma is_list_nil (m : gmap loc ListNode) (f : FILE) :
  is_list (mkWorld m empty_list f) [].
Proof.
  split; simpl; try done. apply NoDup_nil_2.
Qed.

(** ** Casts *)

Lemma int32_cast_small (z : Z) :
  - 2 ^ 31 ≤ z < 2 ^ 31 → int32_cast z = z.
Proof.
  intros H. unfold int32_cast. rewrite Z.mod_small; lia.
Qed.

Lemma int32_cast_le (z : Z) : 0 ≤ z → int32_cast z ≤ z.
Proof.
  intros H. unfold int32_cast.
  pose proof (Z.mod_le (z + 2 ^ 31) (2 ^ 32)). lia.
Qed.

Lemma int32_cast_range (z : Z) : - 2 ^ 31 ≤ int32_cast z < 2 ^ 31.
Proof.
  unfold int32_cast.
  pose proof (Z.mod_pos_bound (z + 2 ^ 31) (2 ^ 32)). lia.
Qed.

Lemma int32_cast_succ (z : Z) :
  int32_cast z ≠ INT_MAX → int32_cast (z + 1) = int32_cast z + 1.
Proof.
  unfold int32_cast, INT_MAX. intros H.
  pose proof (Z.mod_pos_bound (z + 2 ^ 31) (2 ^ 32)).
  replace (z + 1 + 2 ^ 31) with ((z + 2 ^ 31) + 1) by lia.
  rewrite <- (Zplus_mod_idemp_l (z + 2 ^ 31)).
  rewrite Z.mod_small; lia.
Qed.

(** ** [SetRand] *)

Lemma advance_is_list (w : world) (ps : list loc) :
  is_list w ps →
  ∀ k i, (i + k ≤ length ps)%nat →
    advance k (ps !! i) w = Done (ps !! (i + k)%nat) w.
Proof.
  intros Hl k. induction k as [|k IH]; intros i Hik; simpl.
  - by rewrite Nat.add_0_r.
  - destruct (lookup_lt_is_Some_2 ps i) as [p Hp]; [lia|].
    destruct (il_nodes _ _ Hl i p Hp) as (nd & Hnd & Hnext & _).
    rewrite Hp, (bind_Done _ _ _ _ _ (load_Some _ _ _ Hnd)), Hnext.
    rewrite IH by lia. f_equal. f_equal. lia.
Qed.

Lemma is_list_count_le (w : world) (ps : list loc) :
  is_list w ps → count (self w) ≤ Z.of_nat (length ps).
Proof.
  intros Hl. rewrite (il_count _ _ Hl). apply int32_cast_le. lia.
Qed.

Lemma is_list_set_rand (w : world) (ps : list loc) (p q : loc) (j : nat) nd :
  is_list w ps → mem w !! p = Some nd →
  ps !! j = Some q → Z.of_nat j < 2 ^ 31 →
  is_list (with_mem (<[p := set_rand (Some q) nd]> (mem w)) w) ps.
Proof.
  intros Hl Hp Hq Hj. destruct Hl as [Hnd Hh Ht Hc Hn].
  split; simpl; try done.
  intros i r Hr. destruct (Hn i r Hr) as (nr & Hnr & Hnext & Hprev & Hrand).
  destruct (decide (p = r)) as [->|Hne].
  - rewrite lookup_insert_eq. eexists; split; [done|].
    assert (nr = nd) as -> by congruence.
    split; [done|]. split; [done|]. simpl. intros ? [= <-]. by exists j.
  - rewrite lookup_insert_ne by done. by exists nr.
Qed.

Lemma SetRand_out_of_range (w : world) (nodeIndex randIndex : Z) :
  ¬ (in_range (self w) nodeIndex ∧ in_range (self w) randIndex) →
  SetRand nodeIndex randIndex w = Done tt w.
Proof.
  unfold in_range, SetRand. intros H. rewrite bind_unfold. simpl.
  destruct (_ || _) eqn:E; [done|].
  exfalso. apply H.
  repeat (apply orb_false_iff in E as [E ?]). lia.
Qed.

Lemma SetRand_in_range (w : world) (ps : list loc) (nodeIndex randIndex : Z) :
  is_list w ps →
  in_range (self w) nodeIndex → in_range (self w) randIndex →
  ∃ p q nd,
    ps !! Z.to_nat nodeIndex = Some p ∧ ps !! Z.to_nat randIndex = Some q
    ∧ mem w !! p = Some nd
    ∧ SetRand nodeIndex randIndex w
      = Done tt (with_mem (<[p := set_rand (Some q) nd]> (mem w)) w).
Proof.
  unfold in_range. intros Hl Hi Hj.
  pose proof (is_list_count_le _ _ Hl) as Hle.
  destruct (lookup_lt_is_Some_2 ps (Z.to_nat nodeIndex)) as [p Hp]; [lia|].
  destruct (lookup_lt_is_Some_2 ps (Z.to_nat randIndex)) as [q Hq]; [lia|].
  destruct (il_nodes _ _ Hl _ p Hp) as (nd & Hnd & _).
  exists p, q, nd. repeat (split; [done|]).
  unfold SetRand. rewrite bind_unfold. simpl.
  destruct (_ || _) eqn:E.
  { repeat (apply orb_true_iff in E as [E|E]); lia. }
  rewrite (il_head _ _ Hl).
  rewrite (bind_Done _ _ _ _ _
             (advance_is_list w ps Hl (Z.to_nat nodeIndex) 0%nat ltac:(lia))).
  rewrite (bind_Done _ _ _ _ _
             (advance_is_list w ps Hl (Z.to_nat randIndex) 0%nat ltac:(lia))).
  simpl. rewrite Hp, Hq. by apply modify_Some.
Qed.

(** ** Running the primitives *)

Section run.
Context {B : Type}.
Implicit Types (w : world).

Lemma run_mret {A} (a : A) (k : A → M B) w : (mret a ≫= k) w = k a w.
Proof. reflexivity. Qed.
Lemma run_this (k : List → M B) w : (this ≫= k) w = k (self w) w.
Proof. reflexivity. Qed.
Lemma run_live_nodes (k : nat → M B) w :
  (live_nodes ≫= k) w = k (size (mem w)) w.
Proof. reflexivity. Qed.
Lemma run_set_head v (k : unit → M B) w :
  (set_head v ≫= k) w
  = k tt (with_self (mkList v (tail (self w)) (count (self w))) w).
Proof. reflexivity. Qed.
Lemma run_set_tail v (k : unit → M B) w :
  (set_tail v ≫= k) w
  = k tt (with_self (mkList (head (self w)) v (count (self w))) w).
Proof. reflexivity. Qed.
Lemma run_set_count v (k : unit → M B) w :
  (set_count v ≫= k) w
  = k tt (with_self (mkList (head (self w)) (tail (self w)) v) w).
Proof. reflexivity. Qed.
Lemma run_new_ListNode (k : loc → M B) w :
  (new_ListNode ≫= k) w
  = k (fresh (dom (mem w)))
      (with_mem (<[fresh (dom (mem w)) := default_node]> (mem w)) w).
Proof. reflexivity. Qed.
Lemma run_throw {A} s (k : A → M B) w : (throw s ≫= k) w = Throw s w.
Proof. reflexivity. Qed.
Lemma run_assoc {A A'} (c : M A) (k : A → M A') (k' : A' → M B) w :
  ((c ≫= k) ≫= k') w = (c ≫= λ a, k a ≫= k') w.
Proof. rewrite !bind_unfold. by destruct (c w). Qed.
End run.

Create Rewrite HintDb run.
#[global] Hint Rewrite @run_assoc @run_mret @run_this @run_live_nodes @run_set_head
  @run_set_tail @run_set_count @run_new_ListNode @run_throw : run.

Ltac msimpl :=
  unfold with_mem, with_self, with_io;
  cbn beta iota delta [mem self io head tail count unread written room].

Ltac mrun := repeat (progress (autorewrite with run; msimpl)).

(** ** [AddNode] *)

Lemma fresh_not_live (m : gmap loc ListNode) : m !! fresh (dom m) = None.
Proof. apply not_elem_of_dom, is_fresh. Qed.

Lemma is_list_live (w : world) (ps : list loc) (p : loc) :
  is_list w ps → p ∈ ps → is_Some (mem w !! p).
Proof.
  intros Hl Hp. apply list_elem_of_lookup in Hp as [i Hi].
  destruct (il_nodes _ _ Hl i p Hi) as (nd & Hnd & _). by eexists.
Qed.

Lemma node_at_snoc (ps : list loc) (i : nat) (nd : ListNode) (p : loc) :
  (S i < length ps)%nat → node_at ps i nd → node_at (ps ++ [p]) i nd.
Proof.
  intros Hi (Hnext & Hprev & Hrand). split; [|split].
  - rewrite lookup_app_l by lia. done.
  - destruct i; [done|]. rewrite lookup_app_l by lia. done.
  - intros q Hq. destruct (Hrand q Hq) as (j & Hj & Hlt).
    exists j. split; [|done].
    rewrite lookup_app_l; [done|]. by eapply lookup_lt_Some.
Qed.

(** One step whose first action returns by the equation [H]. *)
Ltac mstep H := rewrite (bind_Done _ _ _ _ _ H); mrun.

Lemma AddNode_run (w : world) (ps : list loc) (d : list byte) :
  is_list w ps →
  AddNode d w
  = if count (self w) =? INT_MAX then Fault else Done tt (appended w d).
Proof.
  intros Hl. unfold AddNode, appended.
  pose proof (fresh_not_live (mem w)) as Hp.
  mrun. set (p := fresh (dom (mem w))) in *.
  mstep (modify_Some (mkWorld (<[p:=default_node]> (mem w)) (self w) (io w))
           p default_node (set_data d) (lookup_insert_eq _ _ _)).
  rewrite insert_insert_eq.
  rewrite (il_head _ _ Hl), (il_tail _ _ Hl).
  destruct ps as [|h ps _] using rev_ind.
  - simpl. mrun.
    destruct (count (self w) =? INT_MAX); reflexivity.
  - rewrite last_snoc.
    destruct (_ !! 0%nat) as [h0|] eqn:E0.
    2:{ apply lookup_ge_None in E0. rewrite length_app in E0. simpl in E0. lia. }
    destruct (is_list_live w (ps ++ [h]) h Hl) as [nt Hnt].
    { apply elem_of_app. right. by apply list_elem_of_singleton. }
    assert (h ≠ p) as Hne by (intros ->; congruence).
    assert (<[p := set_data d default_node]> (mem w) !! h = Some nt) as Hnt'.
    { by rewrite lookup_insert_ne. }
    rewrite Hnt'. mrun.
    mstep (modify_Some (mkWorld _ (self w) (io w)) h nt
             (set_next (Some p)) Hnt').
    erewrite bind_Done.
    2:{ apply modify_Some. msimpl.
        rewrite lookup_insert_ne by done. apply lookup_insert_eq. }
    mrun.
    rewrite (il_head _ _ Hl), E0.
    destruct (count (self w) =? INT_MAX); reflexivity.
Qed.

Lemma AddNode_Done (w : world) (ps : list loc) (d : list byte) :
  is_list w ps → count (self w) ≠ INT_MAX →
  AddNode d w = Done tt (appended w d).
Proof.
  intros Hl Hc. rewrite (AddNode_run w ps d Hl).
  by destruct (Z.eqb_spec (count (self w)) INT_MAX).
Qed.

Lemma AddNode_overflow (w : world) (ps : list loc) (d : list byte) :
  is_list w ps → count (self w) = INT_MAX → AddNode d w = Fault.
Proof.
  intros Hl Hc. rewrite (AddNode_run w ps d Hl), Hc. reflexivity.
Qed.

Lemma appended_shape (w : world) (ps : list loc) (d : list byte) :
  is_list w ps →
  let p := fresh (dom (mem w)) in
  let w' := appended w d in
  ((p ∉ ps)
   ∧ mem w' !! p = Some (mkNode (last ps) None None d)
   ∧ (∀ q nd, q ≠ p → mem w !! q = Some nd →
        mem w' !! q
        = Some (if decide (Some q = last ps) then set_next (Some p) nd else nd))
   ∧ self w' = mkList ((ps ++ [p]) !! 0%nat) (Some p) (count (self w) + 1)
   ∧ io w' = io w).
Proof.
  intros Hl p w'. subst w'. unfold appended. fold p.
  pose proof (fresh_not_live (mem w)) as Hp. fold p in Hp.
  assert (p ∉ ps) as Hps.
  { intros Hin. destruct (is_list_live _ _ _ Hl Hin) as [? ?]. congruence. }
  split; [done|].
  rewrite (il_head _ _ Hl), (il_tail _ _ Hl).
  destruct ps as [|t ps _] using rev_ind.
  - simpl. split; [by rewrite lookup_insert_eq|]. split; [|done].
    intros q nd Hq Hnd. rewrite lookup_insert_ne by done.
    destruct (decide (Some q = None)); done.
  - rewrite last_snoc.
    destruct (_ !! 0%nat) as [h|] eqn:E0.
    2:{ apply lookup_ge_None in E0. rewrite length_app in E0. simpl in E0. lia. }
    destruct (is_list_live w (ps ++ [t]) t Hl) as [nt Hnt].
    { apply elem_of_app. right. by apply list_elem_of_singleton. }
    assert (t ≠ p) as Hne by (intros ->; congruence).
    rewrite lookup_insert_ne, Hnt by done. simpl.
    split; [by rewrite lookup_insert_eq|]. split.
    + intros q nd Hq Hnd. rewrite lookup_insert_ne by done.
      destruct (decide (Some q = Some t)) as [[= ->]|Hqt].
      * rewrite lookup_insert_eq. congruence.
      * rewrite !lookup_insert_ne by congruence. done.
    + split; [|done]. f_equal.
      rewrite lookup_app_l; [done|]. by apply lookup_lt_Some in E0.
Qed.

Lemma appended_is_list (w : world) (ps : list loc) (d : list byte) :
  is_list w ps → count (self w) ≠ INT_MAX →
  is_list (appended w d) (ps ++ [fresh (dom (mem w))]).
Proof.
  intros Hl Hc.
  destruct (appended_shape w ps d Hl) as (Hp & Hnew & Hold & Hself & _).
  set (p := fresh (dom (mem w))) in *.
  split.
  - apply NoDup_app. split; [by apply (il_nodup _ _ Hl)|]. split.
    + intros q Hq ->%list_elem_of_singleton. done.
    + apply NoDup_singleton.
  - by rewrite Hself.
  - by rewrite Hself, last_snoc.
  - rewrite Hself, length_app, Nat2Z.inj_add. simpl.
    rewrite (il_count _ _ Hl) in Hc |- *. symmetry.
    by apply int32_cast_succ.
  - intros i q Hq.
    destruct (decide (i < length ps)%nat) as [Hi|Hi].
    + rewrite lookup_app_l in Hq by done.
      destruct (il_nodes _ _ Hl i q Hq) as (nd & Hnd & Hat).
      assert (q ≠ p) as Hqp.
      { intros ->. apply Hp. by eapply list_elem_of_lookup_2. }
      rewrite (Hold q nd Hqp Hnd).
      eexists. split; [done|].
      destruct (decide (Some q = last ps)) as [Hlast|Hlast].
      * assert (i = (length ps - 1)%nat) as ->.
        { symmetry in Hlast. rewrite last_lookup in Hlast.
          eapply NoDup_lookup; [apply (il_nodup _ _ Hl)|done|].
          rewrite <- Hlast. f_equal. lia. }
        destruct Hat as (Hnext & Hprev & Hrand). split; [|split]; simpl.
        -- rewrite lookup_app_r by lia.
           replace (S (length ps - 1) - length ps)%nat with 0%nat by lia. done.
        -- rewrite Hprev. destruct (length ps - 1)%nat eqn:E; [done|].
           rewrite lookup_app_l by lia. done.
        -- intros r Hr. destruct (Hrand r Hr) as (j & Hj & Hlt).
           exists j. split; [|done].
           rewrite lookup_app_l; [done|]. by eapply lookup_lt_Some.
      * destruct (decide (S i < length ps)%nat) as [HSi|HSi].
        { by apply node_at_snoc. }
        exfalso. apply Hlast. rewrite last_lookup, <- Hq. f_equal. lia.
    + assert (i = length ps) as ->.
      { apply lookup_lt_Some in Hq. rewrite length_app in Hq. simpl in Hq. lia. }
      rewrite list_lookup_middle in Hq by done. injection Hq as <-.
      rewrite Hnew. eexists. split; [done|]. split; [|split]; simpl.
      * symmetry. apply lookup_ge_None. rewrite length_app. simpl. lia.
      * rewrite last_lookup. destruct (length ps) eqn:E.
        -- by destruct ps.
        -- rewrite lookup_app_l by lia. simpl. done.
      * done.
Qed.

(** ** Object representations *)

Lemma Z_of_byte_of_Z (z : Z) : Z_of_byte (byte_of_Z z) = z mod 256.
Proof.
  unfold Z_of_byte, byte_of_Z.
  pose proof (Z.mod_pos_bound z 256 ltac:(lia)) as Hz.
  destruct (Byte.of_N (Z.to_N (z mod 256))) as [b|] eqn:E.
  - apply Byte.to_of_N in E. simpl. rewrite E. lia.
  - apply Byte.of_N_None_iff in E. lia.
Qed.

Lemma length_le_bytes32 (z : Z) : length (le_bytes32 z) = 4%nat.
Proof. reflexivity. Qed.

Lemma le_value_le_bytes32 (z : Z) : le_value (le_bytes32 z) = uint32_cast z.
Proof.
  unfold le_value, le_bytes32, uint32_cast. simpl.
  rewrite !Z_of_byte_of_Z.
  change (2 ^ 8) with 256. change (2 ^ 16) with (256 * 256).
  change (2 ^ 24) with (256 * 256 * 256).
  change (2 ^ 32) with (256 * 256 * 256 * 256).
  rewrite <- !Z.div_div by lia.
  Z.div_mod_to_equations. lia.
Qed.

Lemma int32_cast_uint32_cast (z : Z) :
  int32_cast (uint32_cast z) = int32_cast z.
Proof.
  unfold int32_cast, uint32_cast.
  rewrite Zplus_mod_idemp_l. reflexivity.
Qed.

Lemma uint32_cast_small (z : Z) : 0 ≤ z < 2 ^ 32 → uint32_cast z = z.
Proof. intros H. unfold uint32_cast. by apply Z.mod_small. Qed.

Lemma uint32_cast_range (z : Z) : 0 ≤ uint32_cast z < 2 ^ 32.
Proof. unfold uint32_cast. apply Z.mod_pos_bound. lia. Qed.

Lemma uint32_cast_int32_cast (z : Z) :
  uint32_cast (int32_cast z) = uint32_cast z.
Proof.
  unfold int32_cast, uint32_cast.
  rewrite Zminus_mod_idemp_l.
  replace (z + 2 ^ 31 - 2 ^ 31) with z by lia. reflexivity.
Qed.

(** ** [Serialize] writes the records *)

Lemma put_app (bs bs' : list byte) (f : FILE) :
  put bs' (put bs f) = put (bs ++ bs') f.
Proof.
  unfold put. simpl. rewrite length_app, <- app_assoc. f_equal. lia.
Qed.

Lemma put_nil (f : FILE) : put [] f = f.
Proof.
  unfold put. destruct f; simpl. rewrite app_nil_r. f_equal. lia.
Qed.

Lemma fwrite_enough (buf : list byte) (size nmemb : Z) (w : world) :
  0 < size → 0 ≤ nmemb →
  (Z.to_nat (size * nmemb) ≤ length buf)%nat →
  (Z.to_nat (size * nmemb) ≤ room (io w))%nat →
  fwrite buf size nmemb w
  = Done nmemb (with_io (put (take (Z.to_nat (size * nmemb)) buf) (io w)) w).
Proof.
  intros Hs Hn Hbuf Hroom. unfold fwrite, put.
  assert (length (take (Z.to_nat (size * nmemb)) buf)
          = Z.to_nat (size * nmemb)) as E by (rewrite length_take; lia).
  rewrite !E, Nat.min_l by lia.
  rewrite Z2Nat.id by lia. rewrite Z.mul_comm, Z.div_mul by lia.
  rewrite take_take, Nat.min_id. reflexivity.
Qed.

Lemma fwrite32_enough (z : Z) (w : world) :
  (4 ≤ room (io w))%nat →
  fwrite (le_bytes32 z) 4 1 w = Done 1 (with_io (put (le_bytes32 z) (io w)) w).
Proof.
  intros H. rewrite fwrite_enough; try done; simpl; lia.
Qed.

Lemma Serialize_walk_chain (ps : list loc) :
  ∀ fuel p acc w, chain (mem w) p ps → (length ps < fuel)%nat →
    Serialize_walk fuel p acc w = Done (acc ++ ps) w.
Proof.
  induction ps as [|q ps IH]; intros fuel p acc w Hc Hfuel; simpl in *.
  - subst p. destruct fuel; [lia|]. simpl. by rewrite app_nil_r.
  - destruct Hc as [-> (nd & Hq & Hc)].
    destruct fuel as [|fuel]; [lia|]. simpl.
    mstep (load_Some _ _ _ Hq).
    rewrite (IH fuel) by (done || lia).
    by rewrite <- app_assoc.
Qed.

Lemma index_nodes_notin (ps : list loc) :
  ∀ i m q, q ∉ ps → index_nodes ps i m !! q = m !! q.
Proof.
  induction ps as [|p ps IH]; intros i m q Hq; simpl; [done|].
  apply not_elem_of_cons in Hq as [Hne Hq].
  rewrite IH by done. by rewrite lookup_insert_ne.
Qed.

Lemma index_nodes_lookup (ps : list loc) :
  ∀ i m q j, NoDup ps → index_of ps q = Some j →
    index_nodes ps i m !! q = Some (int32_cast (Z.of_nat (i + j))).
Proof.
  induction ps as [|p ps IH]; intros i m q j Hnd Hj; simpl in *; [done|].
  apply NoDup_cons in Hnd as [Hp Hnd].
  destruct (decide (p = q)) as [->|Hne].
  - injection Hj as <-. rewrite index_nodes_notin by done.
    rewrite lookup_insert_eq. do 3 f_equal. lia.
  - destruct (index_of ps q) as [j'|] eqn:E; [|done].
    injection Hj as <-. rewrite (IH _ _ q j') by done.
    do 3 f_equal. lia.
Qed.

Lemma index_of_lookup (ps : list loc) (q : loc) (j : nat) :
  index_of ps q = Some j → ps !! j = Some q.
Proof.
  revert j. induction ps as [|p ps IH]; intros j Hj; simpl in *; [done|].
  destruct (decide (p = q)) as [->|Hne].
  - by injection Hj as <-.
  - destruct (index_of ps q) as [j'|] eqn:E; [|done].
    injection Hj as <-. simpl. by apply IH.
Qed.

Lemma index_of_elem (ps : list loc) (q : loc) :
  q ∈ ps → is_Some (index_of ps q).
Proof.
  induction ps as [|p ps IH]; intros Hq; simpl.
  - by apply elem_of_nil in Hq.
  - destruct (decide (p = q)) as [->|Hne]; [by eexists|].
    apply elem_of_cons in Hq as [->|Hq]; [done|].
    destruct (IH Hq) as [j ->]. by eexists.
Qed.

Lemma index_of_NoDup (ps : list loc) (q : loc) (j : nat) :
  NoDup ps → ps !! j = Some q → index_of ps q = Some j.
Proof.
  intros Hnd Hj.
  destruct (index_of_elem ps q) as [j' Hj'].
  { by eapply list_elem_of_lookup_2. }
  rewrite Hj'. f_equal.
  eapply NoDup_lookup; [done| |done]. by apply index_of_lookup.
Qed.

(** ** The checker is sound *)

Lemma is_listb_sound (w : world) (ps : list loc) :
  is_listb w ps = true → is_list w ps.
Proof.
  unfold is_listb. rewrite !andb_true_iff.
  intros [[[[Hnd Hh] Ht] Hc] Hn].
  apply bool_decide_eq_true in Hnd, Hh, Ht. apply Z.eqb_eq in Hc.
  split; try done.
  intros i p Hp. rewrite forallb_forall in Hn.
  specialize (Hn (i, p)). simpl in Hn.
  destruct (mem w !! p) as [nd|].
  2:{ discriminate Hn. apply list_elem_of_In, elem_of_lookup_imap. eauto. }
  exists nd. split; [done|].
  unfold node_atb in Hn. rewrite !andb_true_iff in Hn.
  destruct Hn as [[Hnext Hprev] Hrand].
  { apply list_elem_of_In, elem_of_lookup_imap. eauto. }
  apply bool_decide_eq_true in Hnext, Hprev.
  split; [done|]. split; [done|].
  intros q Hq. rewrite Hq in Hrand.
  destruct (index_of ps q) as [j|] eqn:E; [|done].
  exists j. split; [by apply index_of_lookup | by apply Z.ltb_lt].
Qed.

Lemma subscript_indexed (ps : list loc) (q : loc) :
  NoDup ps → q ∈ ps →
  subscript (index_nodes ps 0 ∅) q
  = (cross_index ps (Some q), index_nodes ps 0 ∅).
Proof.
  intros Hnd Hq. destruct (index_of_elem ps q Hq) as [j Hj].
  unfold subscript, cross_index.
  rewrite (index_nodes_lookup ps 0 ∅ q j Hnd Hj), Hj. reflexivity.
Qed.

Lemma length_wire_node (ps : list loc) (nd : ListNode) :
  length (wire_node ps nd)
  = (8 + Z.to_nat (uint32_cast (Z.of_nat (length (data nd)))))%nat.
Proof.
  unfold wire_node. rewrite !length_app, !length_le_bytes32, length_take.
  pose proof (Z.mod_le (Z.of_nat (length (data nd))) (2 ^ 32)).
  unfold uint32_cast. lia.
Qed.

Lemma Serialize_nodes_wire (ps qs : list loc) :
  NoDup ps →
  ∀ w,
    (∀ q, q ∈ qs → ∃ nd, mem w !! q = Some nd ∧ ∀ r, rand nd = Some r → r ∈ ps) →
    (length (wire_nodes (mem w) ps qs) ≤ room (io w))%nat →
    Serialize_nodes qs (index_nodes ps 0 ∅) w
    = Done tt (with_io (put (wire_nodes (mem w) ps qs) (io w)) w).
Proof.
  intros Hnd. induction qs as [|q qs IH]; intros w Hlive Hroom.
  - simpl. unfold wire_nodes. simpl. rewrite put_nil. by destruct w.
  - destruct (Hlive q) as (nd & Hq & Hrand); [by left|].
    unfold wire_nodes in Hroom |- *. simpl in Hroom |- *.
    rewrite Hq in Hroom |- *. fold (wire_nodes (mem w) ps qs) in Hroom |- *.
    rewrite length_app, length_wire_node in Hroom.
    set (dataSize := uint32_cast (Z.of_nat (length (data nd)))) in *.
    assert (0 ≤ dataSize ≤ Z.of_nat (length (data nd))) as Hsize.
    { subst dataSize. unfold uint32_cast.
      pose proof (Z.mod_pos_bound (Z.of_nat (length (data nd))) (2 ^ 32)).
      pose proof (Z.mod_le (Z.of_nat (length (data nd))) (2 ^ 32)). lia. }
    mstep (load_Some _ _ _ Hq).
    mstep (fwrite32_enough dataSize w ltac:(lia)).
    change (negb (1 =? 1)) with false. cbn iota.
    assert (∀ B (k : unit → M B),
      ((if 0 <? dataSize
        then fwrite (data nd) 1 dataSize
             ≫= λ k, if negb (k =? dataSize)
                      then throw "Error writing data...stopped" else mret tt
        else mret tt) ≫= k)
        (mkWorld (mem w) (self w) (put (le_bytes32 dataSize) (io w)))
      = k tt (mkWorld (mem w) (self w)
                (put (le_bytes32 dataSize
                      ++ take (Z.to_nat dataSize) (data nd)) (io w)))) as Hdata.
    { intros B k. destruct (Z.ltb_spec 0 dataSize) as [Hpos|Hzero].
      - rewrite run_assoc.
        erewrite bind_Done.
        2:{ apply fwrite_enough; [lia | lia | lia |].
            unfold put. cbn [io room]. rewrite length_le_bytes32. lia. }
        rewrite Z.eqb_refl. cbn [negb]. mrun.
        rewrite put_app. rewrite Z.mul_1_l. reflexivity.
      - mrun. replace dataSize with 0 by lia.
        change (Z.to_nat 0) with 0%nat. by rewrite take_0, app_nil_r. }
    rewrite Hdata.
    assert (match rand nd with
            | Some r => subscript (index_nodes ps 0 ∅) r
            | None => (-1, index_nodes ps 0 ∅)
            end = (cross_index ps (rand nd), index_nodes ps 0 ∅)) as ->.
    { destruct (rand nd) as [r|] eqn:Er; [|done].
      apply subscript_indexed; [done|]. by apply Hrand. }
    erewrite bind_Done.
    2:{ apply fwrite32_enough. unfold put. cbn [io room].
        rewrite length_app, length_le_bytes32, length_take. lia. }
    mrun. change (negb (1 =? 1)) with false. cbn iota.
    rewrite IH.
    + msimpl. rewrite !put_app. unfold wire_node. fold dataSize.
      by rewrite <- !app_assoc.
    + intros r Hr. apply Hlive. by right.
    + msimpl. unfold put. cbn [io room].
      rewrite !length_app, !length_le_bytes32, length_take. lia.
Qed.

Lemma is_list_wire_live (w : world) (ps : list loc) :
  is_list w ps →
  ∀ q, q ∈ ps → ∃ nd, mem w !! q = Some nd ∧ ∀ r, rand nd = Some r → r ∈ ps.
Proof.
  intros Hl q Hq. apply list_elem_of_lookup in Hq as [i Hi].
  destruct (il_nodes _ _ Hl i q Hi) as (nd & Hnd & _ & _ & Hrand).
  exists nd. split; [done|]. intros r Hr.
  destruct (Hrand r Hr) as (j & Hj & _). by eapply list_elem_of_lookup_2.
Qed.

Lemma Serialize_Done (w : world) (ps : list loc) :
  is_list w ps → (length (wire w ps) ≤ room (io w))%nat →
  Serialize open_file w = Done tt (with_io (put (wire w ps) (io w)) w).
Proof.
  intros Hl Hroom. unfold Serialize, wire in *.
  rewrite length_app, length_le_bytes32 in Hroom.
  mrun.
  mstep (fwrite32_enough (uint32_cast (count (self w))) w ltac:(lia)).
  change (negb (1 =? 1)) with false. cbn iota. mrun.
  pose proof (is_list_chain _ _ Hl) as Hc.
  pose proof (chain_length _ _ _ (il_nodup _ _ Hl) Hc) as Hlen.
  erewrite bind_Done.
  2:{ apply (Serialize_walk_chain ps); [done | lia]. }
  rewrite app_nil_l.
  rewrite Serialize_nodes_wire.
  - msimpl. rewrite put_app. reflexivity.
  - apply (il_nodup _ _ Hl).
  - msimpl. by apply is_list_wire_live.
  - msimpl. unfold put. cbn [io room]. rewrite length_le_bytes32. lia.
Qed.

(** ** [Serialize] only reads the list *)

Lemma fwrite_returns buf size nmemb (w : world) :
  ∃ k f, fwrite buf size nmemb w = Done k (with_io f w).
Proof. by eexists _, _. Qed.

Ltac step_fwrite :=
  match goal with
  | |- context [(fwrite ?b ?s ?n ≫= _) ?w] =>
      let k := fresh "k" in
      let f := fresh "f" in
      let E := fresh "E" in
      destruct (fwrite_returns b s n w) as (k & f & E);
      rewrite (bind_Done _ _ _ _ _ E); clear E; msimpl
  end.

Lemma unchanged_from_trans {A} (w w1 : world) (o : outcome A) :
  mem w1 = mem w → self w1 = self w →
  unchanged_from w1 o → unchanged_from w o.
Proof. intros Hm Hs. destruct o; simpl; try done; by rewrite Hm, Hs. Qed.

Ltac throws := by (split; reflexivity).

Lemma Serialize_nodes_unchanged (qs : list loc) :
  ∀ nodeToIndex w,
    (∀ q, q ∈ qs → is_Some (mem w !! q)) →
    unchanged_from w (Serialize_nodes qs nodeToIndex w).
Proof.
  induction qs as [|q qs IH]; intros idx w Hlive.
  - done.
  - destruct (Hlive q) as [nd Hq]; [by left|].
    simpl. mstep (load_Some _ _ _ Hq).
    step_fwrite.
    match goal with |- context [negb ?b] => destruct (negb b) end;
      [throws|].
    rewrite ?run_assoc.
    destruct (0 <? uint32_cast (Z.of_nat (length (data nd)))).
    + rewrite ?run_assoc. step_fwrite.
      match goal with |- context [negb ?b] => destruct (negb b) end;
        [throws|].
      mrun.
      destruct (match rand nd with
                | Some r => subscript idx r
                | None => (-1, idx)
                end) as [randIndex idx'].
      step_fwrite.
      match goal with |- context [negb ?b] => destruct (negb b) end;
        [throws|].
      eapply unchanged_from_trans; [| |apply IH]; [done|done|].
      intros r Hr. apply Hlive. by right.
    + mrun.
      destruct (match rand nd with
                | Some r => subscript idx r
                | None => (-1, idx)
                end) as [randIndex idx'].
      step_fwrite.
      match goal with |- context [negb ?b] => destruct (negb b) end;
        [throws|].
      eapply unchanged_from_trans; [| |apply IH]; [done|done|].
      intros r Hr. apply Hlive. by right.
Qed.

Lemma Serialize_unchanged (w : world) (ps : list loc) (file : FILE_ptr) :
  is_list w ps → unchanged_from w (Serialize file w).
Proof.
  intros Hl. destruct file; [done|]. unfold Serialize.
  mrun. step_fwrite.
  match goal with |- context [negb ?b] => destruct (negb b) end;
    [throws|].
  mrun.
  pose proof (is_list_chain _ _ Hl) as Hc.
  pose proof (chain_length _ _ _ (il_nodup _ _ Hl) Hc) as Hlen.
  erewrite bind_Done.
  2:{ apply (Serialize_walk_chain ps); [done | msimpl; lia]. }
  rewrite app_nil_l.
  eapply unchanged_from_trans; [| |apply Serialize_nodes_unchanged]; try done.
  intros q Hq. msimpl. by eapply is_list_live.
Qed.

(** ** [Deserialize] on a stream of records *)

Lemma fread_enough (bs rest : list byte) (size nmemb : Z) (w : world) :
  0 < size → 0 ≤ nmemb →
  length bs = Z.to_nat (size * nmemb) →
  unread (io w) = bs ++ rest →
  fread size nmemb w = Done (bs, nmemb) (with_io (rewind rest (io w)) w).
Proof.
  intros Hs Hn Hlen Hbs. unfold fread, rewind. rewrite Hbs, <- Hlen.
  rewrite take_app_length, drop_app_length.
  rewrite Hlen, Z2Nat.id by lia. rewrite Z.mul_comm, Z.div_mul by lia.
  reflexivity.
Qed.

Lemma readUint32_enough (z : Z) (rest : list byte) (w : world) :
  unread (io w) = le_bytes32 z ++ rest →
  readUint32 w = Done (uint32_cast z) (with_io (rewind rest (io w)) w).
Proof.
  intros Hbs. unfold readUint32.
  mstep (fread_enough (le_bytes32 z) rest 4 1 w ltac:(lia) ltac:(lia)
           eq_refl Hbs).
  change (negb (1 =? 1)) with false. cbn iota.
  by rewrite mret_unfold, le_value_le_bytes32.
Qed.

Lemma on_unwind_Done {A} (cleanup : M unit) (c : M A) (w w' : world) (a : A) :
  c w = Done a w' → on_unwind cleanup c w = Done a w'.
Proof. intros H. unfold on_unwind. by rewrite H. Qed.

Lemma readNode_enough (r : list byte * Z) (rest : list byte) (w : world) :
  record_fits r →
  unread (io w) = stream_record r ++ rest →
  readNode w
  = Done (fresh (dom (mem w)), r.2)
         (mkWorld (<[fresh (dom (mem w)) := set_data r.1 default_node]> (mem w))
                  (self w) (rewind rest (io w))).
Proof.
  destruct r as [d idx]. unfold record_fits, stream_record. simpl.
  intros [Hd Hidx] Hbs. unfold readNode. mrun.
  set (p := fresh (dom (mem w))).
  apply on_unwind_Done.
  rewrite <- !app_assoc in Hbs.
  erewrite bind_Done; [|apply readUint32_enough; msimpl; exact Hbs]. mrun.
  rewrite uint32_cast_small by lia.
  assert (∀ B (k : unit → M B),
    ((if 0 <? Z.of_nat (length d)
      then fread 1 (Z.of_nat (length d))
           ≫= λ '(str, k), if negb (k =? Z.of_nat (length d))
                            then throw "Error reading node data...stopped"
                            else modify (Some p) (set_data str)
      else mret tt) ≫= k)
      (mkWorld (<[p := default_node]> (mem w)) (self w)
         (rewind (d ++ le_bytes32 idx ++ rest) (io w)))
    = k tt (mkWorld (<[p := set_data d default_node]> (mem w)) (self w)
              (rewind (le_bytes32 idx ++ rest) (io w)))) as Hdata.
  { intros B k. destruct (Z.ltb_spec 0 (Z.of_nat (length d))) as [Hpos|Hzero].
    - rewrite run_assoc.
      erewrite bind_Done.
      2:{ apply (fread_enough d (le_bytes32 idx ++ rest)); [lia|lia|lia|done]. }
      msimpl. rewrite Z.eqb_refl. cbn [negb]. msimpl.
      erewrite bind_Done.
      2:{ apply modify_Some. msimpl. apply lookup_insert_eq. }
      msimpl. by rewrite insert_insert_eq.
    - mrun. destruct d; [|simpl in Hzero; lia]. reflexivity. }
  rewrite Hdata.
  erewrite bind_Done.
  2:{ apply (fread_enough (le_bytes32 idx) rest); [lia|lia|done|done]. }
  msimpl. change (negb (1 =? 1)) with false. cbn iota.
  rewrite mret_unfold, le_value_le_bytes32, int32_cast_uint32_cast.
  rewrite int32_cast_small by lia. reflexivity.
Qed.

Lemma read_heap_spec (recs : list (list byte * Z)) :
  ∀ m ps m', read_heap recs m = (ps, m') →
    length ps = length recs
    ∧ NoDup ps
    ∧ (∀ p, p ∈ ps → m !! p = None)
    ∧ (∀ p, p ∉ ps → m' !! p = m !! p)
    ∧ (∀ i p r, ps !! i = Some p → recs !! i = Some r →
         m' !! p = Some (set_data r.1 default_node)).
Proof.
  induction recs as [|r recs IH]; intros m ps m' H; simpl in H.
  - injection H as <- <-. repeat split; try done.
    + apply NoDup_nil_2.
    + intros p Hp. by apply elem_of_nil in Hp.
  - destruct (read_heap recs _) as [qs m1] eqn:E. injection H as <- <-.
    destruct (IH _ _ _ E) as (Hlen & Hnd & Hfresh & Hframe & Hnew).
    set (p := fresh (dom m)) in *.
    pose proof (fresh_not_live m) as Hp. fold p in Hp.
    assert (p ∉ qs) as Hpq.
    { intros Hin. specialize (Hfresh p Hin).
      by rewrite lookup_insert_eq in Hfresh. }
    split; [simpl; by rewrite Hlen|]. split; [by apply NoDup_cons|].
    split; [|split].
    + intros q [->|Hq]%elem_of_cons; [done|].
      specialize (Hfresh q Hq). rewrite lookup_insert_ne in Hfresh; [done|].
      intros ->. done.
    + intros q [Hqp Hq]%not_elem_of_cons.
      rewrite Hframe by done. by rewrite lookup_insert_ne.
    + intros [|i] q r' Hq Hr; simpl in Hq, Hr.
      * injection Hq as <-. injection Hr as <-.
        rewrite Hframe by done. apply lookup_insert_eq.
      * by eapply Hnew.
Qed.

Lemma Deserialize_read_enough (recs : list (list byte * Z)) :
  ∀ rest w rawNodes randIndices,
    Forall record_fits recs →
    unread (io w) = concat (map stream_record recs) ++ rest →
    Deserialize_read (length recs) rawNodes randIndices w
    = Done (rawNodes ++ (read_heap recs (mem w)).1,
            randIndices ++ map snd recs)
           (mkWorld (read_heap recs (mem w)).2 (self w) (rewind rest (io w))).
Proof.
  induction recs as [|r recs IH]; intros rest w raw idxs Hfit Hbs; simpl.
  - rewrite !app_nil_r. simpl in Hbs. rewrite mret_unfold.
    unfold rewind. rewrite <- Hbs. clear Hbs.
    destruct w as [m s f]; destruct f; reflexivity.
  - apply Forall_cons in Hfit as [Hr Hfit].
    simpl in Hbs. rewrite <- app_assoc in Hbs.
    erewrite bind_Done.
    2:{ apply on_unwind_Done.
        by apply (readNode_enough r (concat (map stream_record recs) ++ rest)). }
    msimpl. rewrite IH with (rest := rest); [|done|done].
    msimpl. destruct (read_heap recs _) as [ps m'] eqn:E. simpl.
    by rewrite <- !app_assoc.
Qed.

(** A loop over the indices of [nodes] whose body rewrites the node at
    its index rewrites every node once and touches nothing else. *)
Lemma for_loop_modify (nodes : list loc) (f : nat → ListNode → ListNode)
  (body : nat → M unit) :
  (∀ i p w nd, nodes !! i = Some p → mem w !! p = Some nd →
     body i w = Done tt (with_mem (<[p := f i nd]> (mem w)) w)) →
  NoDup nodes →
  ∀ todo i w,
    (i + todo)%nat = length nodes →
    (∀ p, p ∈ nodes → is_Some (mem w !! p)) →
    ∃ m', for_loop i todo body w = Done tt (with_mem m' w)
          ∧ (∀ p, p ∉ drop i nodes → m' !! p = mem w !! p)
          ∧ (∀ j p nd, (i ≤ j)%nat → nodes !! j = Some p →
               mem w !! p = Some nd → m' !! p = Some (f j nd)).
Proof.
  intros Hbody Hnd todo. induction todo as [|todo IH]; intros i w Hi Hlive.
  - exists (mem w). simpl. split; [by destruct w|]. split; [done|].
    intros j p nd Hj Hp _. apply lookup_lt_Some in Hp. lia.
  - destruct (lookup_lt_is_Some_2 nodes i) as [p Hp]; [lia|].
    destruct (Hlive p) as [nd Hpnd]; [by eapply list_elem_of_lookup_2|].
    simpl. mstep (Hbody i p w nd Hp Hpnd).
    destruct (IH (S i) (mkWorld (<[p := f i nd]> (mem w)) (self w) (io w)))
      as (m' & Hrun & Hframe & Hnew).
    { lia. }
    { intros q Hq. msimpl. destruct (decide (p = q)) as [->|Hne].
      - rewrite lookup_insert_eq. by eexists.
      - rewrite lookup_insert_ne by done. by apply Hlive. }
    exists m'. split; [exact Hrun|]. msimpl. split.
    + intros q Hq. rewrite (drop_S _ _ _ Hp) in Hq.
      apply not_elem_of_cons in Hq as [Hqp Hq].
      rewrite Hframe by done. msimpl. by rewrite lookup_insert_ne.
    + intros j q nq Hj Hq Hqn.
      destruct (decide (j = i)) as [->|Hji].
      * assert (q = p) as -> by congruence.
        assert (nq = nd) as -> by congruence.
        rewrite Hframe; [msimpl; apply lookup_insert_eq|].
        intros Hin. apply list_elem_of_lookup in Hin as [k Hk].
        rewrite lookup_drop in Hk.
        pose proof (NoDup_lookup _ _ _ _ Hnd Hp Hk). lia.
      * apply Hnew; [lia|done|]. msimpl.
        rewrite lookup_insert_ne; [done|].
        intros ->. apply Hji. by eapply NoDup_lookup.
Qed.

Lemma setupLinks_body (nodes : list loc) (i : nat) (p : loc) (w : world) nd :
  nodes !! i = Some p → mem w !! p = Some nd →
  ((if (0 <? i)%nat then modify (nodes !! i) (set_prev (nodes !! (i - 1)%nat))
    else modify (nodes !! i) (set_prev None)) ;;
   (if (i <? length nodes - 1)%nat
    then modify (nodes !! i) (set_next (nodes !! (i + 1)%nat))
    else modify (nodes !! i) (set_next None))) w
  = Done tt (with_mem (<[p := linked nodes i nd]> (mem w)) w).
Proof.
  intros Hp Hnd. rewrite Hp.
  assert ((if (0 <? i)%nat
           then modify (Some p) (set_prev (nodes !! (i - 1)%nat))
           else modify (Some p) (set_prev None)) w
          = Done tt (with_mem (<[p := set_prev
                (match i with O => None | S j => nodes !! j end) nd]> (mem w)) w))
    as Hprev.
  { destruct i as [|i]; simpl.
    - by apply modify_Some.
    - rewrite Nat.sub_0_r. by apply modify_Some. }
  mstep Hprev.
  assert (nodes !! S i = if (i <? length nodes - 1)%nat
                         then nodes !! (i + 1)%nat else None) as Hnext.
  { destruct (Nat.ltb_spec i (length nodes - 1)).
    - f_equal. lia.
    - apply lookup_ge_None. lia. }
  unfold linked. rewrite Hnext.
  destruct (i <? length nodes - 1)%nat.
  all: erewrite modify_Some by (msimpl; apply lookup_insert_eq).
  all: msimpl; by rewrite insert_insert_eq.
Qed.

Lemma setupLinks_Done (nodes : list loc) (w : world) :
  NoDup nodes → (∀ p, p ∈ nodes → is_Some (mem w !! p)) →
  ∃ m', setupLinks nodes w = Done tt (with_mem m' w)
        ∧ (∀ p, p ∉ nodes → m' !! p = mem w !! p)
        ∧ (∀ i p nd, nodes !! i = Some p → mem w !! p = Some nd →
             m' !! p = Some (linked nodes i nd)).
Proof.
  intros Hnd Hlive. unfold setupLinks.
  destruct (for_loop_modify nodes (linked nodes) _
              (setupLinks_body nodes) Hnd (length nodes) 0%nat w)
    as (m' & Hrun & Hframe & Hnew); [done|done|].
  exists m'. split; [exact Hrun|]. split; [exact Hframe|].
  intros i p nd. apply Hnew. lia.
Qed.

Lemma setupRandPointers_Done (nodes : list loc) (randIndices : list Z)
  (w : world) :
  NoDup nodes → (∀ p, p ∈ nodes → is_Some (mem w !! p)) →
  length randIndices = length nodes →
  ∃ m', setupRandPointers nodes randIndices w = Done tt (with_mem m' w)
        ∧ (∀ p, p ∉ nodes → m' !! p = mem w !! p)
        ∧ (∀ i p nd idx, nodes !! i = Some p → randIndices !! i = Some idx →
             mem w !! p = Some nd →
             m' !! p = Some (set_rand (resolve nodes idx) nd)).
Proof.
  intros Hnd Hlive Hlen. unfold setupRandPointers.
  destruct (for_loop_modify nodes
              (λ i, set_rand (resolve nodes (default 0 (randIndices !! i))))
              (λ i, match randIndices !! i with
                    | Some randomIndex =>
                        if (0 <=? randomIndex)
                           && (randomIndex <? Z.of_nat (length nodes))
                        then modify (nodes !! i)
                               (set_rand (nodes !! Z.to_nat randomIndex))
                        else modify (nodes !! i) (set_rand None)
                    | None => fault
                    end))
    with (todo := length nodes) (i := 0%nat) (w := w)
    as (m' & Hrun & Hframe & Hnew); try done.
  - intros i p w' nd Hp Hpnd.
    destruct (lookup_lt_is_Some_2 randIndices i) as [idx Hidx].
    { apply lookup_lt_Some in Hp. lia. }
    rewrite Hidx, Hp. simpl. unfold resolve.
    destruct (_ && _); by apply modify_Some.
  - exists m'. split; [exact Hrun|]. split; [exact Hframe|].
    intros i p nd idx Hp Hidx Hpnd.
    rewrite (Hnew i p nd) by (done || lia). by rewrite Hidx.
Qed.

Lemma resolve_low (nodes : list loc) (idx : Z) (q : loc) :
  idx < 2 ^ 31 → resolve nodes idx = Some q →
  ∃ j, nodes !! j = Some q ∧ Z.of_nat j < 2 ^ 31.
Proof.
  unfold resolve. intros Hidx.
  destruct (Z.leb_spec 0 idx) as [Hpos|Hneg]; [|done].
  destruct (_ <? _); [|done].
  intros Hq. exists (Z.to_nat idx). split; [done | lia].
Qed.

Lemma Deserialize_Done (w : world) (ps0 : list loc)
  (recs : list (list byte * Z)) (rest : list byte) :
  is_list w ps0 →
  Forall record_fits recs →
  Z.of_nat (length recs) < 2 ^ 32 →
  unread (io w)
  = le_bytes32 (Z.of_nat (length recs)) ++ concat (map stream_record recs)
    ++ rest →
  ∃ w' ps,
    Deserialize open_file w = Done tt w'
    ∧ is_list w' ps
    ∧ length ps = length recs
    ∧ io w' = rewind rest (io w)
    ∧ ∀ i p r, ps !! i = Some p → recs !! i = Some r →
        ∃ nd, mem w' !! p = Some nd ∧ data nd = r.1
              ∧ rand nd = resolve ps r.2.
Proof.
  intros Hl Hfit Hn Hbs. unfold Deserialize.
  mstep (Clear_is_list w ps0 Hl).
  erewrite bind_Done; [|apply readUint32_enough; msimpl; exact Hbs].
  rewrite uint32_cast_small by lia. msimpl.
  rewrite Nat2Z.id.
  erewrite bind_Done.
  2:{ apply (Deserialize_read_enough recs rest); [done|]. msimpl. done. }
  msimpl. rewrite !app_nil_l.
  destruct (read_heap recs (release ps0 (mem w))) as [ps m2] eqn:E.
  destruct (read_heap_spec recs _ _ _ E)
    as (Hlen & Hnd & _ & _ & Hread).
  cbn [fst snd].
  set (w2 := mkWorld m2 empty_list (rewind rest (rewind _ (io w)))).
  assert (∀ p, p ∈ ps → is_Some (mem w2 !! p)) as Hlive2.
  { intros p [i Hi]%list_elem_of_lookup.
    destruct (lookup_lt_is_Some_2 recs i) as [r Hr].
    { apply lookup_lt_Some in Hi. lia. }
    subst w2. msimpl. rewrite (Hread i p r Hi Hr). by eexists. }
  destruct (setupLinks_Done ps w2 Hnd Hlive2) as (m3 & Hrun3 & _ & Hlinks).
  mstep Hrun3.
  destruct (setupRandPointers_Done ps (map snd recs)
              (mkWorld m3 (self w2) (io w2))) as (m4 & Hrun4 & _ & Hrands).
  { done. }
  { intros p Hp. msimpl.
    destruct (Hlive2 p Hp) as [nd Hpnd].
    apply list_elem_of_lookup in Hp as [i Hi].
    rewrite (Hlinks i p nd Hi Hpnd). by eexists. }
  { by rewrite length_map. }
  mstep Hrun4.
  assert (∀ i p r, ps !! i = Some p → recs !! i = Some r →
            m4 !! p = Some (set_rand (resolve ps r.2)
                              (linked ps i (set_data r.1 default_node))))
    as Hfinal.
  { intros i p r Hi Hr.
    apply (Hrands i p); [done|by rewrite list_lookup_fmap, Hr|].
    msimpl. apply (Hlinks i p); [done|]. subst w2. msimpl. by eapply Hread. }
  set (n := Z.of_nat (length recs)) in *.
  assert (∀ B (k : unit → M B) f,
    ((if 0 <? n
      then set_head (ps !! 0%nat) ;; set_tail (ps !! Z.to_nat (n - 1))
      else set_tail None ;; set_head None) ≫= k)
      (mkWorld m4 empty_list f)
    = k tt (mkWorld m4 (mkList (ps !! 0%nat) (last ps) 0) f)) as Hends.
  { intros B k f. rewrite last_lookup.
    destruct (Z.ltb_spec 0 n) as [Hpos|Hzero].
    - mrun. do 3 f_equal. f_equal. lia.
    - mrun. destruct ps; [done|]. simpl in Hlen. lia. }
  subst w2. msimpl. rewrite Hends. unfold set_count. msimpl.
  eexists _, ps. split; [reflexivity|].
  split; [|split; [done|split; [done|]]].
  - split; msimpl; try done.
    + by rewrite Hlen.
    + intros i p Hi.
      destruct (lookup_lt_is_Some_2 recs i) as [r Hr].
      { apply lookup_lt_Some in Hi. lia. }
      rewrite (Hfinal i p r Hi Hr). eexists. split; [done|].
      split; [done|]. split; [done|]. simpl. intros q.
      apply resolve_low.
      by destruct (Forall_lookup_1 _ _ _ _ Hfit Hr) as [_ [_ ?]].
  - intros i p r Hi Hr. msimpl. rewrite (Hfinal i p r Hi Hr).
    eexists. by split.
Qed.

(** ** What a failed [Deserialize] leaves *)

Section keeps.
Variable P : world → Prop.
Hypothesis P_mem : ∀ w m, P w → P (with_mem m w).
Hypothesis P_io : ∀ w f, P w → P (with_io f w).

Lemma keeps_mret {A} (a : A) : keeps P (mret a).
Proof. by intros w Hw. Qed.

Lemma keeps_throw {A} (s : string) : keeps P (@throw A s).
Proof. by intros w Hw. Qed.

Lemma keeps_bind {A B} (c : M A) (k : A → M B) :
  keeps P c → (∀ a, keeps P (k a)) → keeps P (c ≫= k).
Proof.
  intros Hc Hk w Hw. rewrite bind_unfold.
  specialize (Hc w Hw). destruct (c w) as [a w'| | |]; try done.
  by apply Hk.
Qed.

Lemma keeps_on_unwind {A} (cleanup : M unit) (c : M A) :
  keeps P cleanup → keeps P c → keeps P (on_unwind cleanup c).
Proof.
  intros Hcl Hc w Hw. unfold on_unwind.
  specialize (Hc w Hw). destruct (c w) as [a w'|s w'| |]; try done.
  specialize (Hcl w' Hc). by destruct (cleanup w').
Qed.

Lemma throws_in_bind {A B} (c : M A) (k : A → M B) :
  keeps P c → (∀ a, throws_in P (k a)) → throws_in P (c ≫= k).
Proof.
  intros Hc Hk w Hw. rewrite bind_unfold.
  specialize (Hc w Hw). destruct (c w) as [a w'| | |]; try done.
  by apply Hk.
Qed.

Lemma keeps_fread size nmemb : keeps P (fread size nmemb).
Proof. intros w Hw. by apply P_io. Qed.

Lemma keeps_modify p f : keeps P (modify p f).
Proof.
  intros w Hw. unfold modify. destruct p as [l|]; [|done].
  destruct (mem w !! l); [|done]. by apply P_mem.
Qed.

Lemma keeps_new_ListNode : keeps P new_ListNode.
Proof. intros w Hw. by apply P_mem. Qed.

Lemma keeps_delete_node l : keeps P (delete_node l).
Proof.
  intros w Hw. unfold delete_node.
  destruct (mem w !! l); [|done]. by apply P_mem.
Qed.

Lemma keeps_delete_nodes nodes : keeps P (delete_nodes nodes).
Proof.
  induction nodes as [|p nodes IH]; simpl.
  - apply keeps_mret.
  - apply keeps_bind; [apply keeps_delete_node | done].
Qed.

Lemma keeps_for_loop (body : nat → M unit) todo :
  (∀ i, keeps P (body i)) → ∀ i, keeps P (for_loop i todo body).
Proof.
  intros Hbody. induction todo as [|todo IH]; intros i; simpl.
  - apply keeps_mret.
  - apply keeps_bind; [apply Hbody | intros _; apply IH].
Qed.

Lemma keeps_readUint32 : keeps P readUint32.
Proof.
  unfold readUint32. apply keeps_bind; [apply keeps_fread|].
  intros [value k]. destruct (negb _);
    [apply keeps_throw | apply keeps_mret].
Qed.

Lemma keeps_readNode : keeps P readNode.
Proof.
  unfold readNode. apply keeps_bind; [apply keeps_new_ListNode|].
  intros node. apply keeps_on_unwind; [apply keeps_delete_node|].
  apply keeps_bind; [apply keeps_readUint32|]. intros dataSize.
  apply keeps_bind.
  - destruct (0 <? dataSize); [|apply keeps_mret].
    apply keeps_bind; [apply keeps_fread|]. intros [str k].
    destruct (negb _); [apply keeps_throw | apply keeps_modify].
  - intros _. apply keeps_bind; [apply keeps_fread|].
    intros [outRandIndex k]. destruct (negb _);
      [apply keeps_throw | apply keeps_mret].
Qed.

Lemma keeps_Deserialize_read todo :
  ∀ rawNodes randIndices,
    keeps P (Deserialize_read todo rawNodes randIndices).
Proof.
  induction todo as [|todo IH]; intros raw idxs; simpl.
  - apply keeps_mret.
  - apply keeps_bind.
    + apply keeps_on_unwind; [apply keeps_delete_nodes|apply keeps_readNode].
    + intros [node randomIndex]. apply IH.
Qed.

Lemma keeps_setupLinks nodes : keeps P (setupLinks nodes).
Proof.
  unfold setupLinks. apply keeps_for_loop. intros i.
  apply keeps_bind.
  - destruct (0 <? i)%nat; apply keeps_modify.
  - intros _. destruct (i <? _)%nat; apply keeps_modify.
Qed.

Lemma keeps_setupRandPointers nodes randIndices :
  keeps P (setupRandPointers nodes randIndices).
Proof.
  unfold setupRandPointers. apply keeps_for_loop. intros i.
  destruct (randIndices !! i) as [idx|]; [|done].
  destruct (_ && _); apply keeps_modify.
Qed.
End keeps.

Lemma Clear_loop_no_throw (fuel : nat) :
  ∀ node w, match Clear_loop fuel node w with
            | Throw _ _ => False
            | _ => True
            end.
Proof.
  induction fuel as [|fuel IH]; intros [p|] w; simpl; try done.
  rewrite bind_unfold. unfold load.
  destruct (mem w !! p) as [nd|] eqn:E; [|done].
  rewrite bind_unfold, (delete_node_Some _ _ _ E). apply IH.
Qed.

Lemma Clear_empties (w : world) :
  match Clear w with
  | Done _ w' => self w' = empty_list
  | Throw _ _ => False
  | _ => True
  end.
Proof.
  unfold Clear. mrun. rewrite bind_unfold.
  pose proof (Clear_loop_no_throw (S (size (mem w))) (head (self w)) w) as H.
  destruct (Clear_loop _ _ w) as [[] w'| | |]; try done.
Qed.

Lemma Deserialize_throws_empty (file : FILE_ptr) (w w' : world) (s : string) :
  Deserialize file w = Throw s w' → self w' = empty_list.
Proof.
  unfold Deserialize. rewrite bind_unfold.
  pose proof (Clear_empties w) as Hclear.
  destruct (Clear w) as [[] w1| | |]; try done.
  set (P := λ w : world, self w = empty_list).
  assert (∀ w m, P w → P (with_mem m w)) as P_mem by done.
  assert (∀ w f, P w → P (with_io f w)) as P_io by done.
  intros H.
  assert (throws_in P
    (match file with
     | null_file => throw "File not open for reading...stopped"
     | open_file =>
         newCount ← readUint32;
         '(rawNodes, randIndices) ← Deserialize_read (Z.to_nat newCount) [] [];
         setupLinks rawNodes ;;
         setupRandPointers rawNodes randIndices ;;
         (if 0 <? newCount then
            set_head (rawNodes !! 0%nat) ;;
            set_tail (rawNodes !! Z.to_nat (newCount - 1))
          else
            set_tail None ;;
            set_head None) ;;
         set_count (int32_cast newCount)
     end)) as Hrest.
  { destruct file.
    - by intros w2 Hw2.
    - apply throws_in_bind; [by apply keeps_readUint32|]. intros newCount.
      apply throws_in_bind; [by apply keeps_Deserialize_read|].
      intros [rawNodes randIndices].
      apply throws_in_bind; [by apply keeps_setupLinks|]. intros _.
      apply throws_in_bind; [by apply keeps_setupRandPointers|]. intros _.
      intros w2 _. by destruct (0 <? newCount). }
  specialize (Hrest w1 Hclear). rewrite H in Hrest. exact Hrest.
Qed.

(** ** Streams that decode *)

Lemma Z_of_byte_range (b : byte) : 0 ≤ Z_of_byte b < 256.
Proof.
  unfold Z_of_byte. pose proof (Byte.to_N_bounded b). lia.
Qed.

Lemma byte_of_Z_of_byte (b : byte) : byte_of_Z (Z_of_byte b) = b.
Proof.
  unfold byte_of_Z. rewrite Z.mod_small by apply Z_of_byte_range.
  unfold Z_of_byte. by rewrite N2Z.id, Byte.of_to_N.
Qed.

Lemma byte_of_Z_mod (z : Z) : byte_of_Z (z mod 256) = byte_of_Z z.
Proof. unfold byte_of_Z. by rewrite Zmod_mod. Qed.

Lemma byte_of_Z_eq (z : Z) (b : byte) :
  z mod 256 = Z_of_byte b → byte_of_Z z = b.
Proof. intros H. rewrite <- byte_of_Z_mod, H. apply byte_of_Z_of_byte. Qed.

Lemma le_bytes32_le_value (bs : list byte) :
  length bs = 4%nat → le_bytes32 (le_value bs) = bs.
Proof.
  destruct bs as [|a [|b [|c [|d [|]]]]]; try done. intros _.
  unfold le_value, le_bytes32. simpl.
  pose proof (Z_of_byte_range a). pose proof (Z_of_byte_range b).
  pose proof (Z_of_byte_range c). pose proof (Z_of_byte_range d).
  change (2 ^ 8) with 256. change (2 ^ 16) with (256 * 256).
  change (2 ^ 24) with (256 * 256 * 256).
  rewrite <- !Z.div_div by lia.
  rewrite (byte_of_Z_eq _ a), (byte_of_Z_eq _ b), (byte_of_Z_eq _ c),
    (byte_of_Z_eq _ d); [done|..].
  all: Z.div_mod_to_equations; lia.
Qed.

Lemma le_value_range (bs : list byte) :
  length bs = 4%nat → 0 ≤ le_value bs < 2 ^ 32.
Proof.
  intros H. rewrite <- (le_bytes32_le_value bs H) at 1 2.
  rewrite le_value_le_bytes32. apply uint32_cast_range.
Qed.

Lemma le_bytes32_uint32_cast (z : Z) :
  le_bytes32 (uint32_cast z) = le_bytes32 z.
Proof.
  rewrite <- (le_bytes32_le_value (le_bytes32 z)) by done.
  by rewrite le_value_le_bytes32.
Qed.

Lemma le_bytes32_int32_cast (z : Z) :
  le_bytes32 (int32_cast z) = le_bytes32 z.
Proof.
  rewrite <- (le_bytes32_uint32_cast (int32_cast z)).
  by rewrite uint32_cast_int32_cast, le_bytes32_uint32_cast.
Qed.

(** A complete [fread] found its bytes at the front of the stream. *)
Lemma fread_complete (size nmemb : Z) (w w' : world) bs k :
  0 < size → 0 ≤ nmemb →
  fread size nmemb w = Done (bs, k) w' → k = nmemb →
  length bs = Z.to_nat (size * nmemb)
  ∧ unread (io w) = bs ++ unread (io w')
  ∧ w' = with_io (rewind (unread (io w')) (io w)) w.
Proof.
  intros Hs Hn H Hk. unfold fread in H. injection H as <- <- <-.
  msimpl.
  set (got := take (Z.to_nat (size * nmemb)) (unread (io w))) in *.
  assert (length got = Z.to_nat (size * nmemb)) as Hlen.
  { assert (length got ≤ Z.to_nat (size * nmemb))%nat
      by (subst got; rewrite length_take; lia).
    apply Nat2Z.inj. rewrite Z2Nat.id by lia.
    assert (Z.of_nat (length got) < size * nmemb → False); [|lia].
    intros Hlt. assert (Z.of_nat (length got) / size < nmemb); [|lia].
    apply Z.div_lt_upper_bound; lia. }
  split; [done|]. split; [|done].
  subst got. rewrite Hlen. by rewrite take_drop.
Qed.

Lemma fread_returns size nmemb (w : world) :
  ∃ bs k w', fread size nmemb w = Done (bs, k) w'.
Proof. by eexists _, _, _. Qed.

Lemma readUint32_complete (w w' : world) (v : Z) :
  readUint32 w = Done v w' →
  0 ≤ v < 2 ^ 32
  ∧ unread (io w) = le_bytes32 v ++ unread (io w')
  ∧ w' = with_io (rewind (unread (io w')) (io w)) w.
Proof.
  unfold readUint32. intros H.
  destruct (fread_returns 4 1 w) as (bs & k & w1 & E).
  rewrite (bind_Done _ _ _ _ _ E) in H.
  destruct (Z.eqb_spec k 1) as [Hk|Hk]; [|done].
  cbn [negb] in H. injection H as <- <-.
  destruct (fread_complete 4 1 w w1 bs k ltac:(lia) ltac:(lia) E Hk)
    as (Hlen & Hbs & Hw).
  split; [by apply le_value_range|].
  by rewrite le_bytes32_le_value.
Qed.

Lemma on_unwind_Done_inv {A} (cleanup : M unit) (c : M A) (w w' : world) a :
  on_unwind cleanup c w = Done a w' → c w = Done a w'.
Proof.
  unfold on_unwind. destruct (c w) as [b w1|s w1| |]; try done.
  by destruct (cleanup w1).
Qed.

Lemma readNode_complete (w w' : world) (node : loc) (idx : Z) :
  readNode w = Done (node, idx) w' →
  ∃ r, record_fits r ∧ r.2 = idx
       ∧ unread (io w) = stream_record r ++ unread (io w').
Proof.
  unfold readNode. rewrite run_new_ListNode. intros H.
  apply on_unwind_Done_inv in H.
  set (p := fresh (dom (mem w))) in *.
  set (w0 := with_mem _ w) in *.
  assert (io w0 = io w) as Hio0 by done.
  destruct (readUint32 w0) as [dataSize w1| | |] eqn:E1;
    rewrite bind_unfold, E1 in H; try done.
  destruct (readUint32_complete _ _ _ E1) as (Hsize & Hbs1 & Hw1).
  rewrite Hio0 in Hbs1.
  assert (∃ d w2,
    (if 0 <? dataSize
     then fread 1 dataSize
          ≫= λ '(str, k), if negb (k =? dataSize)
                           then throw "Error reading node data...stopped"
                           else modify (Some p) (set_data str)
     else mret tt) w1 = Done tt w2
    ∧ Z.of_nat (length d) = dataSize
    ∧ unread (io w1) = d ++ unread (io w2)) as (d & w2 & E2 & Hd & Hbs2).
  { rewrite bind_unfold in H.
    destruct (0 <? dataSize) eqn:Hpos.
    - destruct (fread_returns 1 dataSize w1) as (bs & k & w1' & E).
      rewrite (bind_Done _ _ _ _ _ E) in H |- *.
      destruct (Z.eqb_spec k dataSize) as [Hk|Hk]; [|done].
      cbn [negb] in H |- *.
      destruct (fread_complete 1 dataSize w1 w1' bs k ltac:(lia) ltac:(lia)
                  E Hk) as (Hlen & Hbs & Hw).
      destruct (modify (Some p) (set_data bs) w1') as [[] w2| | |] eqn:Em;
        try done.
      exists bs, w2. split; [done|]. split; [lia|].
      rewrite Hbs. f_equal. unfold modify in Em.
      destruct (mem w1' !! p); [|done]. by injection Em as <-.
    - exists [], w1. split; [done|]. apply Z.ltb_ge in Hpos.
      split; [simpl; lia | done]. }
  rewrite bind_unfold, E2 in H.
  destruct (fread_returns 4 1 w2) as (bs & k & w3 & E3).
  rewrite (bind_Done _ _ _ _ _ E3) in H.
  destruct (Z.eqb_spec k 1) as [Hk|Hk]; [|done].
  cbn [negb] in H. injection H as <- <- <-.
  destruct (fread_complete 4 1 w2 w3 bs k ltac:(lia) ltac:(lia) E3 Hk)
    as (Hlen & Hbs3 & Hw3).
  exists (d, int32_cast (le_value bs)). split; [|split; [done|]].
  - split; simpl; [lia | apply int32_cast_range].
  - unfold stream_record. simpl.
    rewrite le_bytes32_int32_cast, le_bytes32_le_value by done.
    rewrite Hbs1, Hbs2, Hbs3, Hd. by rewrite <- !app_assoc.
Qed.

Lemma Deserialize_read_complete (todo : nat) :
  ∀ w w' rawNodes randIndices res,
    Deserialize_read todo rawNodes randIndices w = Done res w' →
    ∃ recs, length recs = todo ∧ Forall record_fits recs
            ∧ unread (io w)
              = concat (map stream_record recs) ++ unread (io w').
Proof.
  induction todo as [|todo IH]; intros w w' raw idxs res H; simpl in H.
  - injection H as <- <-. exists []. by split.
  - rewrite bind_unfold in H.
    destruct (on_unwind _ readNode w) as [[node idx] w1| | |] eqn:E;
      try done.
    apply on_unwind_Done_inv in E.
    destruct (readNode_complete _ _ _ _ E) as (r & Hfit & _ & Hbs).
    destruct (IH _ _ _ _ _ H) as (recs & Hlen & Hfits & Hbs').
    exists (r :: recs). split; [simpl; by rewrite Hlen|].
    split; [by apply Forall_cons|].
    simpl. rewrite Hbs, Hbs'. by rewrite <- app_assoc.
Qed.

(** A stream decodes exactly when it starts with a count and that many
    records. *)
Lemma Deserialize_complete (w w' : world) (ps0 : list loc) :
  is_list w ps0 →
  Deserialize open_file w = Done tt w' →
  ∃ recs,
    Forall record_fits recs
    ∧ Z.of_nat (length recs) < 2 ^ 32
    ∧ unread (io w)
      = le_bytes32 (Z.of_nat (length recs))
        ++ concat (map stream_record recs) ++ unread (io w').
Proof.
  intros Hl. unfold Deserialize.
  rewrite (bind_Done _ _ _ _ _ (Clear_is_list w ps0 Hl)).
  set (w0 := mkWorld _ empty_list (io w)).
  assert (io w0 = io w) as Hio0 by done.
  intros H.
  destruct (readUint32 w0) as [newCount w1| | |] eqn:E1;
    rewrite bind_unfold, E1 in H; try done.
  destruct (readUint32_complete _ _ _ E1) as (Hn & Hbs1 & _).
  rewrite Hio0 in Hbs1.
  destruct (Deserialize_read (Z.to_nat newCount) [] [] w1)
    as [[rawNodes randIndices] w2| | |] eqn:E2;
    rewrite bind_unfold, E2 in H; try done.
  destruct (Deserialize_read_complete _ _ _ _ _ _ E2)
    as (recs & Hlen & Hfits & Hbs2).
  exists recs. split; [done|]. split; [lia|].
  rewrite Hbs1, Hbs2, Hlen, Z2Nat.id by lia. do 2 f_equal.
  assert (keeps (λ v, io v = io w2) (setupLinks rawNodes)) as K1.
  { apply keeps_setupLinks; done. }
  assert (keeps (λ v, io v = io w2)
            (setupRandPointers rawNodes randIndices)) as K2.
  { apply keeps_setupRandPointers; done. }
  rewrite bind_unfold in H. specialize (K1 w2 eq_refl).
  destruct (setupLinks rawNodes w2) as [[] w3| | |]; try done.
  rewrite bind_unfold in H. specialize (K2 w3 K1).
  destruct (setupRandPointers rawNodes randIndices w3) as [[] w4| | |];
    try done.
  destruct (0 <? newCount); injection H as <-; msimpl; by rewrite K2.
Qed.

Lemma Deserialize_decoded (w w' : world) (ps0 : list loc) :
  is_list w ps0 →
  Deserialize open_file w = Done tt w' →
  ∃ recs ps,
    Forall record_fits recs
    ∧ unread (io w)
      = le_bytes32 (Z.of_nat (length recs))
        ++ concat (map stream_record recs) ++ unread (io w')
    ∧ decoded recs w' ps.
Proof.
  intros Hl H.
  destruct (Deserialize_complete w w' ps0 Hl H) as (recs & Hfit & Hn & Hbs).
  destruct (Deserialize_Done w ps0 recs _ Hl Hfit Hn Hbs)
    as (w'' & ps & Hrun & Hl' & Hlen & _ & Hnodes).
  assert (w'' = w') as -> by congruence.
  exists recs, ps. split; [done|]. split; [done|]. by split.
Qed.

(** ** [Deserialize] returns or throws *)

(** The fuel of [Clear] is enough in every state: each iteration frees a
    live node. *)
Lemma Clear_loop_fuel (fuel : nat) :
  ∀ node w, (size (mem w) < fuel)%nat → Clear_loop fuel node w ≠ Diverge.
Proof.
  induction fuel as [|fuel IH]; intros node w Hfuel; [lia|].
  destruct node as [p|]; simpl; [|done].
  rewrite bind_unfold. unfold load.
  destruct (mem w !! p) as [nd|] eqn:E; [|done].
  rewrite bind_unfold, (delete_node_Some _ _ _ E). apply IH. simpl.
  rewrite map_size_delete_Some by (by eexists).
  assert (size (mem w) ≠ 0)%nat; [|lia].
  intros Hz. apply map_size_empty_inv in Hz. by rewrite Hz in E.
Qed.

Lemma fread_mem size nmemb (w w1 : world) r :
  fread size nmemb w = Done r w1 → mem w1 = mem w.
Proof. unfold fread. intros E. by inversion E. Qed.

Lemma readUint32_outcome (w : world) :
  match readUint32 w with
  | Done _ w1 | Throw _ w1 => mem w1 = mem w
  | Fault | Diverge => False
  end.
Proof.
  unfold readUint32.
  destruct (fread_returns 4 1 w) as (bs & k & w1 & E).
  rewrite (bind_Done _ _ _ _ _ E).
  pose proof (fread_mem _ _ _ _ _ E) as Hm.
  by destruct (negb _).
Qed.

Lemma readNode_outcome (w : world) :
  match readNode w with
  | Done (p, _) w1 =>
      p = fresh (dom (mem w)) ∧ ∃ nd, mem w1 = <[p := nd]> (mem w)
  | Throw _ w1 => mem w1 = mem w
  | Fault | Diverge => False
  end.
Proof.
  unfold readNode. rewrite run_new_ListNode.
  pose proof (fresh_not_live (mem w)) as Hp.
  set (p := fresh (dom (mem w))) in *.
  set (Q := λ v : world, ∃ nd, mem v = <[p := nd]> (mem w)).
  assert (∀ v s, Q v → match delete_node p v with
                        | Done _ v' => @Throw (loc * Z) s v'
                        | _ => Fault
                        end = Throw s (with_mem (mem w) v)) as Hclean.
  { intros v s [nd Hv]. unfold delete_node.
    rewrite Hv, lookup_insert_eq. by rewrite delete_insert_id. }
  unfold on_unwind.
  set (w0 := with_mem (<[p := default_node]> (mem w)) w).
  assert (Q w0) as Hw0 by (by exists default_node).
  rewrite bind_unfold. pose proof (readUint32_outcome w0) as H1.
  destruct (readUint32 w0) as [dataSize w1|s w1| |]; try done.
  2:{ rewrite Hclean; [done|]. destruct Hw0 as [nd Hnd]. exists nd. congruence. }
  assert (Q w1) as Hw1.
  { destruct Hw0 as [nd Hnd]. exists nd. congruence. }
  clear H1 Hw0. rewrite bind_unfold.
  assert (match (if 0 <? dataSize
                 then fread 1 dataSize
                      ≫= λ '(str, k),
                           if negb (k =? dataSize)
                           then throw "Error reading node data...stopped"
                           else modify (Some p) (set_data str)
                 else mret tt) w1 with
          | Done _ v | Throw _ v => Q v
          | Fault | Diverge => False
          end) as H2.
  { destruct (0 <? dataSize); [|done].
    destruct (fread_returns 1 dataSize w1) as (bs & k & w1' & E).
    rewrite (bind_Done _ _ _ _ _ E). cbn beta iota.
    pose proof (fread_mem _ _ _ _ _ E) as Hm.
    destruct Hw1 as [nd Hnd].
    destruct (negb _).
    - exists nd. unfold throw. congruence.
    - unfold modify. rewrite Hm, Hnd, lookup_insert_eq.
      eexists. simpl. by rewrite insert_insert_eq. }
  destruct (_ w1) as [[] w2|s w2| |]; try done.
  2:{ by rewrite Hclean. }
  destruct (fread_returns 4 1 w2) as (bs & k & w3 & E).
  rewrite (bind_Done _ _ _ _ _ E).
  pose proof (fread_mem _ _ _ _ _ E) as Hm.
  assert (Q w3) as Hw3.
  { destruct H2 as [nd Hnd]. exists nd. congruence. }
  destruct (negb _); simpl.
  - by rewrite Hclean.
  - done.
Qed.

Lemma delete_nodes_live (nodes : list loc) :
  ∀ w, NoDup nodes → (∀ q, q ∈ nodes → is_Some (mem w !! q)) →
    delete_nodes nodes w = Done tt (with_mem (release nodes (mem w)) w).
Proof.
  induction nodes as [|p nodes IH]; intros w Hnd Hlive; simpl.
  - by destruct w.
  - apply NoDup_cons in Hnd as [Hp Hnd].
    destruct (Hlive p) as [nd Hpnd]; [by left|].
    rewrite (bind_Done _ _ _ _ _ (delete_node_Some _ _ _ Hpnd)).
    rewrite IH; [done|done|].
    intros q Hq. simpl. rewrite lookup_delete_ne; [apply Hlive; by right|].
    by intros ->.
Qed.

Lemma Deserialize_read_outcome (todo : nat) :
  ∀ rawNodes randIndices w,
    NoDup rawNodes → (∀ q, q ∈ rawNodes → is_Some (mem w !! q)) →
    match Deserialize_read todo rawNodes randIndices w with
    | Fault | Diverge => False
    | _ => True
    end.
Proof.
  induction todo as [|todo IH]; intros raw idxs w Hnd Hlive; simpl; [done|].
  rewrite bind_unfold. unfold on_unwind.
  pose proof (readNode_outcome w) as H.
  destruct (readNode w) as [[p idx] w1|s w1| |]; try done.
  - destruct H as [-> [nd Hm]].
    pose proof (fresh_not_live (mem w)) as Hp.
    apply IH.
    + apply NoDup_app. split; [done|]. split; [|apply NoDup_singleton].
      intros q Hq ->%list_elem_of_singleton.
      destruct (Hlive _ Hq) as [? ?]. congruence.
    + intros q [Hq| ->%list_elem_of_singleton]%elem_of_app; rewrite Hm.
      * rewrite lookup_insert_ne; [by apply Hlive|].
        intros <-. destruct (Hlive _ Hq) as [? ?]. congruence.
      * rewrite lookup_insert_eq. by eexists.
  - rewrite delete_nodes_live; [done|done|].
    intros q Hq. rewrite H. by apply Hlive.
Qed.

(** On a well-formed list [Deserialize] has an outcome for its caller,
    whatever the stream holds. *)
Lemma Deserialize_outcome (w : world) (ps : list loc) (file : FILE_ptr) :
  is_list w ps →
  match Deserialize file w with
  | Fault | Diverge => False
  | _ => True
  end.
Proof.
  intros Hl.
  assert ((∃ s w', Deserialize file w = Throw s w')
          ∨ (∃ w', Deserialize file w = Done tt w')) as Hcases.
  { unfold Deserialize.
    rewrite (bind_Done _ _ _ _ _ (Clear_is_list w ps Hl)).
    destruct file; [left; by eexists _, _|].
    set (w0 := mkWorld _ empty_list (io w)).
    rewrite bind_unfold. pose proof (readUint32_outcome w0) as H1.
    destruct (readUint32 w0) as [newCount w1|s w1| |] eqn:E1; try done.
    2:{ left. by eexists _, _. }
    rewrite bind_unfold.
    pose proof (Deserialize_read_outcome (Z.to_nat newCount) [] [] w1
                  (@NoDup_nil_2 loc)) as H2.
    destruct (Deserialize_read _ [] [] w1)
      as [[rawNodes randIndices] w2|s w2| |] eqn:E2.
    2:{ left. by eexists _, _. }
    2,3: exfalso; apply H2; intros q Hq; by apply elem_of_nil in Hq.
    right.
    destruct (readUint32_complete _ _ _ E1) as (Hn & Hbs1 & _).
    destruct (Deserialize_read_complete _ _ _ _ _ _ E2)
      as (recs & Hlen & Hfit & Hbs2).
    destruct (Deserialize_Done w ps recs (unread (io w2)) Hl Hfit)
      as (w' & ps' & Hrun & _); [lia| |].
    { change (io w) with (io w0).
      by rewrite Hbs1, Hbs2, Hlen, Z2Nat.id by lia. }
    exists w'. unfold Deserialize in Hrun.
    rewrite (bind_Done _ _ _ _ _ (Clear_is_list w ps Hl)) in Hrun.
    fold w0 in Hrun. rewrite bind_unfold, E1, bind_unfold, E2 in Hrun.
    exact Hrun. }
  by destruct Hcases as [(s & w' & ->)|(w' & ->)].
Qed.

(** ** Reachable states are well-formed lists *)

Lemma follow_chain (m : gmap loc ListNode) (ps : list loc) :
  ∀ fuel p, chain m p ps → (length ps < fuel)%nat →
    follow m fuel p = Some ps.
Proof.
  induction ps as [|q ps IH]; intros fuel p Hc Hfuel; simpl in *.
  - subst p. by destruct fuel.
  - destruct Hc as [-> (nd & Hq & Hc)].
    destruct fuel as [|fuel]; [lia|]. simpl.
    rewrite Hq, (IH fuel) by (done || lia). reflexivity.
Qed.

Lemma is_list_traversal (w : world) (ps : list loc) :
  is_list w ps → traversal w = Some ps.
Proof.
  intros Hl. pose proof (is_list_chain _ _ Hl) as Hc.
  pose proof (chain_length _ _ _ (il_nodup _ _ Hl) Hc) as Hlen.
  apply follow_chain; [done | lia].
Qed.

Lemma is_list_same (w w' : world) (ps : list loc) :
  mem w' = mem w → self w' = self w → is_list w ps → is_list w' ps.
Proof.
  intros Hm Hs [Hnd Hh Ht Hc Hn]. split; rewrite ?Hm, ?Hs; done.
Qed.

Lemma is_list_empty (w : world) : self w = empty_list → is_list w [].
Proof.
  intros Hs. split; rewrite ?Hs; try done. apply NoDup_nil_2.
Qed.

Lemma perform_is_list (o : operation) (w w' : world) (ps : list loc) :
  is_list w ps → final (perform o w) = Some w' → ∃ ps', is_list w' ps'.
Proof.
  intros Hl H. destruct o as [d|i j| |file|file]; simpl in H.
  - rewrite (AddNode_run w ps d Hl) in H.
    destruct (Z.eqb_spec (count (self w)) INT_MAX) as [Hc|Hc]; [done|].
    injection H as <-. eexists. by apply appended_is_list.
  - destruct (decide (in_range (self w) i ∧ in_range (self w) j))
      as [[Hi Hj]|Hout].
    + destruct (SetRand_in_range w ps i j Hl Hi Hj)
        as (p & q & nd & Hp & Hq & Hnd & Hrun).
      rewrite Hrun in H. injection H as <-. exists ps.
      apply (is_list_set_rand w ps p q (Z.to_nat j)); [done|done|done|].
      destruct Hj as [Hj0 Hj1]. rewrite (il_count _ _ Hl) in Hj1.
      pose proof (int32_cast_range (Z.of_nat (length ps))). lia.
    + rewrite (SetRand_out_of_range w i j Hout) in H.
      injection H as <-. by exists ps.
  - rewrite (Clear_is_list w ps Hl) in H. injection H as <-.
    exists []. apply is_list_nil.
  - pose proof (Serialize_unchanged w ps file Hl) as Hu.
    destruct (Serialize file w) as [[] w1|s w1| |]; try done.
    all: injection H as <-; destruct Hu as [Hm Hs].
    all: exists ps; by apply (is_list_same w).
  - destruct (Deserialize file w) as [[] w1|s w1| |] eqn:E; try done.
    + injection H as <-. destruct file.
      * unfold Deserialize in E.
        rewrite (bind_Done _ _ _ _ _ (Clear_is_list w ps Hl)) in E. done.
      * destruct (Deserialize_decoded w w1 ps Hl E)
          as (recs & ps' & _ & _ & Hl' & _). by exists ps'.
    + injection H as <-. exists [].
      apply is_list_empty. by eapply Deserialize_throws_empty.
Qed.

Lemma reachable_is_list (w : world) : reachable w → ∃ ps, is_list w ps.
Proof.
  induction 1 as [f|w f _ [ps Hl]|w w' o _ [ps Hl] Hstep].
  - exists []. apply is_list_nil.
  - exists ps. by apply (is_list_same w).
  - by eapply perform_is_list.
Qed.

(** ** The written bytes are the specified encoding *)

Lemma index_of_lt (ps : list loc) (q : loc) (j : nat) :
  index_of ps q = Some j → (j < length ps)%nat.
Proof. intros H. apply index_of_lookup in H. by eapply lookup_lt_Some. Qed.

Lemma wire_node_spec (m : gmap loc ListNode) (ps : list loc) (q : loc) nd i :
  NoDup ps →
  m !! q = Some nd →
  Z.of_nat (length (data nd)) < 2 ^ 32 →
  node_at ps i nd →
  wire_node ps nd = spec_encode_node (payload_of m q, cross_of m ps q).
Proof.
  intros Hps Hq Hd (_ & _ & Hrand).
  unfold wire_node, spec_encode_node, payload_of, cross_of.
  rewrite Hq. simpl.
  rewrite uint32_cast_small, Nat2Z.id, firstn_all by lia.
  assert (cross_index ps (rand nd) = spec_cross_index (rand nd ≫= index_of ps))
    as ->; [|done].
  unfold cross_index.
  destruct (rand nd) as [r|]; [|done]. simpl.
  destruct (Hrand r eq_refl) as (j & Hj & Hlt).
  rewrite (index_of_NoDup ps r j Hps Hj). simpl.
  apply int32_cast_small. lia.
Qed.

Lemma wire_spec (w : world) (ps : list loc) :
  is_list w ps → fits32 (records (mem w) ps) →
  wire w ps = spec_encode (records (mem w) ps).
Proof.
  intros Hl [Hn Hfit]. unfold wire, spec_encode.
  unfold records in Hn. rewrite length_map in Hn.
  rewrite (il_count _ _ Hl), uint32_cast_int32_cast.
  rewrite uint32_cast_small by lia.
  unfold records at 1. rewrite length_map. f_equal.
  unfold wire_nodes, records. rewrite map_map. f_equal.
  apply map_ext_in. intros q Hq%list_elem_of_In.
  pose proof Hq as [i Hi]%list_elem_of_lookup.
  destruct (il_nodes _ _ Hl i q Hi) as (nd & Hnd & Hat).
  rewrite Hnd.
  apply (wire_node_spec _ _ _ _ i); [apply (il_nodup _ _ Hl)|done| |done].
  rewrite Forall_forall in Hfit.
  specialize (Hfit (payload_of (mem w) q, cross_of (mem w) ps q)).
  unfold payload_of in Hfit at 2. rewrite Hnd in Hfit. apply Hfit.
  unfold records. apply list_elem_of_fmap. by exists q.
Qed.

(** ** Decoding what was encoded *)

Lemma spec_encode_stream (recs : list (list byte * option nat)) :
  spec_encode recs
  = le_bytes32 (Z.of_nat (length (map to_stream recs)))
    ++ concat (map stream_record (map to_stream recs)).
Proof.
  unfold spec_encode. by rewrite length_map, map_map.
Qed.

Lemma records_lookup (m : gmap loc ListNode) (ps : list loc) (i : nat) :
  records m ps !! i
  = (λ p, (payload_of m p, cross_of m ps p)) <$> ps !! i.
Proof. unfold records. apply list_lookup_fmap. Qed.

Lemma records_cross_lt (w : world) (ps : list loc) r (j : nat) :
  r ∈ records (mem w) ps → r.2 = Some j → (j < length ps)%nat.
Proof.
  unfold records. intros (p & -> & Hp)%list_elem_of_fmap. simpl.
  unfold cross_of. destruct (mem w !! p) as [nd|]; [|done]. simpl.
  destruct (rand nd) as [q|]; [|done]. simpl. apply index_of_lt.
Qed.

Lemma records_cross_low (w : world) (ps : list loc) r (j : nat) :
  is_list w ps → r ∈ records (mem w) ps → r.2 = Some j →
  Z.of_nat j < 2 ^ 31.
Proof.
  unfold records. intros Hl (p & -> & Hp)%list_elem_of_fmap. simpl.
  apply list_elem_of_lookup in Hp as [i Hi].
  destruct (il_nodes _ _ Hl i p Hi) as (nd & Hnd & _ & _ & Hrand).
  unfold cross_of. rewrite Hnd. simpl.
  destruct (rand nd) as [q|]; [|done]. simpl.
  destruct (Hrand q eq_refl) as (j' & Hj' & Hlt).
  rewrite (index_of_NoDup ps q j' (il_nodup _ _ Hl) Hj').
  by intros [= <-].
Qed.

Lemma records_fit (w : world) (ps : list loc) :
  is_list w ps →
  fits32 (records (mem w) ps) →
  Forall record_fits (map to_stream (records (mem w) ps)).
Proof.
  intros Hl [Hn Hfit]. apply Forall_fmap.
  rewrite Forall_forall in Hfit |- *. intros r Hr.
  unfold record_fits, to_stream. simpl. split; [by apply Hfit|].
  destruct (r.2) as [j|] eqn:E; simpl; [|lia].
  pose proof (records_cross_low w ps r j Hl Hr E). lia.
Qed.

Lemma decoded_records (recs : list (list byte * option nat))
  (w' : world) (ps' : list loc) :
  decoded (map to_stream recs) w' ps' →
  (∀ r j, r ∈ recs → r.2 = Some j → (j < length recs)%nat) →
  records (mem w') ps' = recs.
Proof.
  intros (Hl & Hlen & Hnodes) Hcross. rewrite length_map in Hlen.
  apply list_eq. intros i. rewrite records_lookup.
  destruct (ps' !! i) as [p|] eqn:Hp; simpl.
  2:{ symmetry. apply lookup_ge_None. apply lookup_ge_None in Hp. lia. }
  destruct (lookup_lt_is_Some_2 recs i) as [r Hr].
  { apply lookup_lt_Some in Hp. lia. }
  destruct (Hnodes i p (to_stream r) Hp) as (nd & Hnd & Hdata & Hrand).
  { by rewrite list_lookup_fmap, Hr. }
  rewrite Hr. f_equal. destruct r as [d c]. simpl in *.
  unfold payload_of, cross_of. rewrite Hnd. simpl. rewrite Hdata, Hrand.
  f_equal. unfold resolve. destruct c as [j|]; simpl; [|done].
  pose proof (Hcross (d, Some j) j ltac:(by eapply list_elem_of_lookup_2)
                eq_refl) as Hj.
  destruct (Z.leb_spec 0 (Z.of_nat j)); [|lia].
  destruct (Z.ltb_spec (Z.of_nat j) (Z.of_nat (length ps'))); [|lia].
  simpl. rewrite Nat2Z.id.
  destruct (lookup_lt_is_Some_2 ps' j) as [q Hq]; [lia|].
  rewrite Hq. simpl. apply index_of_NoDup; [apply (il_nodup _ _ Hl) | done].
Qed.

Lemma cross_payload_records (w : world) (ps : list loc) (p : loc) :
  is_list w ps → p ∈ ps →
  cross_payload_of (mem w) p
  = cross_of (mem w) ps p ≫= λ j, fst <$> records (mem w) ps !! j.
Proof.
  intros Hl Hp. unfold cross_payload_of, cross_of.
  destruct (is_list_wire_live w ps Hl p Hp) as (nd & Hnd & Hrand).
  rewrite Hnd. simpl. destruct (rand nd) as [q|]; [|done]. simpl.
  specialize (Hrand q eq_refl).
  destruct (index_of_elem ps q Hrand) as [j Hj]. rewrite Hj. simpl.
  rewrite records_lookup, (index_of_lookup _ _ _ Hj). simpl.
  destruct (is_list_live w ps q Hl Hrand) as [nq Hnq].
  unfold payload_of. by rewrite Hnq.
Qed.

Lemma cross_payloads_records (w : world) (ps : list loc) :
  is_list w ps →
  cross_payloads (mem w) ps
  = map (λ r, r.2 ≫= λ j, fst <$> records (mem w) ps !! j)
      (records (mem w) ps).
Proof.
  intros Hl. unfold cross_payloads. unfold records at 2. rewrite map_map.
  apply map_ext_in. intros p Hp%list_elem_of_In. simpl.
  by apply cross_payload_records.
Qed.

Lemma roundtrip_decode (w w2 : world) (ps ps2 : list loc) (rest : list byte) :
  is_list w ps → fits32 (records (mem w) ps) →
  is_list w2 ps2 →
  unread (io w2) = spec_encode (records (mem w) ps) ++ rest →
  ∃ w3 ps3,
    Deserialize open_file w2 = Done tt w3
    ∧ is_list w3 ps3
    ∧ count (self w3) = count (self w)
    ∧ records (mem w3) ps3 = records (mem w) ps
    ∧ cross_payloads (mem w3) ps3 = cross_payloads (mem w) ps.
Proof.
  intros Hl Hfit Hl2 Hbs.
  rewrite spec_encode_stream, <- app_assoc in Hbs.
  destruct (Deserialize_Done w2 ps2 _ rest Hl2 (records_fit w ps Hl Hfit))
    as (w3 & ps3 & Hrun & Hl3 & Hlen & _ & Hnodes); [|exact Hbs|].
  { destruct Hfit as [Hn _]. rewrite length_map. lia. }
  assert (records (mem w3) ps3 = records (mem w) ps) as Hrec.
  { apply decoded_records; [by split|].
    intros r j Hr Hj.
    assert (length (records (mem w) ps) = length ps) as ->
      by (unfold records; apply length_map).
    by eapply records_cross_lt. }
  exists w3, ps3. split; [done|]. split; [done|]. split; [|split; [done|]].
  - rewrite (il_count _ _ Hl3), (il_count _ _ Hl), Hlen.
    unfold records. by rewrite !length_map.
  - rewrite (cross_payloads_records w3 ps3 Hl3),
      (cross_payloads_records w ps Hl). by rewrite Hrec.
Qed.

Lemma roundtrip_is_list (w : world) (ps : list loc) :
  is_list w ps →
  fits32 (records (mem w) ps) →
  (length (spec_encode (records (mem w) ps)) ≤ room (io w))%nat →
  roundtrips w ps.
Proof.
  intros Hl Hfit Hroom. pose proof (wire_spec w ps Hl Hfit) as Hwire.
  rewrite <- Hwire in Hroom.
  exists (with_io (put (wire w ps) (io w)) w).
  split; [by apply Serialize_Done|]. split; [by rewrite Hwire|].
  intros w2 ps2 rest Hl2 Hbs. by eapply roundtrip_decode.
Qed.

Lemma built_is_list (w : world) :
  built w → ∃ ps, is_list w ps ∧ Z.of_nat (length ps) < 2 ^ 31.
Proof.
  induction 1 as [f|w f _ (ps & Hl & Hlen)|w w' d _ (ps & Hl & Hlen) Hrun
                 |w w' i j _ (ps & Hl & Hlen) Hi Hj Hrun].
  - exists []. split; [apply is_list_nil | simpl; lia].
  - exists ps. split; [by apply (is_list_same w) | done].
  - rewrite (AddNode_run w ps d Hl) in Hrun.
    destruct (Z.eqb_spec (count (self w)) INT_MAX) as [Hc|Hc]; [done|].
    injection Hrun as <-. eexists. split; [by apply appended_is_list|].
    rewrite (il_count _ _ Hl), int32_cast_small in Hc by lia.
    rewrite length_app. unfold INT_MAX in Hc. simpl. lia.
  - destruct (SetRand_in_range w ps i j Hl Hi Hj)
      as (p & q & nd & Hp & Hq & Hnd & Hrun').
    rewrite Hrun' in Hrun. injection Hrun as <-. exists ps. split; [|done].
    apply (is_list_set_rand w ps p q (Z.to_nat j)); [done|done|done|].
    apply lookup_lt_Some in Hq. lia.
Qed.

(** * The properties of the specification *)

(** C1 (as amended): for every list built by appends and in-range cross
    assignments whose payloads are each shorter than 2^32 bytes, encoding
    it (on a stream with room for the encoding) and decoding the bytes
    produced yields a list with the same count, the same payload at each
    traversal position, and at each position a cross-reference that is
    absent iff the original is absent and otherwise points to the node at
    the same position, hence to the node with the same payload. *)
Theorem roundtrip (w : world) :
  built w →
  Forall (λ r, Z.of_nat (length r.1) < 2 ^ 32) (records (mem w) (nodes_of w)) →
  (length (spec_encode (records (mem w) (nodes_of w))) ≤ room (io w))%nat →
  roundtrips w (nodes_of w).
Proof.
  intros (ps & Hl & Hlen)%built_is_list. unfold nodes_of.
  rewrite (is_list_traversal w ps Hl). simpl. intros Hfit Hroom.
  apply roundtrip_is_list; [done| |done].
  split; [|done]. unfold records. rewrite length_map. lia.
Qed.

(** C2 (as amended): for every list with fewer than 2^32 nodes whose
    payloads are each shorter than 2^32 bytes, encoding (on a stream with
    room for it) appends to the stream exactly the node count as an
    unsigned 32-bit integer and then, per node in traversal order, the
    payload length, the payload bytes and the signed 32-bit traversal
    position of the cross-reference, -1 when it is absent; the list and
    the rest of the stream are untouched. *)
Theorem Serialize_format (w : world) (ps : list loc) :
  is_list w ps →
  fits32 (records (mem w) ps) →
  (length (spec_encode (records (mem w) ps)) ≤ room (io w))%nat →
  Serialize open_file w
  = Done tt (with_io (put (spec_encode (records (mem w) ps)) (io w)) w).
Proof.
  intros Hl Hfit Hroom. rewrite <- (wire_spec w ps Hl Hfit) in Hroom |- *.
  by apply Serialize_Done.
Qed.

(** C3: for every list and every stream that holds [n] records, whatever
    their stored cross indices, decoding returns a list of [n] nodes in
    which the node of a record whose index is within [0, n) has its cross
    set to the node at that index, and the node of a record whose index
    is -1 or otherwise outside [0, n) has its cross absent. *)
Theorem Deserialize_resolves (w : world) (ps0 : list loc)
  (recs : list (list byte * Z)) (rest : list byte) :
  is_list w ps0 →
  Forall record_fits recs →
  Z.of_nat (length recs) < 2 ^ 32 →
  unread (io w) = stream_of recs ++ rest →
  ∃ w' ps,
    Deserialize open_file w = Done tt w'
    ∧ is_list w' ps
    ∧ length ps = length recs
    ∧ ∀ i p d idx, ps !! i = Some p → recs !! i = Some (d, idx) →
        ∃ nd, mem w' !! p = Some nd ∧ data nd = d
              ∧ (0 ≤ idx < Z.of_nat (length recs) →
                   is_Some (rand nd) ∧ rand nd = ps !! Z.to_nat idx)
              ∧ (¬ 0 ≤ idx < Z.of_nat (length recs) → rand nd = None).
Proof.
  intros Hl Hfit Hn Hbs. unfold stream_of in Hbs. rewrite <- app_assoc in Hbs.
  destruct (Deserialize_Done w ps0 recs rest Hl Hfit Hn Hbs)
    as (w' & ps & Hrun & Hl' & Hlen & _ & Hnodes).
  exists w', ps. repeat (split; [done|]).
  intros i p d idx Hp Hr.
  destruct (Hnodes i p (d, idx) Hp Hr) as (nd & Hnd & Hdata & Hrand).
  exists nd. split; [done|]. split; [done|].
  simpl in Hrand. unfold resolve in Hrand. rewrite Hlen in Hrand.
  split; intros Hidx.
  - destruct (Z.leb_spec 0 idx); [|lia].
    destruct (Z.ltb_spec idx (Z.of_nat (length recs))); [|lia].
    simpl in Hrand. split; [|done]. rewrite Hrand.
    apply lookup_lt_is_Some_2. lia.
  - destruct (Z.leb_spec 0 idx); [|done].
    destruct (Z.ltb_spec idx (Z.of_nat (length recs))); [lia|done].
Qed.

(** C4: for every list and every pair of integers, [SetRand] with an
    index outside [0, count) returns leaving the whole world as it was;
    with both indices within [0, count) it sets the cross-reference of the
    node at the first position to the node at the second and changes
    nothing else. *)
Theorem SetRand_spec (w : world) (ps : list loc) (nodeIndex randIndex : Z) :
  is_list w ps →
  (¬ (in_range (self w) nodeIndex ∧ in_range (self w) randIndex) →
     SetRand nodeIndex randIndex w = Done tt w)
  ∧ (in_range (self w) nodeIndex → in_range (self w) randIndex →
     ∃ p q nd,
       ps !! Z.to_nat nodeIndex = Some p ∧ ps !! Z.to_nat randIndex = Some q
       ∧ mem w !! p = Some nd
       ∧ SetRand nodeIndex randIndex w
         = Done tt (with_mem (<[p := set_rand (Some q) nd]> (mem w)) w)).
Proof.
  intros Hl. split.
  - apply SetRand_out_of_range.
  - by apply SetRand_in_range.
Qed.

(** C5: encoding an empty list writes a zero count and nothing else, and
    decoding these bytes into any list yields count 0 with head and tail
    absent. *)
Theorem empty_roundtrip (w : world) :
  self w = empty_list → (4 ≤ room (io w))%nat →
  ∃ w1,
    Serialize open_file w = Done tt w1
    ∧ written (io w1) = written (io w) ++ le_bytes32 0
    ∧ ∀ w2 ps2 rest,
        is_list w2 ps2 → unread (io w2) = le_bytes32 0 ++ rest →
        ∃ w3, Deserialize open_file w2 = Done tt w3 ∧ self w3 = empty_list.
Proof.
  intros Hs Hroom. pose proof (is_list_empty w Hs) as Hl.
  assert (wire w [] = le_bytes32 0) as Hwire.
  { unfold wire, wire_nodes. rewrite Hs. apply app_nil_r. }
  exists (with_io (put (le_bytes32 0) (io w)) w).
  split; [|split; [done|]].
  - rewrite <- Hwire. apply Serialize_Done; [done|]. by rewrite Hwire.
  - intros w2 ps2 rest Hl2 Hbs.
    destruct (Deserialize_Done w2 ps2 [] rest Hl2) as
      (w3 & ps3 & Hrun & Hl3 & Hlen & _); [done|done|done|].
    exists w3. split; [done|]. destruct ps3; [|done].
    destruct Hl3 as [_ Hh Ht Hc _]. simpl in *.
    destruct (self w3). simpl in *. by subst.
Qed.

(** C6 (as amended): for every list whose count is not [INT_MAX] and
    every payload, [AddNode] returns; it allocates one node holding the
    payload, with no cross-reference, and makes it the tail (and the head
    when the list was empty); the nodes already in the list keep their
    positions, payloads and cross-references; count grows by exactly 1 and
    the stream is untouched. *)
Theorem AddNode_spec (w : world) (ps : list loc) (d : list byte) :
  is_list w ps → count (self w) ≠ INT_MAX →
  ∃ w' p,
    AddNode d w = Done tt w'
    ∧ mem w !! p = None
    ∧ is_list w' (ps ++ [p])
    ∧ mem w' !! p = Some (mkNode (last ps) None None d)
    ∧ (∀ q nd, mem w !! q = Some nd →
         ∃ nd', mem w' !! q = Some nd' ∧ data nd' = data nd
                ∧ rand nd' = rand nd)
    ∧ count (self w') = count (self w) + 1
    ∧ io w' = io w.
Proof.
  intros Hl Hc.
  destruct (appended_shape w ps d Hl) as (Hp & Hnew & Hold & Hself & Hio).
  exists (appended w d), (fresh (dom (mem w))).
  split; [by eapply AddNode_Done|]. split; [apply fresh_not_live|].
  split; [by apply appended_is_list|]. split; [done|].
  split; [|split; [by rewrite Hself | done]].
  intros q nd Hq. rewrite (Hold q nd); [|intros ->|done].
  - eexists. split; [done|]. by destruct (decide _).
  - by rewrite fresh_not_live in Hq.
Qed.

(** C7 (as amended): in every state reachable through the public
    operations, following [next] from [head] ends, visits each node once
    and ends at [tail], and [count] is the number of nodes of this chain
    converted to a 32-bit [int]: it equals that number whenever the chain
    has fewer than 2^31 nodes. *)
Theorem reachable_chain (w : world) :
  reachable w →
  ∃ ps,
    traversal w = Some ps
    ∧ NoDup ps
    ∧ tail (self w) = last ps
    ∧ count (self w) = int32_cast (Z.of_nat (length ps))
    ∧ (Z.of_nat (length ps) < 2 ^ 31 →
         count (self w) = Z.of_nat (length ps)).
Proof.
  intros [ps Hl]%reachable_is_list. exists ps.
  split; [by apply is_list_traversal|].
  split; [apply (il_nodup _ _ Hl)|]. split; [apply (il_tail _ _ Hl)|].
  split; [apply (il_count _ _ Hl)|].
  intros Hlen. rewrite (il_count _ _ Hl). apply int32_cast_small. lia.
Qed.

(** C8: for every list, [Clear] returns, leaves the empty list (count 0,
    head and tail absent) and has freed exactly the nodes of the list; a
    second [Clear] returns the same state. *)
Theorem Clear_spec (w : world) (ps : list loc) :
  is_list w ps →
  ∃ w',
    Clear w = Done tt w'
    ∧ self w' = empty_list
    ∧ (∀ p, mem w' !! p = if decide (p ∈ ps) then None else mem w !! p)
    ∧ Clear w' = Done tt w'.
Proof.
  intros Hl. eexists. split; [by apply Clear_is_list|].
  split; [done|]. split; [apply lookup_release|].
  by rewrite (Clear_is_list _ [] (is_list_nil _ _)).
Qed.

(** C9: whenever [Deserialize] throws, whatever the stream and the list
    it was called on, it leaves the empty list: count 0, head and tail
    absent. *)
Theorem Deserialize_failure (file : FILE_ptr) (w w' : world) (what : string) :
  Deserialize file w = Throw what w' →
  head (self w') = None ∧ tail (self w') = None ∧ count (self w') = 0.
Proof.
  intros H. by rewrite (Deserialize_throws_empty file w w' what H).
Qed.

(** C10: for every list and every stream, [Serialize] returns or throws,
    and in both cases the heap (every node's payload and its prev, next
    and rand pointers) and the list object (head, tail, count) are exactly
    as they were before the call. *)
Theorem Serialize_frame (w : world) (ps : list loc) (file : FILE_ptr) :
  is_list w ps →
  match Serialize file w with
  | Done _ w' | Throw _ w' => mem w' = mem w ∧ self w' = self w
  | Fault | Diverge => False
  end.
Proof. apply Serialize_unchanged. Qed.

(** * Where the 32-bit fields fall short *)

Lemma AddNode_one_node (d : list byte) (f : FILE) :
  AddNode d (new_list f) = Done tt (one_node d f).
Proof. vm_compute. reflexivity. Qed.

Lemma one_node_is_list (d : list byte) (f : FILE) :
  is_list (one_node d f) [1%positive].
Proof. apply is_listb_sound. vm_compute. reflexivity. Qed.

Lemma one_node_records (d : list byte) (f : FILE) :
  records (mem (one_node d f)) [1%positive] = [(d, None)].
Proof. vm_compute. reflexivity. Qed.

Lemma Serialize_one_node_huge (d : list byte) (n : nat) :
  Z.of_nat (length d) = 2 ^ 32 → (12 ≤ n)%nat →
  Serialize open_file (one_node d (sink n))
  = Done tt (one_node d (mkFILE [] truncated (n - 12))).
Proof.
  intros Hd Hn.
  assert (wire (one_node d (sink n)) [1%positive] = truncated) as Hwire.
  { unfold wire, wire_nodes, wire_node. simpl.
    rewrite lookup_singleton_eq. simpl. rewrite Hd.
    change (uint32_cast (2 ^ 32)) with 0.
    change (Z.to_nat 0) with 0%nat. rewrite take_0. reflexivity. }
  rewrite (Serialize_Done _ [1%positive] (one_node_is_list d (sink n))).
  - by rewrite Hwire.
  - rewrite Hwire. simpl. lia.
Qed.

Lemma Deserialize_truncated (d : list byte) (f : FILE) :
  unread f = truncated →
  Deserialize open_file (one_node d f)
  = Done tt (one_node [] (mkFILE [] (written f) (room f))).
Proof. destruct f as [u wr rm]. simpl. intros ->. vm_compute. reflexivity. Qed.

(** Decoding a stream of [n] records with empty payloads and no
    cross-reference. *)
Lemma Deserialize_blank (n : nat) :
  Z.of_nat n < 2 ^ 32 →
  ∃ w ps,
    Deserialize open_file
      (new_list (stream (stream_of (replicate n ([], -1))))) = Done tt w
    ∧ is_list w ps ∧ length ps = n.
Proof.
  intros Hn.
  destruct (Deserialize_resolves
              (new_list (stream (stream_of (replicate n ([], -1))))) []
              (replicate n ([], -1)) [])
    as (w & ps & Hrun & Hl & Hlen & _).
  - apply is_list_nil.
  - apply Forall_replicate. split; simpl; lia.
  - by rewrite length_replicate.
  - simpl. by rewrite app_nil_r.
  - exists w, ps. rewrite length_replicate in Hlen. done.
Qed.

Lemma Deserialize_blank_reachable (n : nat) (w : world) :
  Deserialize open_file
    (new_list (stream (stream_of (replicate n ([], -1))))) = Done tt w →
  reachable w.
Proof.
  intros H.
  apply (reachable_step
           (new_list (stream (stream_of (replicate n ([], -1))))) w
           (op_Deserialize open_file)).
  - apply reachable_new.
  - cbn [perform]. rewrite H. reflexivity.
Qed.

Lemma huge_payload_length : Z.of_nat (length huge_payload) = 2 ^ 32.
Proof.
  unfold huge_payload. rewrite length_replicate.
  apply Z2Nat.id. apply Z.pow_nonneg. lia.
Qed.

Lemma length_spec_encode_one (d : list byte) :
  length (spec_encode [(d, None)]) = (length d + 12)%nat.
Proof.
  unfold spec_encode, spec_encode_node. simpl.
  rewrite !length_app, !length_le_bytes32. simpl. lia.
Qed.

Lemma format_breaks (d : list byte) :
  Z.of_nat (length d) = 2 ^ 32 →
  let w := one_node d (sink (length d + 12)) in
  is_list w [1%positive]
  ∧ (length (spec_encode (records (mem w) [1%positive])) ≤ room (io w))%nat
  ∧ Serialize open_file w
    = Done tt (one_node d (mkFILE [] truncated (length d + 12 - 12)))
  ∧ Serialize open_file w
    ≠ Done tt (with_io (put (spec_encode (records (mem w) [1%positive]))
                          (io w)) w).
Proof.
  intros Hd w. subst w.
  pose proof (Serialize_one_node_huge d (length d + 12) Hd ltac:(lia)) as Hrun.
  split; [apply one_node_is_list|]. rewrite one_node_records.
  split; [by rewrite length_spec_encode_one|]. split; [exact Hrun|].
  rewrite Hrun. intros H.
  apply (f_equal (λ o : outcome unit,
                    match o with
                    | Done _ v => length (written (io v))
                    | _ => 0%nat
                    end)) in H.
  unfold one_node, with_io, put, sink in H. cbn [io written] in H.
  rewrite app_nil_l, length_spec_encode_one in H.
  change (length truncated) with 12%nat in H. lia.
Qed.

(** C2, counterexample: the list of one node whose payload has 2^32
    bytes.  [Serialize] writes a payload length of 0 and no payload byte,
    twelve bytes in all, not the encoding the claim describes. *)
Lemma Serialize_format_counterexample :
  let w := one_node huge_payload (sink (length huge_payload + 12)) in
  is_list w [1%positive]
  ∧ (length (spec_encode (records (mem w) [1%positive])) ≤ room (io w))%nat
  ∧ Serialize open_file w
    = Done tt (one_node huge_payload
                 (mkFILE [] truncated (length huge_payload + 12 - 12)))
  ∧ Serialize open_file w
    ≠ Done tt (with_io (put (spec_encode (records (mem w) [1%positive]))
                          (io w)) w).
Proof. exact (format_breaks huge_payload huge_payload_length). Qed.

Lemma one_node_nodes (d : list byte) (f : FILE) :
  nodes_of (one_node d f) = [1%positive].
Proof. vm_compute. reflexivity. Qed.

Lemma roundtrip_breaks (d : list byte) :
  Z.of_nat (length d) = 2 ^ 32 →
  let w := one_node d (sink (length d + 12)) in
  AddNode d (new_list (sink (length d + 12))) = Done tt w
  ∧ built w
  ∧ (length (spec_encode (records (mem w) (nodes_of w))) ≤ room (io w))%nat
  ∧ Serialize open_file w
    = Done tt (one_node d (mkFILE [] truncated (length d + 12 - 12)))
  ∧ Deserialize open_file (one_node d (stream truncated))
    = Done tt (one_node [] (stream []))
  ∧ records (mem w) (nodes_of w) = [(d, None)]
  ∧ records (mem (one_node [] (stream []))) (nodes_of (one_node [] (stream [])))
    = [([], None)]
  ∧ d ≠ []
  ∧ ¬ roundtrips w (nodes_of w).
Proof.
  intros Hd w. subst w.
  destruct (format_breaks d Hd) as (Hl & Hroom & Hrun & Hne).
  rewrite !one_node_nodes.
  split; [apply AddNode_one_node|]. split.
  { eapply built_AddNode; [apply built_new | apply AddNode_one_node]. }
  split; [done|]. split; [done|].
  split; [by apply (Deserialize_truncated d (stream truncated))|].
  split; [apply one_node_records|]. split; [apply one_node_records|].
  split; [intros ->; simpl in Hd; lia|].
  intros (w1 & Hrun1 & Hw1 & _). apply Hne. rewrite Hrun1. f_equal.
  rewrite Hrun in Hrun1. injection Hrun1 as <-.
  unfold with_io, put, one_node, sink in *. cbn [mem self io written room] in *.
  rewrite app_nil_l in Hw1 |- *. rewrite <- Hw1.
  change (length truncated) with 12%nat. reflexivity.
Qed.

(** C1, counterexample: the list built by appending one payload of 2^32
    bytes.  Encoding it writes a payload length of 0 and no payload byte,
    and decoding what was written gives a node with the empty payload. *)
Lemma roundtrip_counterexample :
  let w := one_node huge_payload (sink (length huge_payload + 12)) in
  AddNode huge_payload (new_list (sink (length huge_payload + 12))) = Done tt w
  ∧ built w
  ∧ (length (spec_encode (records (mem w) (nodes_of w))) ≤ room (io w))%nat
  ∧ Serialize open_file w
    = Done tt (one_node huge_payload
                 (mkFILE [] truncated (length huge_payload + 12 - 12)))
  ∧ Deserialize open_file (one_node huge_payload (stream truncated))
    = Done tt (one_node [] (stream []))
  ∧ records (mem w) (nodes_of w) = [(huge_payload, None)]
  ∧ records (mem (one_node [] (stream []))) (nodes_of (one_node [] (stream [])))
    = [([], None)]
  ∧ huge_payload ≠ []
  ∧ ¬ roundtrips w (nodes_of w).
Proof. exact (roundtrip_breaks huge_payload huge_payload_length). Qed.

Lemma AddNode_full (n : nat) :
  Z.of_nat n = INT_MAX →
  ∃ w ps,
    Deserialize open_file
      (new_list (stream (stream_of (replicate n ([], -1))))) = Done tt w
    ∧ reachable w ∧ is_list w ps
    ∧ count (self w) = INT_MAX
    ∧ AddNode [] w = Fault.
Proof.
  intros Hn.
  destruct (Deserialize_blank n) as (w & ps & Hrun & Hl & Hlen).
  { rewrite Hn. unfold INT_MAX. lia. }
  assert (count (self w) = INT_MAX) as Hc.
  { rewrite (il_count _ _ Hl), Hlen, Hn.
    apply int32_cast_small. unfold INT_MAX. lia. }
  exists w, ps. split; [done|].
  split; [by eapply Deserialize_blank_reachable|]. split; [done|].
  split; [done|]. by eapply AddNode_overflow.
Qed.

(** C6, counterexample: the list decoded from a stream of [INT_MAX]
    records has count [INT_MAX]; the increment of [AddNode] overflows
    there, which is undefined behaviour. *)
Lemma AddNode_counterexample :
  ∃ w ps,
    Deserialize open_file
      (new_list (stream (stream_of (replicate (Z.to_nat INT_MAX) ([], -1)))))
    = Done tt w
    ∧ reachable w ∧ is_list w ps
    ∧ count (self w) = INT_MAX
    ∧ AddNode [] w = Fault.
Proof.
  apply (AddNode_full (Z.to_nat INT_MAX)).
  apply Z2Nat.id. unfold INT_MAX. lia.
Qed.

Lemma count_wraps (n : nat) :
  Z.of_nat n = 2 ^ 31 →
  ∃ w ps,
    Deserialize open_file
      (new_list (stream (stream_of (replicate n ([], -1))))) = Done tt w
    ∧ reachable w
    ∧ traversal w = Some ps
    ∧ Z.of_nat (length ps) = 2 ^ 31
    ∧ count (self w) = - 2 ^ 31.
Proof.
  intros Hn.
  destruct (Deserialize_blank n) as (w & ps & Hrun & Hl & Hlen).
  { rewrite Hn. lia. }
  exists w, ps. split; [done|].
  split; [by eapply Deserialize_blank_reachable|].
  split; [by apply is_list_traversal|]. split; [by rewrite Hlen|].
  rewrite (il_count _ _ Hl), Hlen, Hn. reflexivity.
Qed.

(** C7, counterexample: decoding a stream of 2^31 records is a public
    operation that returns a list whose chain has 2^31 nodes and whose
    count is -2^31. *)
Lemma reachable_chain_counterexample :
  ∃ w ps,
    Deserialize open_file
      (new_list (stream (stream_of (replicate (Z.to_nat (2 ^ 31)) ([], -1)))))
    = Done tt w
    ∧ reachable w
    ∧ traversal w = Some ps
    ∧ Z.of_nat (length ps) = 2 ^ 31
    ∧ count (self w) = - 2 ^ 31.
Proof.
  apply (count_wraps (Z.to_nat (2 ^ 31))).
  apply Z2Nat.id. apply Z.pow_nonneg. lia.
Qed.

(** * The properties at work on a small list *)

(** C1, witness: the round trip of [demo]. *)
Lemma roundtrip_witness :
  built demo
  ∧ Forall (λ r, Z.of_nat (length r.1) < 2 ^ 32)
      (records (mem demo) (nodes_of demo))
  ∧ (length (spec_encode (records (mem demo) (nodes_of demo)))
     ≤ room (io demo))%nat
  ∧ roundtrips demo (nodes_of demo).
Proof.
  assert (built demo) as Hb.
  { apply (built_SetRand
             (after (SetRand 0 1)
                (after (AddNode [x62])
                   (after (AddNode [x61]) (new_list (sink 64)))))
             _ 1 1); [|vm_compute; split; [discriminate|reflexivity]
                      |vm_compute; split; [discriminate|reflexivity]
                      |vm_compute; reflexivity].
    apply (built_SetRand
             (after (AddNode [x62])
                (after (AddNode [x61]) (new_list (sink 64))))
             _ 0 1); [|vm_compute; split; [discriminate|reflexivity]
                      |vm_compute; split; [discriminate|reflexivity]
                      |vm_compute; reflexivity].
    apply (built_AddNode (after (AddNode [x61]) (new_list (sink 64)))
             _ [x62]); [|vm_compute; reflexivity].
    apply (built_AddNode (new_list (sink 64)) _ [x61]);
      [|vm_compute; reflexivity].
    apply built_new. }
  assert (Forall (λ r, Z.of_nat (length r.1) < 2 ^ 32)
            (records (mem demo) (nodes_of demo))) as Hfit.
  { assert (records (mem demo) (nodes_of demo)
            = [([x61], Some 1%nat); ([x62], Some 1%nat)]) as ->
      by (vm_compute; reflexivity).
    repeat constructor; simpl; lia. }
  assert (length (spec_encode (records (mem demo) (nodes_of demo)))
          ≤ room (io demo))%nat as Hroom by (vm_compute; lia).
  split; [exact Hb|]. split; [exact Hfit|]. split; [exact Hroom|].
  exact (roundtrip demo Hb Hfit Hroom).
Defined.

(** C2, witness: the bytes written for [demo]. *)
Lemma Serialize_format_witness :
  is_list demo demo_nodes
  ∧ fits32 (records (mem demo) demo_nodes)
  ∧ (length (spec_encode (records (mem demo) demo_nodes))
     ≤ room (io demo))%nat
  ∧ Serialize open_file demo
    = Done tt (with_io (put (spec_encode (records (mem demo) demo_nodes))
                          (io demo)) demo).
Proof.
  assert (is_list demo demo_nodes) as Hl
    by (apply is_listb_sound; vm_compute; reflexivity).
  assert (fits32 (records (mem demo) demo_nodes)) as Hfit
    by (split; [vm_compute; reflexivity
               | repeat constructor; vm_compute; reflexivity]).
  assert (length (spec_encode (records (mem demo) demo_nodes))
          ≤ room (io demo))%nat as Hroom by (vm_compute; lia).
  split; [exact Hl|]. split; [exact Hfit|]. split; [exact Hroom|].
  exact (Serialize_format demo demo_nodes Hl Hfit Hroom).
Defined.

(** C3, witness: decoding [demo_records]. *)
Lemma Deserialize_resolves_witness :
  let w := new_list (stream (stream_of demo_records)) in
  is_list w []
  ∧ Forall record_fits demo_records
  ∧ Z.of_nat (length demo_records) < 2 ^ 32
  ∧ unread (io w) = stream_of demo_records ++ []
  ∧ ∃ w' ps,
      Deserialize open_file w = Done tt w'
      ∧ is_list w' ps
      ∧ length ps = length demo_records
      ∧ ∀ i p d idx, ps !! i = Some p → demo_records !! i = Some (d, idx) →
          ∃ nd, mem w' !! p = Some nd ∧ data nd = d
                ∧ (0 ≤ idx < Z.of_nat (length demo_records) →
                     is_Some (rand nd) ∧ rand nd = ps !! Z.to_nat idx)
                ∧ (¬ 0 ≤ idx < Z.of_nat (length demo_records) →
                     rand nd = None).
Proof.
  intros w.
  assert (is_list w []) as Hl
    by (apply is_listb_sound; vm_compute; reflexivity).
  assert (Forall record_fits demo_records) as Hfit
    by (repeat constructor; simpl; lia).
  assert (Z.of_nat (length demo_records) < 2 ^ 32) as Hn by (simpl; lia).
  assert (unread (io w) = stream_of demo_records ++ []) as Hbs
    by (symmetry; apply app_nil_r).
  split; [exact Hl|]. split; [exact Hfit|].
  split; [exact Hn|]. split; [exact Hbs|].
  exact (Deserialize_resolves w [] demo_records [] Hl Hfit Hn Hbs).
Defined.

(** C4, witness: [SetRand 0 2] on [demo], whose count is 2. *)
Lemma SetRand_spec_witness :
  is_list demo demo_nodes
  ∧ (¬ (in_range (self demo) 0 ∧ in_range (self demo) 2) →
       SetRand 0 2 demo = Done tt demo)
  ∧ (in_range (self demo) 0 → in_range (self demo) 2 →
       ∃ p q nd,
         demo_nodes !! Z.to_nat 0 = Some p ∧ demo_nodes !! Z.to_nat 2 = Some q
         ∧ mem demo !! p = Some nd
         ∧ SetRand 0 2 demo
           = Done tt (with_mem (<[p := set_rand (Some q) nd]> (mem demo)) demo)).
Proof.
  assert (is_list demo demo_nodes) as Hl
    by (apply is_listb_sound; vm_compute; reflexivity).
  split; [exact Hl|].
  exact (SetRand_spec demo demo_nodes 0 2 Hl).
Defined.

(** C5, witness: the round trip of a new list. *)
Lemma empty_roundtrip_witness :
  self (new_list (sink 4)) = empty_list
  ∧ (4 ≤ room (io (new_list (sink 4))))%nat
  ∧ ∃ w1,
      Serialize open_file (new_list (sink 4)) = Done tt w1
      ∧ written (io w1) = written (io (new_list (sink 4))) ++ le_bytes32 0
      ∧ ∀ w2 ps2 rest,
          is_list w2 ps2 → unread (io w2) = le_bytes32 0 ++ rest →
          ∃ w3, Deserialize open_file w2 = Done tt w3 ∧ self w3 = empty_list.
Proof.
  split; [reflexivity|]. split; [simpl; lia|].
  apply (empty_roundtrip (new_list (sink 4))); [reflexivity | simpl; lia].
Defined.

(** C6, witness: appending to [demo]. *)
Lemma AddNode_spec_witness :
  is_list demo demo_nodes
  ∧ count (self demo) ≠ INT_MAX
  ∧ ∃ w' p,
      AddNode [x63] demo = Done tt w'
      ∧ mem demo !! p = None
      ∧ is_list w' (demo_nodes ++ [p])
      ∧ mem w' !! p = Some (mkNode (last demo_nodes) None None [x63])
      ∧ (∀ q nd, mem demo !! q = Some nd →
           ∃ nd', mem w' !! q = Some nd' ∧ data nd' = data nd
                  ∧ rand nd' = rand nd)
      ∧ count (self w') = count (self demo) + 1
      ∧ io w' = io demo.
Proof.
  assert (is_list demo demo_nodes) as Hl
    by (apply is_listb_sound; vm_compute; reflexivity).
  assert (count (self demo) ≠ INT_MAX) as Hc by (vm_compute; discriminate).
  split; [exact Hl|]. split; [exact Hc|].
  exact (AddNode_spec demo demo_nodes [x63] Hl Hc).
Defined.

(** C7, witness: the chain of [demo]. *)
Lemma reachable_chain_witness :
  reachable demo
  ∧ ∃ ps,
      traversal demo = Some ps
      ∧ NoDup ps
      ∧ tail (self demo) = last ps
      ∧ count (self demo) = int32_cast (Z.of_nat (length ps))
      ∧ (Z.of_nat (length ps) < 2 ^ 31 →
           count (self demo) = Z.of_nat (length ps)).
Proof.
  assert (reachable demo) as Hr.
  { apply (reachable_step
             (after (SetRand 0 1)
                (after (AddNode [x62])
                   (after (AddNode [x61]) (new_list (sink 64)))))
             _ (op_SetRand 1 1)); [|vm_compute; reflexivity].
    apply (reachable_step
             (after (AddNode [x62])
                (after (AddNode [x61]) (new_list (sink 64))))
             _ (op_SetRand 0 1)); [|vm_compute; reflexivity].
    apply (reachable_step (after (AddNode [x61]) (new_list (sink 64)))
             _ (op_AddNode [x62])); [|vm_compute; reflexivity].
    apply (reachable_step (new_list (sink 64)) _ (op_AddNode [x61]));
      [|vm_compute; reflexivity].
    apply reachable_new. }
  split; [exact Hr|].
  exact (reachable_chain demo Hr).
Defined.

(** C8, witness: clearing [demo]. *)
Lemma Clear_spec_witness :
  is_list demo demo_nodes
  ∧ ∃ w',
      Clear demo = Done tt w'
      ∧ self w' = empty_list
      ∧ (∀ p, mem w' !! p
              = if decide (p ∈ demo_nodes) then None else mem demo !! p)
      ∧ Clear w' = Done tt w'.
Proof.
  assert (is_list demo demo_nodes) as Hl
    by (apply is_listb_sound; vm_compute; reflexivity).
  split; [exact Hl|].
  exact (Clear_spec demo demo_nodes Hl).
Defined.

(** C9, witness: decoding [short_stream] into [demo]. *)
Lemma Deserialize_failure_witness :
  Deserialize open_file (with_io (stream short_stream) demo)
  = Throw "Error reading node data...stopped"
      (mkWorld ∅ empty_list (stream []))
  ∧ head (self (mkWorld ∅ empty_list (stream []))) = None
  ∧ tail (self (mkWorld ∅ empty_list (stream []))) = None
  ∧ count (self (mkWorld ∅ empty_list (stream []))) = 0.
Proof.
  assert (Deserialize open_file (with_io (stream short_stream) demo)
          = Throw "Error reading node data...stopped"
              (mkWorld ∅ empty_list (stream []))) as H
    by (vm_compute; reflexivity).
  split; [exact H|].
  exact (Deserialize_failure open_file _ _ _ H).
Defined.

(** C10, witness: encoding [demo] on a device with room for ten bytes. *)
Lemma Serialize_frame_witness :
  is_list (with_io (sink 10) demo) demo_nodes
  ∧ match Serialize open_file (with_io (sink 10) demo) with
    | Done _ w' | Throw _ w' =>
        mem w' = mem (with_io (sink 10) demo)
        ∧ self w' = self (with_io (sink 10) demo)
    | Fault | Diverge => False
    end.
Proof.
  assert (is_list (with_io (sink 10) demo) demo_nodes) as Hl
    by (apply is_listb_sound; vm_compute; reflexivity).
  split; [exact Hl|].
  exact (Serialize_frame (with_io (sink 10) demo) demo_nodes open_file Hl).
Defined.

(** * Further properties of the code *)

(** ** What [Deserialize] frees *)

Lemma release_snoc_fresh (raw : list loc) (m : gmap loc ListNode) (p : loc) nd :
  m !! p = None →
  release (raw ++ [p]) (<[p := nd]> m) = release raw m.
Proof.
  intros Hp. apply map_eq. intros q. rewrite !lookup_release.
  destruct (decide (q = p)) as [->|Hq].
  - rewrite decide_True by (apply elem_of_app; right; by left).
    by destruct (decide (p ∈ raw)).
  - rewrite lookup_insert_ne by done.
    destruct (decide (q ∈ raw)) as [Hin|Hout].
    + rewrite decide_True; [done|]. apply elem_of_app. by left.
    + rewrite decide_False; [done|].
      intros [?| ?%list_elem_of_singleton]%elem_of_app; done.
Qed.

(** When the reading loop throws, the nodes read so far are freed. *)
Lemma Deserialize_read_Throw (todo : nat) :
  ∀ rawNodes randIndices w s w',
    NoDup rawNodes → (∀ q, q ∈ rawNodes → is_Some (mem w !! q)) →
    Deserialize_read todo rawNodes randIndices w = Throw s w' →
    mem w' = release rawNodes (mem w).
Proof.
  induction todo as [|todo IH]; intros raw idxs w s w' Hnd Hlive; simpl;
    [done|].
  rewrite bind_unfold. unfold on_unwind.
  pose proof (readNode_outcome w) as H.
  destruct (readNode w) as [[p idx] w1|s1 w1| |]; try done.
  - destruct H as [-> [nd Hm]].
    pose proof (fresh_not_live (mem w)) as Hp.
    intros E. apply IH in E.
    + by rewrite E, Hm, release_snoc_fresh.
    + apply NoDup_app. split; [done|]. split; [|apply NoDup_singleton].
      intros q Hq ->%list_elem_of_singleton.
      destruct (Hlive _ Hq) as [? ?]. congruence.
    + intros q [Hq| ->%list_elem_of_singleton]%elem_of_app; rewrite Hm.
      * rewrite lookup_insert_ne; [by apply Hlive|].
        intros <-. destruct (Hlive _ Hq) as [? ?]. congruence.
      * rewrite lookup_insert_eq. by eexists.
  - rewrite delete_nodes_live; [|done|].
    + intros E. injection E as _ <-. simpl. by rewrite H.
    + intros q Hq. rewrite H. by apply Hlive.
Qed.

(** When the reading loop returns, so does the rest of [Deserialize]. *)
Lemma Deserialize_read_Done (w w1 w2 : world) (ps : list loc) newCount res :
  is_list w ps →
  readUint32 (mkWorld (release ps (mem w)) empty_list (io w))
  = Done newCount w1 →
  Deserialize_read (Z.to_nat newCount) [] [] w1 = Done res w2 →
  ∃ w', Deserialize open_file w = Done tt w'.
Proof.
  intros Hl E1 E2.
  destruct (readUint32_complete _ _ _ E1) as (Hn & Hbs1 & _).
  destruct (Deserialize_read_complete _ _ _ _ _ _ E2)
    as (recs & Hlen & Hfit & Hbs2).
  destruct (Deserialize_Done w ps recs (unread (io w2)) Hl Hfit)
    as (w' & ps' & Hrun & _); [lia| |by exists w'].
  cbn [io] in Hbs1. by rewrite Hbs1, Hbs2, Hlen, Z2Nat.id by lia.
Qed.

Lemma Deserialize_Throw (w w' : world) (ps : list loc) (file : FILE_ptr)
  (s : string) :
  is_list w ps →
  Deserialize file w = Throw s w' →
  mem w' = release ps (mem w) ∧ self w' = empty_list.
Proof.
  intros Hl H. split; [|by eapply Deserialize_throws_empty].
  pose proof H as H0. unfold Deserialize in H.
  rewrite (bind_Done _ _ _ _ _ (Clear_is_list w ps Hl)) in H.
  destruct file; [by injection H as _ <-|].
  set (w0 := mkWorld _ empty_list (io w)) in H.
  rewrite bind_unfold in H. pose proof (readUint32_outcome w0) as H1.
  destruct (readUint32 w0) as [newCount w1|s1 w1| |] eqn:E1; try done.
  2:{ injection H as _ <-. by rewrite H1. }
  rewrite bind_unfold in H.
  destruct (Deserialize_read _ [] [] w1)
    as [[rawNodes randIndices] w2|s2 w2| |] eqn:E2; try done.
  - destruct (Deserialize_read_Done w w1 w2 ps _ _ Hl E1 E2) as [w3 E3].
    congruence.
  - injection H as _ <-.
    apply Deserialize_read_Throw in E2; [|apply NoDup_nil_2|].
    + by rewrite E2, H1.
    + intros q Hq. by apply elem_of_nil in Hq.
Qed.

(** [Deserialize_Done], with what becomes of the rest of the heap: outside
    the new nodes it is the old heap without the old list. *)
Lemma Deserialize_Done_frame (w : world) (ps0 : list loc)
  (recs : list (list byte * Z)) (rest : list byte) :
  is_list w ps0 →
  Forall record_fits recs →
  Z.of_nat (length recs) < 2 ^ 32 →
  unread (io w)
  = le_bytes32 (Z.of_nat (length recs)) ++ concat (map stream_record recs)
    ++ rest →
  ∃ w' ps,
    Deserialize open_file w = Done tt w'
    ∧ is_list w' ps
    ∧ (∀ p, p ∈ ps → release ps0 (mem w) !! p = None)
    ∧ (∀ p, p ∉ ps → mem w' !! p = release ps0 (mem w) !! p).
Proof.
  intros Hl Hfit Hn Hbs. unfold Deserialize.
  mstep (Clear_is_list w ps0 Hl).
  erewrite bind_Done; [|apply readUint32_enough; msimpl; exact Hbs].
  rewrite uint32_cast_small by lia. msimpl.
  rewrite Nat2Z.id.
  erewrite bind_Done.
  2:{ apply (Deserialize_read_enough recs rest); [done|]. msimpl. done. }
  msimpl. rewrite !app_nil_l.
  destruct (read_heap recs (release ps0 (mem w))) as [ps m2] eqn:E.
  destruct (read_heap_spec recs _ _ _ E)
    as (Hlen & Hnd & Hnew & Hold & Hread).
  cbn [fst snd].
  set (w2 := mkWorld m2 empty_list (rewind rest (rewind _ (io w)))).
  assert (∀ p, p ∈ ps → is_Some (mem w2 !! p)) as Hlive2.
  { intros p [i Hi]%list_elem_of_lookup.
    destruct (lookup_lt_is_Some_2 recs i) as [r Hr].
    { apply lookup_lt_Some in Hi. lia. }
    subst w2. msimpl. rewrite (Hread i p r Hi Hr). by eexists. }
  destruct (setupLinks_Done ps w2 Hnd Hlive2) as (m3 & Hrun3 & Hf3 & Hlinks).
  mstep Hrun3.
  destruct (setupRandPointers_Done ps (map snd recs)
              (mkWorld m3 (self w2) (io w2))) as (m4 & Hrun4 & Hf4 & Hrands).
  { done. }
  { intros p Hp. msimpl.
    destruct (Hlive2 p Hp) as [nd Hpnd].
    apply list_elem_of_lookup in Hp as [i Hi].
    rewrite (Hlinks i p nd Hi Hpnd). by eexists. }
  { by rewrite length_map. }
  mstep Hrun4.
  assert (∀ i p r, ps !! i = Some p → recs !! i = Some r →
            m4 !! p = Some (set_rand (resolve ps r.2)
                              (linked ps i (set_data r.1 default_node))))
    as Hfinal.
  { intros i p r Hi Hr.
    apply (Hrands i p); [done|by rewrite list_lookup_fmap, Hr|].
    msimpl. apply (Hlinks i p); [done|]. subst w2. msimpl. by eapply Hread. }
  set (n := Z.of_nat (length recs)) in *.
  assert (∀ B (k : unit → M B) f,
    ((if 0 <? n
      then set_head (ps !! 0%nat) ;; set_tail (ps !! Z.to_nat (n - 1))
      else set_tail None ;; set_head None) ≫= k)
      (mkWorld m4 empty_list f)
    = k tt (mkWorld m4 (mkList (ps !! 0%nat) (last ps) 0) f)) as Hends.
  { intros B k f. rewrite last_lookup.
    destruct (Z.ltb_spec 0 n) as [Hpos|Hzero].
    - mrun. do 3 f_equal. f_equal. lia.
    - mrun. destruct ps; [done|]. simpl in Hlen. lia. }
  subst w2. msimpl. rewrite Hends. unfold set_count. msimpl.
  eexists _, ps. split; [reflexivity|]. split; [|split; [exact Hnew|]].
  - split; msimpl; try done.
    + by rewrite Hlen.
    + intros i p Hi.
      destruct (lookup_lt_is_Some_2 recs i) as [r Hr].
      { apply lookup_lt_Some in Hi. lia. }
      rewrite (Hfinal i p r Hi Hr). eexists. split; [done|].
      split; [done|]. split; [done|]. simpl. intros q.
      apply resolve_low.
      by destruct (Forall_lookup_1 _ _ _ _ Hfit Hr) as [_ [_ ?]].
  - intros p Hp. msimpl. rewrite (Hf4 p Hp). msimpl.
    rewrite (Hf3 p Hp). msimpl. by apply Hold.
Qed.

(** ** Every live node belongs to the list *)







(** ** [Serialize] on a device that fills up *)

Lemma fill_enough (bs : list byte) (f : FILE) :
  (length bs ≤ room f)%nat → fill bs f = put bs f.
Proof. intros H. unfold fill, put. by rewrite take_ge. Qed.






(** ** The records a stream stands for *)

Lemma resolve_position (ps : list loc) (idx : Z) :
  resolve ps (spec_cross_index (position (length ps) idx)) = resolve ps idx.
Proof.
  unfold resolve, position.
  destruct (Z.leb_spec 0 idx) as [Hpos|Hneg];
    destruct (Z.ltb_spec idx (Z.of_nat (length ps))) as [Hlt|Hge]; simpl;
    try done.
  rewrite Z2Nat.id by done.
  destruct (Z.leb_spec 0 idx); [|lia].
  by destruct (Z.ltb_spec idx (Z.of_nat (length ps))); [|lia].
Qed.

Lemma position_lt (n : nat) (idx : Z) (j : nat) :
  position n idx = Some j → (j < n)%nat.
Proof.
  unfold position.
  destruct (Z.leb_spec 0 idx) as [Hpos|Hneg];
    destruct (Z.ltb_spec idx (Z.of_nat n)) as [Hlt|Hge]; simpl; try done.
  intros [= <-]. lia.
Qed.

Lemma decoded_meaning (recs : list (list byte * Z)) (w' : world)
  (ps : list loc) :
  decoded recs w' ps →
  records (mem w') ps = map (meaning (length recs)) recs.
Proof.
  intros (Hl & Hlen & Hnodes). apply decoded_records.
  - split; [done|]. split; [by rewrite !length_map|].
    intros i p r' Hi Hr'. rewrite !list_lookup_fmap in Hr'.
    destruct (recs !! i) as [r|] eqn:Hr; [|done].
    injection Hr' as <-.
    destruct (Hnodes i p r Hi Hr) as (nd & Hnd & Hdata & Hrand).
    exists nd. split; [done|]. split; [done|].
    simpl. by rewrite <- Hlen, resolve_position.
  - intros r' j [r [-> Hr]]%list_elem_of_fmap Hj. simpl in Hj.
    rewrite length_map. by eapply position_lt.
Qed.

Lemma meaning_fits32 (recs : list (list byte * Z)) (n : nat) :
  Forall record_fits recs → Z.of_nat (length recs) < 2 ^ 32 →
  fits32 (map (meaning n) recs).
Proof.
  intros Hfit Hn. split; [by rewrite length_map|].
  apply Forall_fmap. eapply Forall_impl; [exact Hfit|].
  by intros r [? _].
Qed.

Lemma meaning_canonical (recs : list (list byte * Z)) (n : nat) :
  Forall (λ r, r.2 = -1 ∨ 0 ≤ r.2 < Z.of_nat n) recs →
  map to_stream (map (meaning n) recs) = recs.
Proof.
  induction 1 as [|[d idx] recs Hr _ IH]; [done|]. simpl in *.
  rewrite IH. f_equal. unfold to_stream, meaning, position. simpl. f_equal.
  destruct Hr as [->|Hr]; [done|].
  destruct (Z.leb_spec 0 idx); [|lia].
  destruct (Z.ltb_spec idx (Z.of_nat n)); [|lia].
  simpl. lia.
Qed.

Lemma stream_of_meaning (recs : list (list byte * Z)) (n : nat) :
  Forall (λ r, r.2 = -1 ∨ 0 ≤ r.2 < Z.of_nat n) recs →
  spec_encode (map (meaning n) recs) = stream_of recs.
Proof.
  intros H. rewrite spec_encode_stream, meaning_canonical by done.
  reflexivity.
Qed.

(** ** Lists with the same encoding *)

Lemma is_list_unique (w : world) (ps ps' : list loc) :
  is_list w ps → is_list w ps' → ps = ps'.
Proof.
  intros H H'. apply is_list_traversal in H, H'. congruence.
Qed.

Lemma spec_encode_records_inj (w1 w2 : world) (ps1 ps2 : list loc) :
  is_list w1 ps1 → is_list w2 ps2 →
  fits32 (records (mem w1) ps1) → fits32 (records (mem w2) ps2) →
  spec_encode (records (mem w1) ps1) = spec_encode (records (mem w2) ps2) →
  records (mem w1) ps1 = records (mem w2) ps2
  ∧ cross_payloads (mem w1) ps1 = cross_payloads (mem w2) ps2.
Proof.
  intros Hl1 Hl2 Hf1 Hf2 Henc.
  set (w0 := new_list (stream (spec_encode (records (mem w1) ps1)))).
  assert (is_list w0 []) as Hl0 by apply is_list_nil.
  destruct (roundtrip_decode w1 w0 ps1 [] [] Hl1 Hf1 Hl0)
    as (w3 & ps3 & Hrun & Hl3 & _ & Hrec & Hcross).
  { simpl. by rewrite app_nil_r. }
  destruct (roundtrip_decode w2 w0 ps2 [] [] Hl2 Hf2 Hl0)
    as (w3' & ps3' & Hrun' & Hl3' & _ & Hrec' & Hcross').
  { simpl. by rewrite app_nil_r, Henc. }
  assert (w3' = w3) as -> by congruence.
  rewrite (is_list_unique _ _ _ Hl3' Hl3) in *.
  split; congruence.
Qed.

(** ** Following the links *)

Lemma follow_links (m : gmap loc ListNode) (nodes : list loc) :
  (∀ i p, nodes !! i = Some p →
     ∃ nd, m !! p = Some nd ∧ next nd = nodes !! S i) →
  ∀ k i fuel, length nodes = (i + k)%nat → (k < fuel)%nat →
    follow m fuel (nodes !! i) = Some (drop i nodes).
Proof.
  intros Hnodes. induction k as [|k IH]; intros i fuel Hlen Hfuel.
  - rewrite lookup_ge_None_2, drop_ge by lia. by destruct fuel.
  - destruct (lookup_lt_is_Some_2 nodes i) as [p Hp]; [lia|].
    destruct (Hnodes i p Hp) as (nd & Hnd & Hnext).
    destruct fuel as [|fuel]; [lia|].
    rewrite Hp. simpl. rewrite Hnd, Hnext, (IH (S i)) by lia.
    simpl. by rewrite (drop_S _ _ _ Hp).
Qed.

Lemma follow_back_links (m : gmap loc ListNode) (nodes : list loc) :
  (∀ i p, nodes !! i = Some p →
     ∃ nd, m !! p = Some nd
           ∧ prev nd = match i with O => None | S j => nodes !! j end) →
  ∀ k fuel, (k ≤ length nodes)%nat → (k < fuel)%nat →
    follow_back m fuel (match k with O => None | S j => nodes !! j end)
    = Some (reverse (take k nodes)).
Proof.
  intros Hnodes. induction k as [|k IH]; intros fuel Hlen Hfuel.
  - by destruct fuel.
  - destruct (lookup_lt_is_Some_2 nodes k) as [p Hp]; [lia|].
    destruct (Hnodes k p Hp) as (nd & Hnd & Hprev).
    destruct fuel as [|fuel]; [lia|].
    rewrite Hp. simpl. rewrite Hnd, Hprev, IH by lia.
    simpl. by rewrite (take_S_r _ _ _ Hp), reverse_snoc.
Qed.

Lemma last_as_lookup (nodes : list loc) :
  last nodes = match length nodes with O => None | S j => nodes !! j end.
Proof. destruct nodes as [|p nodes]; [done|]. by rewrite last_lookup. Qed.

Lemma is_list_traversal_back (w : world) (ps : list loc) :
  is_list w ps → traversal_back w = Some (reverse ps).
Proof.
  intros Hl. unfold traversal_back.
  pose proof (is_list_chain _ _ Hl) as Hc.
  pose proof (chain_length _ _ _ (il_nodup _ _ Hl) Hc) as Hlen.
  rewrite (il_tail _ _ Hl), last_as_lookup.
  rewrite (follow_back_links (mem w) ps); [by rewrite take_ge by lia| |lia|lia].
  intros i p Hi.
  destruct (il_nodes _ _ Hl i p Hi) as (nd & Hnd & _ & Hprev & _).
  by exists nd.
Qed.

(** ** Appending in sequence *)

Lemma index_of_app_l (ps qs : list loc) (q : loc) :
  q ∈ ps → index_of (ps ++ qs) q = index_of ps q.
Proof.
  induction ps as [|p ps IH]; intros Hq; [by apply elem_of_nil in Hq|].
  simpl. destruct (decide (p = q)); [done|].
  rewrite IH; [done|]. apply elem_of_cons in Hq as [->|]; done.
Qed.

Lemma appended_records (w : world) (ps : list loc) (d : list byte) :
  is_list w ps →
  records (mem (appended w d)) (ps ++ [fresh (dom (mem w))])
  = records (mem w) ps ++ [(d, None)].
Proof.
  intros Hl.
  destruct (appended_shape w ps d Hl) as (Hp & Hnew & Hold & _).
  set (p := fresh (dom (mem w))) in *.
  unfold records. rewrite map_app. f_equal.
  - apply map_ext_in. intros q Hq%list_elem_of_In.
    destruct (is_list_wire_live w ps Hl q Hq) as (nd & Hnd & Hrand).
    assert (q ≠ p) as Hqp by (by intros ->).
    unfold payload_of, cross_of. rewrite (Hold q nd Hqp Hnd), Hnd. simpl.
    assert (∀ nd' : ListNode, data nd' = data nd → rand nd' = rand nd →
              (data nd', rand nd' ≫= index_of (ps ++ [p]))
              = (data nd, rand nd ≫= index_of ps)) as Heq.
    { intros nd' -> ->. f_equal.
      destruct (rand nd) as [r|] eqn:Er; [|done]. simpl.
      apply index_of_app_l. by apply Hrand. }
    by destruct (decide (Some q = last ps)); apply Heq.
  - simpl. unfold payload_of, cross_of. by rewrite Hnew.
Qed.

Lemma AddNodes_run (ds : list (list byte)) :
  ∀ w ps,
    is_list w ps → Z.of_nat (length ps + length ds) < 2 ^ 31 →
    ∃ w' qs,
      AddNodes ds w = Done tt w'
      ∧ is_list w' (ps ++ qs)
      ∧ length qs = length ds
      ∧ records (mem w') (ps ++ qs)
        = records (mem w) ps ++ map (λ d, (d, None)) ds
      ∧ io w' = io w.
Proof.
  induction ds as [|d ds IH]; intros w ps Hl Hlen.
  - exists w, []. rewrite !app_nil_r. by destruct w.
  - simpl in Hlen.
    assert (count (self w) ≠ INT_MAX) as Hc.
    { rewrite (il_count _ _ Hl), int32_cast_small by lia.
      unfold INT_MAX. lia. }
    pose proof (appended_is_list w ps d Hl Hc) as Hl1.
    destruct (IH (appended w d) (ps ++ [fresh (dom (mem w))]) Hl1)
      as (w' & qs & Hrun & Hl' & Hqs & Hrec & Hio).
    { rewrite length_app. simpl. lia. }
    exists w', (fresh (dom (mem w)) :: qs).
    simpl. rewrite (bind_Done _ _ _ _ _ (AddNode_Done w ps d Hl Hc)).
    rewrite <- app_assoc in Hl', Hrec. simpl in Hl', Hrec.
    split; [done|]. split; [done|]. split; [by rewrite Hqs|].
    split.
    + by rewrite Hrec, appended_records, <- app_assoc.
    + rewrite Hio. by destruct (appended_shape w ps d Hl) as (_ & _ & _ & _ & ?).
Qed.

(** ** Assigning cross-references in sequence *)

Lemma in_range_low (w : world) (ps : list loc) (i : Z) :
  is_list w ps → in_range (self w) i → Z.of_nat (Z.to_nat i) < 2 ^ 31.
Proof.
  intros Hl [Hi0 Hi1]. rewrite (il_count _ _ Hl) in Hi1.
  pose proof (int32_cast_range (Z.of_nat (length ps))). lia.
Qed.

(** ** What [PrintList] sends to [std::cout] *)

Lemma uint32_cast_succ (z : Z) :
  uint32_cast (uint32_cast z + 1) = uint32_cast (z + 1).
Proof. unfold uint32_cast. by rewrite Zplus_mod_idemp_l. Qed.

Lemma PrintList_loop_is_list (w : world) (ps : list loc) :
  is_list w ps →
  ∀ k i fuel cout, length ps = (i + k)%nat → (k < fuel)%nat →
    PrintList_loop fuel (ps !! i) (uint32_cast (Z.of_nat i)) cout w
    = Done (cout ++ print_lines i (rows (mem w) (drop i ps))) w.
Proof.
  intros Hl. induction k as [|k IH]; intros i fuel cout Hlen Hfuel.
  - rewrite lookup_ge_None_2, drop_ge by lia.
    destruct fuel; simpl; by rewrite app_nil_r.
  - destruct (lookup_lt_is_Some_2 ps i) as [p Hp]; [lia|].
    destruct (il_nodes _ _ Hl i p Hp) as (nd & Hnd & Hnext & _ & Hrand).
    destruct fuel as [|fuel]; [lia|].
    rewrite Hp. cbn [PrintList_loop].
    mstep (load_Some _ _ _ Hnd).
    rewrite (drop_S _ _ _ Hp). unfold rows. cbn [map print_lines fst snd].
    fold (rows (mem w) (drop (S i) ps)).
    assert (payload_of (mem w) p = data nd) as ->.
    { unfold payload_of. by rewrite Hnd. }
    rewrite Hnext, uint32_cast_succ.
    replace (Z.of_nat i + 1) with (Z.of_nat (S i)) by lia.
    destruct (rand nd) as [r|] eqn:Er.
    + destruct (Hrand r eq_refl) as (j & Hj & _).
      destruct (is_list_live w ps r Hl) as [ndr Hr];
        [by eapply list_elem_of_lookup_2|].
      mrun. mstep (load_Some _ _ _ Hr).
      assert (cross_payload_of (mem w) p = Some (data ndr)) as ->.
      { unfold cross_payload_of. rewrite Hnd. simpl. rewrite Er. simpl.
        by rewrite Hr. }
      rewrite IH by lia. unfold print_line. simpl default.
      by rewrite <- !app_assoc.
    + mrun.
      assert (cross_payload_of (mem w) p = None) as ->.
      { unfold cross_payload_of. rewrite Hnd. simpl. by rewrite Er. }
      rewrite IH by lia. unfold print_line. simpl default.
      by rewrite <- !app_assoc.
Qed.

Lemma PrintList_is_list (w : world) (ps : list loc) :
  is_list w ps → PrintList w = Done (print_lines 0 (rows (mem w) ps)) w.
Proof.
  intros Hl. unfold PrintList. mrun.
  pose proof (is_list_chain _ _ Hl) as Hc.
  pose proof (chain_length _ _ _ (il_nodup _ _ Hl) Hc) as Hlen.
  rewrite (il_head _ _ Hl).
  change 0 with (uint32_cast (Z.of_nat 0)).
  by rewrite (PrintList_loop_is_list w ps Hl (length ps)) by lia.
Qed.

Lemma rows_records (m : gmap loc ListNode) (ps : list loc) :
  rows m ps = zip (map fst (records m ps)) (cross_payloads m ps).
Proof.
  unfold rows, records, cross_payloads. generalize ps at 1 3 4.
  induction ps0 as [|p qs IH]; [done|]. simpl. by rewrite IH.
Qed.

(** ** The links [setupLinks] leaves *)

Lemma setupLinks_links (nodes : list loc) (w : world) :
  NoDup nodes → (∀ p, p ∈ nodes → is_Some (mem w !! p)) →
  ∃ m', setupLinks nodes w = Done tt (with_mem m' w)
        ∧ (∀ p, p ∉ nodes → m' !! p = mem w !! p)
        ∧ (∀ i p, nodes !! i = Some p →
             ∃ nd, mem w !! p = Some nd ∧ m' !! p = Some (linked nodes i nd)).
Proof.
  intros Hnd Hlive.
  destruct (setupLinks_Done nodes w Hnd Hlive) as (m' & Hrun & Hframe & Hl).
  exists m'. split; [done|]. split; [done|].
  intros i p Hi. destruct (Hlive p) as [nd Hp]; [by eapply list_elem_of_lookup_2|].
  exists nd. split; [done|]. by apply Hl.
Qed.

(** * Properties beyond the specification *)

(** X1: On a well-formed list, [Deserialize] returns when the unread bytes
    begin with a count and that many complete records, and throws on every
    other stream: a stream that ends early is always reported. *)
Theorem Deserialize_accepts (w : world) (ps : list loc) :
  is_list w ps →
  (holds_list (unread (io w)) → ∃ w', Deserialize open_file w = Done tt w')
  ∧ (¬ holds_list (unread (io w)) →
       ∃ what w', Deserialize open_file w = Throw what w').
Proof.
  intros Hl. split.
  - intros (recs & rest & Hfit & Hn & Hbs).
    destruct (Deserialize_Done w ps recs rest Hl Hfit Hn)
      as (w' & _ & Hrun & _); [|by exists w'].
    rewrite Hbs. unfold stream_of. by rewrite <- app_assoc.
  - intros Hno. pose proof (Deserialize_outcome w ps open_file Hl) as Ho.
    destruct (Deserialize open_file w) as [[] w'|what w'| |] eqn:E;
      [|by eexists _, _|done|done].
    exfalso. apply Hno.
    destruct (Deserialize_complete w w' ps Hl E) as (recs & Hfit & Hn & Hbs).
    exists recs, (unread (io w')). split; [done|]. split; [done|].
    rewrite Hbs. unfold stream_of. by rewrite <- app_assoc.
Qed.

(** X2: [Deserialize] reads exactly one encoding and leaves the bytes after
    it unread: two encodings stored one after the other in a stream are
    decoded by two calls in sequence, each call giving the list of its own
    records. *)
Theorem Deserialize_sequence (w : world) (ps0 : list loc)
  (recs1 recs2 : list (list byte * Z)) (rest : list byte) :
  is_list w ps0 →
  Forall record_fits recs1 → Z.of_nat (length recs1) < 2 ^ 32 →
  Forall record_fits recs2 → Z.of_nat (length recs2) < 2 ^ 32 →
  unread (io w) = stream_of recs1 ++ stream_of recs2 ++ rest →
  ∃ w1 ps1 w2 ps2,
    Deserialize open_file w = Done tt w1
    ∧ decoded recs1 w1 ps1
    ∧ unread (io w1) = stream_of recs2 ++ rest
    ∧ Deserialize open_file w1 = Done tt w2
    ∧ decoded recs2 w2 ps2
    ∧ unread (io w2) = rest.
Proof.
  intros Hl Hfit1 Hn1 Hfit2 Hn2 Hbs.
  destruct (Deserialize_Done w ps0 recs1 (stream_of recs2 ++ rest) Hl Hfit1 Hn1)
    as (w1 & ps1 & Hrun1 & Hl1 & Hlen1 & Hio1 & Hnodes1).
  { rewrite Hbs. unfold stream_of. by rewrite <- !app_assoc. }
  destruct (Deserialize_Done w1 ps1 recs2 rest Hl1 Hfit2 Hn2)
    as (w2 & ps2 & Hrun2 & Hl2 & Hlen2 & Hio2 & Hnodes2).
  { rewrite Hio1. unfold rewind, stream_of. cbn [unread].
    by rewrite <- app_assoc. }
  exists w1, ps1, w2, ps2.
  split; [done|]. split; [done|]. split; [by rewrite Hio1|].
  split; [done|]. split; [done|]. by rewrite Hio2.
Qed.

(** X3: When [Deserialize] throws, every node it allocated has been freed
    again: the heap is the one it started from without the nodes of the old
    list, and the list is empty. *)
Theorem Deserialize_failure_frees (w w' : world) (ps : list loc)
  (file : FILE_ptr) (what : string) :
  is_list w ps →
  Deserialize file w = Throw what w' →
  (∀ p, mem w' !! p = if decide (p ∈ ps) then None else mem w !! p)
  ∧ self w' = empty_list.
Proof.
  intros Hl E. destruct (Deserialize_Throw w w' ps file what Hl E) as [Hm Hs].
  split; [|done]. intros p. by rewrite Hm, lookup_release.
Qed.

(** X4: When [Deserialize] returns, the nodes of the old list have been
    freed and the live nodes that belonged to no list are untouched: none
    of them is a node of the new list, and outside the new list the heap is
    the old heap without the old list. *)
Theorem Deserialize_replaces (w w' : world) (ps : list loc) :
  is_list w ps →
  Deserialize open_file w = Done tt w' →
  ∃ ps',
    is_list w' ps'
    ∧ (∀ p, p ∈ ps' → p ∈ ps ∨ mem w !! p = None)
    ∧ ∀ p, p ∉ ps' →
        mem w' !! p = if decide (p ∈ ps) then None else mem w !! p.
Proof.
  intros Hl E.
  destruct (Deserialize_complete w w' ps Hl E) as (recs & Hfit & Hn & Hbs).
  destruct (Deserialize_Done_frame w ps recs _ Hl Hfit Hn Hbs)
    as (w2 & ps' & Hrun & Hl' & Hnew & Hframe).
  assert (w2 = w') as -> by congruence.
  exists ps'. split; [done|]. split.
  - intros p Hp. specialize (Hnew p Hp). rewrite lookup_release in Hnew.
    destruct (decide (p ∈ ps)); [by left|by right].
  - intros p Hp. by rewrite (Hframe p Hp), lookup_release.
Qed.



(** X7: With a null [FILE *], [Serialize] throws and leaves the list as it
    is, whereas [Deserialize] throws only after it has cleared the list:
    the nodes of the old list are freed and the list is empty. *)
Theorem null_file_throws (w : world) (ps : list loc) :
  is_list w ps →
  Serialize null_file w = Throw "File not open for writing...stopped" w
  ∧ Deserialize null_file w
    = Throw "File not open for reading...stopped"
        (mkWorld (release ps (mem w)) empty_list (io w)).
Proof.
  intros Hl. split; [done|]. unfold Deserialize.
  by rewrite (bind_Done _ _ _ _ _ (Clear_is_list w ps Hl)).
Qed.


(** X9: Decoding a stream and encoding the result writes the stream in
    canonical form, every index that names no record replaced by -1; when
    all stored indices are -1 or name a record, the bytes written are the
    bytes read. *)
Theorem decode_encode (w : world) (ps0 : list loc)
  (recs : list (list byte * Z)) (rest : list byte) (f : FILE) :
  is_list w ps0 →
  Forall record_fits recs →
  Z.of_nat (length recs) < 2 ^ 32 →
  unread (io w) = stream_of recs ++ rest →
  (length (spec_encode (map (meaning (length recs)) recs)) ≤ room f)%nat →
  ∃ w',
    Deserialize open_file w = Done tt w'
    ∧ Serialize open_file (with_io f w')
      = Done tt (with_io (put (spec_encode (map (meaning (length recs)) recs))
                            f) w')
    ∧ (Forall (canonical (length recs)) recs →
         spec_encode (map (meaning (length recs)) recs) = stream_of recs).
Proof.
  intros Hl Hfit Hn Hbs Hroom.
  destruct (Deserialize_Done w ps0 recs rest Hl Hfit Hn)
    as (w' & ps & Hrun & Hl' & Hlen & _ & Hnodes).
  { rewrite Hbs. unfold stream_of. by rewrite <- app_assoc. }
  exists w'. split; [done|].
  pose proof (decoded_meaning recs w' ps (conj Hl' (conj Hlen Hnodes))) as Hrec.
  assert (is_list (with_io f w') ps) as Hlf by (by apply (is_list_same w')).
  assert (wire (with_io f w') ps
          = spec_encode (map (meaning (length recs)) recs)) as Hwire.
  { rewrite wire_spec by (simpl; rewrite ?Hrec; by try apply meaning_fits32).
    simpl. by rewrite Hrec. }
  split.
  - rewrite (Serialize_Done _ ps Hlf); rewrite Hwire; done.
  - apply stream_of_meaning.
Qed.

(** X10: The encoding determines the list: two well-formed lists within the
    32-bit limits for which [Serialize] writes the same bytes have the same
    payloads and the same cross-reference positions, node by node. *)
Theorem encoding_injective (w1 w2 : world) (ps1 ps2 : list loc) :
  is_list w1 ps1 → is_list w2 ps2 →
  fits32 (records (mem w1) ps1) → fits32 (records (mem w2) ps2) →
  wire w1 ps1 = wire w2 ps2 →
  records (mem w1) ps1 = records (mem w2) ps2
  ∧ cross_payloads (mem w1) ps1 = cross_payloads (mem w2) ps2.
Proof.
  intros Hl1 Hl2 Hf1 Hf2 Hw. apply spec_encode_records_inj; try done.
  by rewrite <- !wire_spec.
Qed.

(** X11: The [prev] links mirror the [next] links: in every reachable state
    the nodes met from [tail] along [prev] are the nodes met from [head]
    along [next], in reverse order. *)
Theorem reachable_back (w : world) :
  reachable w →
  ∃ ps, traversal w = Some ps ∧ traversal_back w = Some (reverse ps).
Proof.
  intros Hr. destruct (reachable_is_list w Hr) as [ps Hl].
  exists ps. split; [by apply is_list_traversal|].
  by apply is_list_traversal_back.
Qed.

(** X12: Appending payloads one after the other keeps the order of the
    calls: as long as the list stays below 2^31 nodes, the calls return,
    [GetCount] then gives the old number of nodes plus the number of
    calls, and the records are the old ones followed by one record per
    payload, in call order and without cross-reference. *)
Theorem AddNodes_GetCount (w : world) (ps : list loc) (ds : list (list byte)) :
  is_list w ps →
  Z.of_nat (length ps + length ds) < 2 ^ 31 →
  ∃ w' qs,
    (AddNodes ds ;; GetCount) w
    = Done (Z.of_nat (length ps) + Z.of_nat (length ds)) w'
    ∧ is_list w' (ps ++ qs)
    ∧ records (mem w') (ps ++ qs)
      = records (mem w) ps ++ map (λ d, (d, None)) ds.
Proof.
  intros Hl Hlen.
  destruct (AddNodes_run ds w ps Hl Hlen)
    as (w' & qs & Hrun & Hl' & Hqs & Hrec & _).
  exists w', qs. split; [|done].
  rewrite (bind_Done _ _ _ _ _ Hrun). unfold GetCount. mrun.
  rewrite (il_count _ _ Hl'), length_app, Hqs, int32_cast_small by lia.
  unfold mret, M_ret, ret. f_equal. lia.
Qed.

(** X13: The last assignment wins: assigning the cross-reference of a node
    twice has the effect of the second assignment alone. *)
Theorem SetRand_overwrites (w : world) (ps : list loc) (i j k : Z) :
  is_list w ps →
  in_range (self w) i → in_range (self w) j → in_range (self w) k →
  (SetRand i j ;; SetRand i k) w = SetRand i k w.
Proof.
  intros Hl Hi Hj Hk.
  destruct (SetRand_in_range w ps i j Hl Hi Hj)
    as (p & q & nd & Hp & Hq & Hnd & Hrun).
  rewrite (bind_Done _ _ _ _ _ Hrun).
  set (w1 := with_mem _ w) in *.
  assert (is_list w1 ps) as Hl1.
  { apply (is_list_set_rand w ps p q (Z.to_nat j)); [done|done|done|].
    by eapply in_range_low. }
  destruct (SetRand_in_range w1 ps i k Hl1 Hi Hk)
    as (p1 & q1 & nd1 & Hp1 & Hq1 & Hnd1 & ->).
  destruct (SetRand_in_range w ps i k Hl Hi Hk)
    as (p2 & q2 & nd2 & Hp2 & Hq2 & Hnd2 & ->).
  assert (p1 = p) as -> by congruence.
  assert (p2 = p) as -> by congruence.
  assert (q2 = q1) as -> by congruence.
  assert (nd2 = nd) as -> by congruence.
  subst w1. simpl in Hnd1. rewrite lookup_insert_eq in Hnd1.
  injection Hnd1 as <-.
  unfold with_mem. simpl. by rewrite insert_insert_eq.
Qed.

(** X14: Assignments to the cross-references of two different nodes can be
    made in either order. *)
Theorem SetRand_commutes (w : world) (ps : list loc) (i j i' j' : Z) :
  is_list w ps → i ≠ i' →
  in_range (self w) i → in_range (self w) j →
  in_range (self w) i' → in_range (self w) j' →
  (SetRand i j ;; SetRand i' j') w = (SetRand i' j' ;; SetRand i j) w.
Proof.
  intros Hl Hii Hi Hj Hi' Hj'.
  destruct (SetRand_in_range w ps i j Hl Hi Hj)
    as (p & q & nd & Hp & Hq & Hnd & Hrun).
  destruct (SetRand_in_range w ps i' j' Hl Hi' Hj')
    as (p' & q' & nd' & Hp' & Hq' & Hnd' & Hrun').
  assert (p ≠ p') as Hpp.
  { intros <-.
    pose proof (NoDup_lookup _ _ _ _ (il_nodup _ _ Hl) Hp Hp') as E.
    destruct Hi, Hi'. lia. }
  rewrite (bind_Done _ _ _ _ _ Hrun), (bind_Done _ _ _ _ _ Hrun').
  set (w1 := with_mem (<[p := _]> _) w) in *.
  set (w1' := with_mem (<[p' := _]> _) w) in *.
  assert (is_list w1 ps) as Hl1.
  { apply (is_list_set_rand w ps p q (Z.to_nat j)); [done|done|done|].
    by eapply in_range_low. }
  assert (is_list w1' ps) as Hl1'.
  { apply (is_list_set_rand w ps p' q' (Z.to_nat j')); [done|done|done|].
    by eapply in_range_low. }
  destruct (SetRand_in_range w1 ps i' j' Hl1 Hi' Hj')
    as (p2 & q2 & nd2 & Hp2 & Hq2 & Hnd2 & ->).
  destruct (SetRand_in_range w1' ps i j Hl1' Hi Hj)
    as (p3 & q3 & nd3 & Hp3 & Hq3 & Hnd3 & ->).
  assert (p2 = p') as -> by congruence.
  assert (q2 = q') as -> by congruence.
  assert (p3 = p) as -> by congruence.
  assert (q3 = q) as -> by congruence.
  subst w1 w1'. simpl in Hnd2, Hnd3.
  rewrite lookup_insert_ne in Hnd2, Hnd3 by done.
  assert (nd2 = nd') as -> by congruence.
  assert (nd3 = nd) as -> by congruence.
  unfold with_mem. simpl. f_equal. f_equal. by apply insert_insert_ne.
Qed.

(** X15: In every reachable state [PrintList] returns without changing
    anything, and prints one line per node in traversal order: the index
    of the node as a [uint32_t], its payload, and the payload of the node
    its cross-reference points to, or [nullptr]. *)
Theorem PrintList_prints (w : world) :
  reachable w →
  PrintList w = Done (print_lines 0 (rows (mem w) (nodes_of w))) w.
Proof.
  intros Hr. destruct (reachable_is_list w Hr) as [ps Hl].
  unfold nodes_of. rewrite (is_list_traversal w ps Hl). simpl.
  by apply PrintList_is_list.
Qed.

(** X16: The round trip keeps what [PrintList] prints: for a well-formed
    list within the 32-bit limits, the list decoded from its encoding
    prints the same text as the list itself. *)
Theorem PrintList_roundtrip (w w2 : world) (ps ps2 : list loc)
  (rest : list byte) :
  is_list w ps → fits32 (records (mem w) ps) →
  is_list w2 ps2 →
  unread (io w2) = spec_encode (records (mem w) ps) ++ rest →
  ∃ w3 cout,
    Deserialize open_file w2 = Done tt w3
    ∧ PrintList w = Done cout w
    ∧ PrintList w3 = Done cout w3.
Proof.
  intros Hl Hfit Hl2 Hbs.
  destruct (roundtrip_decode w w2 ps ps2 rest Hl Hfit Hl2 Hbs)
    as (w3 & ps3 & Hrun & Hl3 & _ & Hrec & Hcross).
  exists w3, (print_lines 0 (rows (mem w) ps)).
  split; [done|]. split; [by apply PrintList_is_list|].
  rewrite (PrintList_is_list w3 ps3 Hl3).
  by rewrite !rows_records, Hrec, Hcross.
Qed.

(** X17: [readUint32] returns [v] exactly when the unread bytes begin with
    the four bytes of the 32-bit value [v], least significant first, and
    then it has consumed these four bytes and nothing else. *)
Theorem readUint32_spec (w w' : world) (v : Z) :
  readUint32 w = Done v w'
  ↔ 0 ≤ v < 2 ^ 32
    ∧ ∃ rest, unread (io w) = le_bytes32 v ++ rest
              ∧ w' = with_io (rewind rest (io w)) w.
Proof.
  split.
  - intros E. destruct (readUint32_complete w w' v E) as (Hv & Hbs & Hw).
    split; [done|]. by exists (unread (io w')).
  - intros (Hv & rest & Hbs & ->).
    by rewrite (readUint32_enough v rest w Hbs), uint32_cast_small.
Qed.

(** X18: [readNode] returns exactly when the unread bytes begin with one
    complete record; the node it returns is newly allocated, holds the
    payload of the record and has null links.  When it throws, the node it
    had allocated is freed: the heap and the list are as before. *)
Theorem readNode_spec (w w' : world) (p : loc) (idx : Z) :
  (readNode w = Done (p, idx) w'
   ↔ ∃ d rest,
       Z.of_nat (length d) < 2 ^ 32 ∧ - 2 ^ 31 ≤ idx < 2 ^ 31
       ∧ unread (io w) = stream_record (d, idx) ++ rest
       ∧ mem w !! p = None
       ∧ p = fresh (dom (mem w))
       ∧ w' = mkWorld (<[p := mkNode None None None d]> (mem w)) (self w)
                      (rewind rest (io w)))
  ∧ ∀ what v, readNode w = Throw what v → mem v = mem w ∧ self v = self w.
Proof.
  split; [split|].
  - intros E.
    destruct (readNode_complete w w' p idx E) as ([d i] & Hfit & Hi & Hbs).
    simpl in Hi. subst i.
    pose proof (readNode_enough (d, idx) _ w Hfit Hbs) as E'.
    rewrite E in E'. injection E' as -> ->.
    exists d, (unread (io w')). destruct Hfit as [Hd Hidx].
    split; [done|]. split; [done|]. split; [done|].
    split; [apply fresh_not_live|]. split; [done|].
    unfold set_data, default_node. simpl. f_equal.
  - intros (d & rest & Hd & Hidx & Hbs & _ & -> & ->).
    by rewrite (readNode_enough (d, idx) rest w (conj Hd Hidx) Hbs).
  - intros what v E. split.
    + pose proof (readNode_outcome w) as H. by rewrite E in H.
    + pose proof (keeps_readNode (λ u, self u = self w)
                    (λ _ _ H, H) (λ _ _ H, H) w eq_refl) as H.
      by rewrite E in H.
Qed.

(** X19: For distinct live nodes, whatever their links were, [setupLinks]
    returns and makes them a doubly linked chain in the order given:
    following [next] from the first visits them in order, following [prev]
    from the last visits them in reverse; payloads and cross-references
    are kept and no other node is touched. *)
Theorem setupLinks_chain (nodes : list loc) (w : world) :
  NoDup nodes → (∀ p, p ∈ nodes → is_Some (mem w !! p)) →
  ∃ m',
    setupLinks nodes w = Done tt (with_mem m' w)
    ∧ follow m' (S (length nodes)) (nodes !! 0%nat) = Some nodes
    ∧ follow_back m' (S (length nodes)) (last nodes) = Some (reverse nodes)
    ∧ (∀ p nd, mem w !! p = Some nd →
         ∃ nd', m' !! p = Some nd' ∧ data nd' = data nd
                ∧ rand nd' = rand nd)
    ∧ (∀ p, p ∉ nodes → m' !! p = mem w !! p).
Proof.
  intros Hnd Hlive.
  destruct (setupLinks_links nodes w Hnd Hlive) as (m' & Hrun & Hframe & Hl).
  exists m'. split; [done|]. split; [|split; [|split; [|done]]].
  - rewrite (follow_links m' nodes) with (k := length nodes);
      [done| |done|lia].
    intros i p Hi. destruct (Hl i p Hi) as (nd & _ & ->). by eexists.
  - rewrite last_as_lookup.
    rewrite (follow_back_links m' nodes); [by rewrite take_ge by lia| |lia|lia].
    intros i p Hi. destruct (Hl i p Hi) as (nd & _ & ->). by eexists.
  - intros p nd Hp. destruct (decide (p ∈ nodes)) as [Hin|Hout].
    + apply list_elem_of_lookup in Hin as [i Hi].
      destruct (Hl i p Hi) as (nd0 & Hp0 & ->).
      assert (nd0 = nd) as -> by congruence. by eexists.
    + rewrite (Hframe p Hout), Hp. by eexists.
Qed.

(** * The further properties at work on the small list *)

Lemma demo_is_list (f : FILE) : is_list (with_io f demo) demo_nodes.
Proof.
  apply (is_list_same demo); [done|done|].
  apply is_listb_sound. vm_compute. reflexivity.
Qed.

Lemma demo_reachable : reachable demo.
Proof.
  apply (reachable_step
           (after (SetRand 0 1)
              (after (AddNode [x62])
                 (after (AddNode [x61]) (new_list (sink 64)))))
           _ (op_SetRand 1 1)); [|vm_compute; reflexivity].
  apply (reachable_step
           (after (AddNode [x62])
              (after (AddNode [x61]) (new_list (sink 64))))
           _ (op_SetRand 0 1)); [|vm_compute; reflexivity].
  apply (reachable_step (after (AddNode [x61]) (new_list (sink 64)))
           _ (op_AddNode [x62])); [|vm_compute; reflexivity].
  apply (reachable_step (new_list (sink 64)) _ (op_AddNode [x61]));
    [|vm_compute; reflexivity].
  apply reachable_new.
Qed.

Lemma demo_records_fit : Forall record_fits demo_records.
Proof. repeat constructor; simpl; lia. Qed.

Lemma demo_fits32 : fits32 (records (mem demo) demo_nodes).
Proof.
  split; [vm_compute; reflexivity
         | repeat constructor; vm_compute; reflexivity].
Qed.

Lemma demo_in_range (i : Z) : 0 ≤ i < 2 → in_range (self demo) i.
Proof. intros H. unfold in_range. by change (count (self demo)) with 2. Qed.

(** X1, witness: [short_stream] read into [demo]. *)
Lemma Deserialize_accepts_witness :
  let w := with_io (stream short_stream) demo in
  is_list w demo_nodes
  ∧ (holds_list (unread (io w)) → ∃ w', Deserialize open_file w = Done tt w')
  ∧ (¬ holds_list (unread (io w)) →
       ∃ what w', Deserialize open_file w = Throw what w').
Proof.
  intros w.
  assert (is_list w demo_nodes) as Hl by apply demo_is_list.
  split; [exact Hl|].
  exact (Deserialize_accepts w demo_nodes Hl).
Defined.

(** X2, witness: [demo_records] stored twice, then one more byte. *)
Lemma Deserialize_sequence_witness :
  let w := new_list (stream (stream_of demo_records ++ stream_of demo_records
                             ++ [x00])) in
  is_list w []
  ∧ Forall record_fits demo_records
  ∧ Z.of_nat (length demo_records) < 2 ^ 32
  ∧ unread (io w) = stream_of demo_records ++ stream_of demo_records ++ [x00]
  ∧ ∃ w1 ps1 w2 ps2,
      Deserialize open_file w = Done tt w1
      ∧ decoded demo_records w1 ps1
      ∧ unread (io w1) = stream_of demo_records ++ [x00]
      ∧ Deserialize open_file w1 = Done tt w2
      ∧ decoded demo_records w2 ps2
      ∧ unread (io w2) = [x00].
Proof.
  intros w.
  assert (is_list w []) as Hl by apply is_list_nil.
  assert (Z.of_nat (length demo_records) < 2 ^ 32) as Hn by (simpl; lia).
  assert (unread (io w)
          = stream_of demo_records ++ stream_of demo_records ++ [x00]) as Hbs
    by reflexivity.
  split; [exact Hl|]. split; [exact demo_records_fit|].
  split; [exact Hn|]. split; [exact Hbs|].
  exact (Deserialize_sequence w [] demo_records demo_records [x00] Hl
           demo_records_fit Hn demo_records_fit Hn Hbs).
Defined.

(** X3, witness: decoding [short_stream] into [demo] throws and leaves an
    empty heap. *)
Lemma Deserialize_failure_frees_witness :
  let w := with_io (stream short_stream) demo in
  let w' := mkWorld ∅ empty_list (stream []) in
  is_list w demo_nodes
  ∧ Deserialize open_file w = Throw "Error reading node data...stopped" w'
  ∧ (∀ p, mem w' !! p = if decide (p ∈ demo_nodes) then None else mem w !! p)
  ∧ self w' = empty_list.
Proof.
  intros w w'.
  assert (is_list w demo_nodes) as Hl by apply demo_is_list.
  assert (Deserialize open_file w
          = Throw "Error reading node data...stopped" w') as H
    by (vm_compute; reflexivity).
  split; [exact Hl|]. split; [exact H|].
  exact (Deserialize_failure_frees w w' demo_nodes open_file _ Hl H).
Defined.

(** X4, witness: decoding [demo_records] into [demo]. *)
Lemma Deserialize_replaces_witness :
  let w := with_io (stream (stream_of demo_records)) demo in
  let w' := after (Deserialize open_file) w in
  is_list w demo_nodes
  ∧ Deserialize open_file w = Done tt w'
  ∧ ∃ ps',
      is_list w' ps'
      ∧ (∀ p, p ∈ ps' → p ∈ demo_nodes ∨ mem w !! p = None)
      ∧ ∀ p, p ∉ ps' →
          mem w' !! p = if decide (p ∈ demo_nodes) then None else mem w !! p.
Proof.
  intros w w'.
  assert (is_list w demo_nodes) as Hl by apply demo_is_list.
  assert (Deserialize open_file w = Done tt w') as H
    by (vm_compute; reflexivity).
  split; [exact Hl|]. split; [exact H|].
  exact (Deserialize_replaces w w' demo_nodes Hl H).
Defined.



(** X7, witness: a null file given to [demo]. *)
Lemma null_file_throws_witness :
  is_list (with_io (sink 64) demo) demo_nodes
  ∧ Serialize null_file (with_io (sink 64) demo)
    = Throw "File not open for writing...stopped" (with_io (sink 64) demo)
  ∧ Deserialize null_file (with_io (sink 64) demo)
    = Throw "File not open for reading...stopped"
        (mkWorld (release demo_nodes (mem (with_io (sink 64) demo)))
                 empty_list (io (with_io (sink 64) demo))).
Proof.
  split; [exact (demo_is_list (sink 64))|].
  exact (null_file_throws (with_io (sink 64) demo) demo_nodes
           (demo_is_list (sink 64))).
Defined.


(** X9, witness: [demo_records], whose second index names no record,
    decoded and encoded again. *)
Lemma decode_encode_witness :
  let w := new_list (stream (stream_of demo_records)) in
  let n := length demo_records in
  is_list w []
  ∧ Forall record_fits demo_records
  ∧ Z.of_nat n < 2 ^ 32
  ∧ unread (io w) = stream_of demo_records ++ []
  ∧ (length (spec_encode (map (meaning n) demo_records)) ≤ room (sink 64))%nat
  ∧ ∃ w',
      Deserialize open_file w = Done tt w'
      ∧ Serialize open_file (with_io (sink 64) w')
        = Done tt (with_io (put (spec_encode (map (meaning n) demo_records))
                              (sink 64)) w')
      ∧ (Forall (canonical n) demo_records →
           spec_encode (map (meaning n) demo_records)
           = stream_of demo_records).
Proof.
  intros w n.
  assert (is_list w []) as Hl by apply is_list_nil.
  assert (Z.of_nat n < 2 ^ 32) as Hn by (subst n; simpl; lia).
  assert (unread (io w) = stream_of demo_records ++ []) as Hbs
    by (symmetry; apply app_nil_r).
  assert (length (spec_encode (map (meaning n) demo_records))
          ≤ room (sink 64))%nat as Hroom by (vm_compute; lia).
  split; [exact Hl|]. split; [exact demo_records_fit|].
  split; [exact Hn|]. split; [exact Hbs|]. split; [exact Hroom|].
  exact (decode_encode w [] demo_records [] (sink 64) Hl
           demo_records_fit Hn Hbs Hroom).
Defined.

(** X10, witness: [demo] and the list decoded from its encoding. *)
Lemma encoding_injective_witness :
  let w1 := demo in
  let w2 := after (Deserialize open_file)
              (new_list (stream (wire demo demo_nodes))) in
  is_list w1 demo_nodes ∧ is_list w2 demo_nodes
  ∧ fits32 (records (mem w1) demo_nodes)
  ∧ fits32 (records (mem w2) demo_nodes)
  ∧ wire w1 demo_nodes = wire w2 demo_nodes
  ∧ records (mem w1) demo_nodes = records (mem w2) demo_nodes
  ∧ cross_payloads (mem w1) demo_nodes = cross_payloads (mem w2) demo_nodes.
Proof.
  intros w1 w2.
  assert (is_list w1 demo_nodes) as Hl1
    by (apply is_listb_sound; vm_compute; reflexivity).
  assert (is_list w2 demo_nodes) as Hl2
    by (apply is_listb_sound; vm_compute; reflexivity).
  assert (fits32 (records (mem w2) demo_nodes)) as Hf2
    by (split; [vm_compute; reflexivity
               | repeat constructor; vm_compute; reflexivity]).
  assert (wire w1 demo_nodes = wire w2 demo_nodes) as Hw
    by (vm_compute; reflexivity).
  split; [exact Hl1|]. split; [exact Hl2|]. split; [exact demo_fits32|].
  split; [exact Hf2|]. split; [exact Hw|].
  exact (encoding_injective w1 w2 demo_nodes demo_nodes Hl1 Hl2
           demo_fits32 Hf2 Hw).
Defined.

(** X11, witness: [demo] traversed both ways. *)
Lemma reachable_back_witness :
  reachable demo
  ∧ ∃ ps, traversal demo = Some ps ∧ traversal_back demo = Some (reverse ps).
Proof.
  split; [exact demo_reachable|].
  exact (reachable_back demo demo_reachable).
Defined.

(** X12, witness: "c" and "d" appended to [demo]. *)
Lemma AddNodes_GetCount_witness :
  let ds := [[x63]; [x64]] in
  is_list demo demo_nodes
  ∧ Z.of_nat (length demo_nodes + length ds) < 2 ^ 31
  ∧ ∃ w' qs,
      (AddNodes ds ;; GetCount) demo
      = Done (Z.of_nat (length demo_nodes) + Z.of_nat (length ds)) w'
      ∧ is_list w' (demo_nodes ++ qs)
      ∧ records (mem w') (demo_nodes ++ qs)
        = records (mem demo) demo_nodes ++ map (λ d, (d, None)) ds.
Proof.
  intros ds.
  assert (is_list demo demo_nodes) as Hl
    by (apply is_listb_sound; vm_compute; reflexivity).
  assert (Z.of_nat (length demo_nodes + length ds) < 2 ^ 31) as Hlen
    by (simpl; lia).
  split; [exact Hl|]. split; [exact Hlen|].
  exact (AddNodes_GetCount demo demo_nodes ds Hl Hlen).
Defined.

(** X13, witness: the cross-reference of the first node of [demo] assigned
    twice. *)
Lemma SetRand_overwrites_witness :
  is_list demo demo_nodes
  ∧ in_range (self demo) 0 ∧ in_range (self demo) 0 ∧ in_range (self demo) 1
  ∧ (SetRand 0 0 ;; SetRand 0 1) demo = SetRand 0 1 demo.
Proof.
  assert (is_list demo demo_nodes) as Hl
    by (apply is_listb_sound; vm_compute; reflexivity).
  assert (in_range (self demo) 0) as H0 by (apply demo_in_range; lia).
  assert (in_range (self demo) 1) as H1 by (apply demo_in_range; lia).
  split; [exact Hl|]. split; [exact H0|]. split; [exact H0|].
  split; [exact H1|].
  exact (SetRand_overwrites demo demo_nodes 0 0 1 Hl H0 H0 H1).
Defined.

(** X14, witness: the cross-references of the two nodes of [demo] assigned
    in both orders. *)
Lemma SetRand_commutes_witness :
  is_list demo demo_nodes
  ∧ 0 ≠ 1
  ∧ in_range (self demo) 0 ∧ in_range (self demo) 1
  ∧ (SetRand 0 0 ;; SetRand 1 0) demo = (SetRand 1 0 ;; SetRand 0 0) demo.
Proof.
  assert (is_list demo demo_nodes) as Hl
    by (apply is_listb_sound; vm_compute; reflexivity).
  assert (0 ≠ 1) as Hne by lia.
  assert (in_range (self demo) 0) as H0 by (apply demo_in_range; lia).
  assert (in_range (self demo) 1) as H1 by (apply demo_in_range; lia).
  split; [exact Hl|]. split; [exact Hne|]. split; [exact H0|].
  split; [exact H1|].
  exact (SetRand_commutes demo demo_nodes 0 0 1 0 Hl Hne H0 H0 H1 H0).
Defined.

(** X15, witness: what [PrintList] prints for [demo]. *)
Lemma PrintList_prints_witness :
  reachable demo
  ∧ PrintList demo
    = Done (print_lines 0 (rows (mem demo) (nodes_of demo))) demo.
Proof.
  split; [exact demo_reachable|].
  exact (PrintList_prints demo demo_reachable).
Defined.

(** X16, witness: [demo] and the list decoded from its encoding print the
    same text. *)
Lemma PrintList_roundtrip_witness :
  let w2 := new_list (stream (spec_encode (records (mem demo) demo_nodes))) in
  is_list demo demo_nodes
  ∧ fits32 (records (mem demo) demo_nodes)
  ∧ is_list w2 []
  ∧ unread (io w2) = spec_encode (records (mem demo) demo_nodes) ++ []
  ∧ ∃ w3 cout,
      Deserialize open_file w2 = Done tt w3
      ∧ PrintList demo = Done cout demo
      ∧ PrintList w3 = Done cout w3.
Proof.
  intros w2.
  assert (is_list demo demo_nodes) as Hl
    by (apply is_listb_sound; vm_compute; reflexivity).
  assert (is_list w2 []) as Hl2 by apply is_list_nil.
  assert (unread (io w2) = spec_encode (records (mem demo) demo_nodes) ++ [])
    as Hbs by (symmetry; apply app_nil_r).
  split; [exact Hl|]. split; [exact demo_fits32|]. split; [exact Hl2|].
  split; [exact Hbs|].
  exact (PrintList_roundtrip demo w2 demo_nodes [] [] Hl demo_fits32 Hl2 Hbs).
Defined.

(** X19, witness: the nodes of [demo] linked in the opposite order. *)
Lemma setupLinks_chain_witness :
  let nodes := [2%positive; 1%positive] in
  NoDup nodes
  ∧ (∀ p, p ∈ nodes → is_Some (mem demo !! p))
  ∧ ∃ m',
      setupLinks nodes demo = Done tt (with_mem m' demo)
      ∧ follow m' (S (length nodes)) (nodes !! 0%nat) = Some nodes
      ∧ follow_back m' (S (length nodes)) (last nodes) = Some (reverse nodes)
      ∧ (∀ p nd, mem demo !! p = Some nd →
           ∃ nd', m' !! p = Some nd' ∧ data nd' = data nd
                  ∧ rand nd' = rand nd)
      ∧ (∀ p, p ∉ nodes → m' !! p = mem demo !! p).
Proof.
  intros nodes.
  assert (NoDup nodes) as Hnd
    by (apply (bool_decide_unpack (NoDup nodes)); vm_compute; exact I).
  assert (∀ p, p ∈ nodes → is_Some (mem demo !! p)) as Hlive.
  { intros p Hp. apply (is_list_live demo demo_nodes).
    - apply is_listb_sound. vm_compute. reflexivity.
    - revert Hp. subst nodes. unfold demo_nodes.
      rewrite !elem_of_cons, !elem_of_nil. tauto. }
  split; [exact Hnd|]. split; [exact Hlive|].
  exact (setupLinks_chain nodes demo Hnd Hlive).
Defined.
